(** * Profit-floor engine and money utilities: a shallow embedding

    This development embeds [lib/econ.ts] (the profit-floor evaluator),
    the [Money] class and the helpers of [lib/pricing.ts], and the preset
    table of [lib/fees.ts], and proves properties of them.  The functions
    built on [Intl.NumberFormat] are left out.

    Numbers.  A TypeScript [number] is modelled by [JS.number]: a rational
    (kept in lowest terms), the two infinities, or [NaN].  Comparisons,
    [Math.round], [Math.ceil], [Math.floor] and [Math.trunc] follow
    ECMAScript on those values.  Arithmetic comes in two kinds.

    - [plus], [minus], [times] and [over] are the operations of IEEE
      doubles: the exact result rounded to the nearest double
      ([roundToDouble]), ties to even, overflowing to an infinity.  The
      evaluator ([mulBps], [computeFeesCents], [evaluateEcon],
      [minPriceForFloorCents], [maxCogsForFloorCents], the rungs of
      [buildPriceLadderCents]) and the scaling of money by a factor
      ([Money.mul], [Money.mulBps]) are written with them: they multiply
      amounts by rates and by arbitrary factors and divide by arbitrary
      amounts.

    - [add], [sub], [mul] and [div] compute exactly.  Charm rounding
      ([roundToCharm], [Money.withCharm]) and the conversions between
      cents and decimal amounts are written with them: they work on whole
      cents, with a division by 100 and sums with a charm ending.  A
      double does the same while the integers involved stay below 2^53;
      where a property of these functions depends on that, its statement
      gives the magnitudes it covers.

    The theorems on integer amounts are stated within the ranges of
    module [Range], where every integer the code computes on the way
    stays below 2^51 and the doubles compute what the integers do.
    Negative zero is identified with zero; no function below divides by a
    value that can be zero.  A [bigint] is a [Z].

    Failure.  A function that can [throw] returns an [outcome]. *)

From Stdlib Require Import ZArith QArith Qround Qreduction Qabs Qpower.
From Stdlib Require Import List Sorted String Ascii Bool Lia Lqa.
Import ListNotations.

(** ** Outcomes of calls that may throw *)

Inductive outcome (A : Type) : Type :=
| Returns (a : A)
| Throws (message : string).

Arguments Returns {A} a.
Arguments Throws {A} message.

Definition bind {A B : Type} (c : outcome A) (k : A -> outcome B) : outcome B :=
  match c with
  | Returns a => k a
  | Throws e => Throws e
  end.

Notation "x <- c ;; k" := (bind c (fun x => k))
  (at level 61, c at next level, right associativity).

(** [a ?? b] on an optional value, and a destructuring default. *)
Definition nullish {A : Type} (o : option A) (d : A) : A :=
  match o with
  | Some v => v
  | None => d
  end.

(** ** ECMAScript numbers *)

Module JS.

Inductive number : Type :=
| Fin (q : Q)
| Infinity
| NegInfinity
| NaN.

Definition ofZ (z : Z) : number := Fin (inject_Z z).

(** Sign-directed choice used by the non-finite cases of [*] and [/]. *)
Definition bySign (q : Q) (pos neg zero : number) : number :=
  match (Qnum q ?= 0)%Z with
  | Gt => pos
  | Lt => neg
  | Eq => zero
  end.

Definition add (x y : number) : number :=
  match x, y with
  | NaN, _ | _, NaN => NaN
  | Fin a, Fin b => Fin (Qred (a + b))
  | Infinity, NegInfinity | NegInfinity, Infinity => NaN
  | Infinity, _ | _, Infinity => Infinity
  | NegInfinity, _ | _, NegInfinity => NegInfinity
  end.

Definition sub (x y : number) : number :=
  match x, y with
  | NaN, _ | _, NaN => NaN
  | Fin a, Fin b => Fin (Qred (a - b))
  | Infinity, Infinity | NegInfinity, NegInfinity => NaN
  | Infinity, _ | _, NegInfinity => Infinity
  | NegInfinity, _ | _, Infinity => NegInfinity
  end.

Definition mul (x y : number) : number :=
  match x, y with
  | NaN, _ | _, NaN => NaN
  | Fin a, Fin b => Fin (Qred (a * b))
  | Fin a, Infinity | Infinity, Fin a => bySign a Infinity NegInfinity NaN
  | Fin a, NegInfinity | NegInfinity, Fin a => bySign a NegInfinity Infinity NaN
  | Infinity, Infinity | NegInfinity, NegInfinity => Infinity
  | Infinity, NegInfinity | NegInfinity, Infinity => NegInfinity
  end.

Definition div (x y : number) : number :=
  match x, y with
  | NaN, _ | _, NaN => NaN
  | Fin a, Fin b =>
      if Qeq_bool b 0 then bySign a Infinity NegInfinity NaN
      else Fin (Qred (a / b))
  | Fin _, _ => Fin 0
  | Infinity, Fin b => if Qle_bool 0 b then Infinity else NegInfinity
  | NegInfinity, Fin b => if Qle_bool 0 b then NegInfinity else Infinity
  | _, _ => NaN
  end.

(** [x <= y], [x < y], [x >= y]: false as soon as an operand is [NaN]. *)
Definition le (x y : number) : bool :=
  match x, y with
  | NaN, _ | _, NaN => false
  | Fin a, Fin b => Qle_bool a b
  | NegInfinity, _ | _, Infinity => true
  | _, _ => false
  end.

Definition lt (x y : number) : bool :=
  match x, y with
  | NaN, _ | _, NaN => false
  | Fin a, Fin b => negb (Qle_bool b a)
  | Infinity, _ | _, NegInfinity => false
  | _, _ => true
  end.

Definition ge (x y : number) : bool := le y x.

(** [x === y] on numbers. *)
Definition strictEq (x y : number) : bool :=
  match x, y with
  | Fin a, Fin b => Qeq_bool a b
  | Infinity, Infinity | NegInfinity, NegInfinity => true
  | _, _ => false
  end.

(** SameValueZero, the equality of [Set] and [Map] keys: as [===] except
    that [NaN] equals itself. *)
Definition sameValueZero (x y : number) : bool :=
  match x, y with
  | NaN, NaN => true
  | _, _ => strictEq x y
  end.

(** Truthiness of a number: [0] and [NaN] are falsy. *)
Definition truthy (x : number) : bool :=
  match x with
  | Fin a => negb (Qeq_bool a 0)
  | NaN => false
  | _ => true
  end.

Definition isFinite (x : number) : bool :=
  match x with
  | Fin _ => true
  | _ => false
  end.

(** [Math.round] rounds to the nearest integer, ties towards +Infinity. *)
Definition Math_round (x : number) : number :=
  match x with
  | Fin a => ofZ (Qfloor (a + (1 # 2)))
  | _ => x
  end.

Definition Math_ceil (x : number) : number :=
  match x with
  | Fin a => ofZ (Qceiling a)
  | _ => x
  end.

Definition Math_floor (x : number) : number :=
  match x with
  | Fin a => ofZ (Qfloor a)
  | _ => x
  end.

Definition Math_trunc (x : number) : number :=
  match x with
  | Fin a => ofZ (Z.quot (Qnum a) (Zpos (Qden a)))
  | _ => x
  end.

(** [BigInt(x)]: a [RangeError] unless [x] is an integer. *)
Definition BigInt (x : number) : outcome Z :=
  match x with
  | Fin a =>
      if Pos.eqb (Qden (Qred a)) 1 then Returns (Qnum (Qred a))
      else Throws "RangeError: not an integer"
  | _ => Throws "RangeError: not an integer"
  end.

(** [Number(b)] for a bigint [b]. *)
Definition Number (b : Z) : number := ofZ b.

(** *** Doubles

    The double nearest to a rational.  A positive [x] with
    [2 ^ e <= x < 2 ^ (e + 1)] is rounded to a multiple of
    [2 ^ (e - 52)] (of [2 ^ -1074] for a subnormal one), the nearer of the
    two around it and the one with an even multiplier on a tie; a result
    of [2 ^ 1024] or more is an infinity. *)

(** The integer nearest to [u], a tie going to the even one. *)
Definition nearestEven (u : Q) : Z :=
  let k := Qfloor u in
  match Qcompare (u - inject_Z k) (1 # 2) with
  | Lt => k
  | Gt => (k + 1)%Z
  | Eq => if Z.even k then k else (k + 1)%Z
  end.

(** [floor (log2 x)] for [x > 0]. *)
Definition ilog2 (x : Q) : Z :=
  if Qle_bool 1 x then Z.log2 (Qfloor x)
  else (- Z.log2_up (Qceiling (/ x)))%Z.

(** The exponent of the last place of the double nearest to [x > 0], and
    its multiplier. *)
Definition scale (x : Q) : Z := (Z.max (ilog2 x) (-1022) - 52)%Z.

Definition mantissa (x : Q) : Z := nearestEven (x / 2 ^ scale x).

(** [None] stands for an overflow. *)
Definition roundPos (x : Q) : option Q :=
  let s := scale x in
  let m := mantissa x in
  if ((971 <? s) || ((s =? 971) && (m =? 2 ^ 53)))%Z%bool then None
  else Some (Qred (inject_Z m * 2 ^ s)).

Definition roundToDouble (x : Q) : number :=
  match Qnum x with
  | Z0 => Fin 0
  | Zpos _ =>
      match roundPos x with
      | Some r => Fin r
      | None => Infinity
      end
  | Zneg _ =>
      match roundPos (- x) with
      | Some r => Fin (Qred (- r))
      | None => NegInfinity
      end
  end.

(** A rational that is a double: rounding leaves it as it is. *)
Definition isDouble (q : Q) : Prop := roundToDouble q = Fin q.

(** [x + y], [x - y], [x * y] and [x / y] on doubles. *)
Definition plus (x y : number) : number :=
  match x, y with
  | NaN, _ | _, NaN => NaN
  | Fin a, Fin b => roundToDouble (a + b)
  | Infinity, NegInfinity | NegInfinity, Infinity => NaN
  | Infinity, _ | _, Infinity => Infinity
  | NegInfinity, _ | _, NegInfinity => NegInfinity
  end.

Definition minus (x y : number) : number :=
  match x, y with
  | NaN, _ | _, NaN => NaN
  | Fin a, Fin b => roundToDouble (a - b)
  | Infinity, Infinity | NegInfinity, NegInfinity => NaN
  | Infinity, _ | _, NegInfinity => Infinity
  | NegInfinity, _ | _, Infinity => NegInfinity
  end.

Definition times (x y : number) : number :=
  match x, y with
  | NaN, _ | _, NaN => NaN
  | Fin a, Fin b => roundToDouble (a * b)
  | Fin a, Infinity | Infinity, Fin a => bySign a Infinity NegInfinity NaN
  | Fin a, NegInfinity | NegInfinity, Fin a => bySign a NegInfinity Infinity NaN
  | Infinity, Infinity | NegInfinity, NegInfinity => Infinity
  | Infinity, NegInfinity | NegInfinity, Infinity => NegInfinity
  end.

Definition over (x y : number) : number :=
  match x, y with
  | NaN, _ | _, NaN => NaN
  | Fin a, Fin b =>
      if Qeq_bool b 0 then bySign a Infinity NegInfinity NaN
      else roundToDouble (a / b)
  | Fin _, _ => Fin 0
  | Infinity, Fin b => if Qle_bool 0 b then Infinity else NegInfinity
  | NegInfinity, Fin b => if Qle_bool 0 b then NegInfinity else Infinity
  | _, _ => NaN
  end.

(** [Array.from(new Set(l))]: the first occurrence of every value, in
    order of insertion. *)
Definition Set_add (acc : list number) (x : number) : list number :=
  if existsb (sameValueZero x) acc then acc else acc ++ [x].

Definition Array_from_Set (l : list number) : list number :=
  fold_left Set_add l [].

(** [Math.abs]. *)
Definition Math_abs (x : number) : number :=
  match x with
  | Fin a => Fin (Qred (Qabs a))
  | NegInfinity => Infinity
  | _ => x
  end.

(** The character of a decimal digit. *)
Definition digitChar (d : Z) : ascii := ascii_of_nat (48 + Z.to_nat d).

(** The decimal digits of [n] written in front of [rest], least
    significant digit first; [fuel] bounds the number of digits. *)
Fixpoint printDigits (fuel : nat) (n : Z) (rest : string) : string :=
  match fuel with
  | O => rest
  | S fuel' =>
      let rest' := String (digitChar (n mod 10)%Z) rest in
      if (n / 10 =? 0)%Z then rest'
      else printDigits fuel' (n / 10)%Z rest'
  end.

(** The decimal representation of a non-negative integer, without
    leading zeroes ("0" for zero). *)
Definition decimalOf (n : Z) : string :=
  printDigits (S (Z.to_nat (Z.log2 n))) n EmptyString.

Fixpoint zeros (k : nat) : string :=
  match k with
  | O => EmptyString
  | S k' => String "0" (zeros k')
  end.

(** [x.toFixed(f)].  A value of magnitude 10^21 or more is printed in
    exponent notation by the digits of its double, which this embedding
    does not hold: there the result is [None]. *)
Definition toFixed (x : number) (f : nat) : option string :=
  match x with
  | NaN => Some "NaN"%string
  | Infinity => Some "Infinity"%string
  | NegInfinity => Some "-Infinity"%string
  | Fin q =>
      let s := if negb (Qle_bool 0 q) then "-"%string else EmptyString in
      let x := Qabs q in
      if Qle_bool (inject_Z (10 ^ 21)) x then None
      else
        let n := Qfloor (x * inject_Z (10 ^ Z.of_nat f) + (1 # 2)) in
        let m := decimalOf n in
        let m :=
          if Nat.eqb f 0 then m
          else
            let k := String.length m in
            let m := if Nat.leb k f then (zeros (f + 1 - k) ++ m)%string
                     else m in
            let k := String.length m in
            (substring 0 (k - f) m ++ "." ++ substring (k - f) f m)%string in
        Some (s ++ m)%string
  end.

End JS.

Import JS.
Open Scope Z_scope.

(** ** lib/econ.ts *)

Module Econ.

Inductive Platform : Type :=
| etsy | ebay | gumroad | shopify | tiktok_shop | stripe_links | other.

Inductive ProductKind : Type :=
| physical | digital | service | flip.

(** Default floors (bps) per product kind. *)
Definition DEFAULT_FLOORS_BPS (kind : ProductKind) : number :=
  match kind with
  | physical => ofZ 3000
  | digital => ofZ 7000
  | service => ofZ 2500
  | flip => ofZ 2500
  end.

(** Default buffer for refunds and defects (bps of price). *)
Definition DEFAULT_BUFFER_BPS : number := ofZ 300.

Record FeePreset : Type := {
  pctBps : number;
  fixedCents : number;
  label : string
}.

(** The preset table.  Every value of type [Platform] is a key, so the
    fallback of [PLATFORM_FEES[platform] ?? PLATFORM_FEES.other] is never
    taken and the lookup is a total function. *)
Definition PLATFORM_FEES (platform : Platform) : FeePreset :=
  match platform with
  | etsy =>
      {| pctBps := plus (ofZ 650) (ofZ 325); fixedCents := ofZ 0;
         label := "Etsy + payment (~9.75%)" |}
  | ebay =>
      {| pctBps := ofZ 1300; fixedCents := ofZ 0;
         label := "eBay final value (avg)" |}
  | gumroad =>
      {| pctBps := ofZ 1000; fixedCents := ofZ 30;
         label := "Gumroad 10% + $0.30" |}
  | shopify =>
      {| pctBps := ofZ 290; fixedCents := ofZ 30;
         label := "Stripe 2.9% + $0.30" |}
  | tiktok_shop =>
      {| pctBps := ofZ 600; fixedCents := ofZ 0;
         label := "TikTok Shop (~6%)" |}
  | stripe_links =>
      {| pctBps := ofZ 290; fixedCents := ofZ 30;
         label := "Stripe 2.9% + $0.30" |}
  | other =>
      {| pctBps := ofZ 300; fixedCents := ofZ 30;
         label := "Generic PSP 3% + $0.30" |}
  end.

(** [Omit<EconInputs, 'priceCents'>]: everything but the price. *)
Module BaseInputs.
Record t : Type := {
  cogsCents : number;
  shippingCents : number;
  packagingCents : option number;
  platform : Platform;
  kind : ProductKind;
  overridePctBps : option number;
  overrideFixedCents : option number;
  bufferBps : option number;
  floorBps : option number
}.
End BaseInputs.

(** [EconInputs]: a price and the remaining fields.  The metadata field
    [country] is read by no function and is left out. *)
Module EconInputs.
Record t : Type := {
  priceCents : number;
  rest : BaseInputs.t
}.
Definition cogsCents (i : t) := BaseInputs.cogsCents (rest i).
Definition shippingCents (i : t) := BaseInputs.shippingCents (rest i).
Definition packagingCents (i : t) := BaseInputs.packagingCents (rest i).
Definition platform (i : t) := BaseInputs.platform (rest i).
Definition kind (i : t) := BaseInputs.kind (rest i).
Definition overridePctBps (i : t) := BaseInputs.overridePctBps (rest i).
Definition overrideFixedCents (i : t) := BaseInputs.overrideFixedCents (rest i).
Definition bufferBps (i : t) := BaseInputs.bufferBps (rest i).
Definition floorBps (i : t) := BaseInputs.floorBps (rest i).
End EconInputs.

Module Breakdown.
Record t : Type := {
  feeLabel : string;
  platformPctBps : number;
  fixedFeeCents : number
}.
End Breakdown.

Module EconResult.
Record t : Type := {
  priceCents : number;
  feesCents : number;
  bufferCents : number;
  cogsCents : number;
  shippingCents : number;
  packagingCents : number;
  profitCents : number;
  marginBps : number;
  pass : bool;
  floorBps : number;
  breakdown : Breakdown.t
}.
End EconResult.

(** Multiply by bps, [amount * (bps / 10000)], rounded to the nearest cent. *)
Definition mulBps (amountCents rateBps : number) : number :=
  Math_round (over (times amountCents rateBps) (ofZ 10000)).

Module Fees.
Record t : Type := {
  feesCents : number;
  pctBps : number;
  fixedCents : number;
  label : string
}.
End Fees.

(** Platform fees: [pct * price + fixed]. *)
Definition computeFeesCents (priceCents : number) (platform : Platform)
    (overridePctBps overrideFixedCents : option number) : Fees.t :=
  let preset := PLATFORM_FEES platform in
  let pctBps := nullish overridePctBps (pctBps preset) in
  let fixedCents := nullish overrideFixedCents (fixedCents preset) in
  let feesCents := plus (mulBps priceCents pctBps) fixedCents in
  {| Fees.feesCents := feesCents; Fees.pctBps := pctBps;
     Fees.fixedCents := fixedCents; Fees.label := label preset |}.

(** Evaluate a SKU against the profit floor. *)
Definition evaluateEcon (input : EconInputs.t) : outcome EconResult.t :=
  let priceCents := EconInputs.priceCents input in
  let cogsCents := EconInputs.cogsCents input in
  let shippingCents := EconInputs.shippingCents input in
  let packagingCents := nullish (EconInputs.packagingCents input) (ofZ 0) in
  let platform := EconInputs.platform input in
  let kind := EconInputs.kind input in
  let overridePctBps := EconInputs.overridePctBps input in
  let overrideFixedCents := EconInputs.overrideFixedCents input in
  let bufferBps := nullish (EconInputs.bufferBps input) DEFAULT_BUFFER_BPS in
  let floorBps :=
    nullish (EconInputs.floorBps input) (DEFAULT_FLOORS_BPS kind) in
  if le priceCents (ofZ 0) then Throws "priceCents must be > 0"
  else
    let fees :=
      computeFeesCents priceCents platform overridePctBps overrideFixedCents in
    let feesCents := Fees.feesCents fees in
    let bufferCents := mulBps priceCents bufferBps in
    let profitCents :=
      minus priceCents
        (plus (plus (plus (plus cogsCents shippingCents) packagingCents)
                 feesCents) bufferCents) in
    let marginBps :=
      Math_round (over (times profitCents (ofZ 10000)) priceCents) in
    let pass := ge marginBps floorBps in
    Returns
      {| EconResult.priceCents := priceCents;
         EconResult.feesCents := feesCents;
         EconResult.bufferCents := bufferCents;
         EconResult.cogsCents := cogsCents;
         EconResult.shippingCents := shippingCents;
         EconResult.packagingCents := packagingCents;
         EconResult.profitCents := profitCents;
         EconResult.marginBps := marginBps;
         EconResult.pass := pass;
         EconResult.floorBps := floorBps;
         EconResult.breakdown :=
           {| Breakdown.feeLabel := Fees.label fees;
              Breakdown.platformPctBps := Fees.pctBps fees;
              Breakdown.fixedFeeCents := Fees.fixedCents fees |} |}.

(** Solve for the minimum price (in cents) that hits the floor. *)
Definition minPriceForFloorCents (input : BaseInputs.t) : number :=
  let cogsCents := BaseInputs.cogsCents input in
  let shippingCents := BaseInputs.shippingCents input in
  let packagingCents := nullish (BaseInputs.packagingCents input) (ofZ 0) in
  let platform := BaseInputs.platform input in
  let kind := BaseInputs.kind input in
  let bufferBps := nullish (BaseInputs.bufferBps input) DEFAULT_BUFFER_BPS in
  let floorBps :=
    nullish (BaseInputs.floorBps input) (DEFAULT_FLOORS_BPS kind) in
  let preset := PLATFORM_FEES platform in
  let pctBps := nullish (BaseInputs.overridePctBps input) (pctBps preset) in
  let fixedCents :=
    nullish (BaseInputs.overrideFixedCents input) (fixedCents preset) in
  let denomBps :=
    minus (minus (minus (ofZ 10000) pctBps) bufferBps) floorBps in
  if le denomBps (ofZ 0) then Infinity
  else
    let rhsCents :=
      plus (plus (plus cogsCents shippingCents) packagingCents) fixedCents in
    Math_ceil (over (times rhsCents (ofZ 10000)) denomBps).

(** Solve for the maximum cost of goods at a given price that still meets
    the floor. *)
Definition maxCogsForFloorCents (input : EconInputs.t) : number :=
  let priceCents := EconInputs.priceCents input in
  let shippingCents := EconInputs.shippingCents input in
  let packagingCents := nullish (EconInputs.packagingCents input) (ofZ 0) in
  let platform := EconInputs.platform input in
  let kind := EconInputs.kind input in
  let bufferBps := nullish (EconInputs.bufferBps input) DEFAULT_BUFFER_BPS in
  let floorBps :=
    nullish (EconInputs.floorBps input) (DEFAULT_FLOORS_BPS kind) in
  let preset := PLATFORM_FEES platform in
  let pctBps := nullish (EconInputs.overridePctBps input) (pctBps preset) in
  let fixedCents :=
    nullish (EconInputs.overrideFixedCents input) (fixedCents preset) in
  let headroomCents :=
    minus
      (over
         (mulBps priceCents
            (minus (minus (minus (ofZ 10000) pctBps) bufferBps) floorBps))
         (ofZ 1))
      (plus (plus shippingCents packagingCents) fixedCents) in
  Math_floor headroomCents.

(** Charm endings. *)
Inductive Charm : Type :=
| charm99   (* '.99' *)
| charm95   (* '.95' *)
| charm90   (* '.90' *)
| none.

Definition endings (charm : Charm) : number :=
  match charm with
  | charm99 => ofZ 99
  | charm95 => ofZ 95
  | charm90 => ofZ 90
  | none => ofZ 0
  end.

(** The local [ensure] of [roundToCharm]: [minCents && n < minCents ?
    minCents : n], where an absent or falsy [minCents] leaves [n]. *)
Definition ensure (minCents : option number) (n : number) : number :=
  match minCents with
  | Some m => if truthy m && lt n m then m else n
  | None => n
  end.

(** Round cents up to meet the charm ending (and never below [minCents]). *)
Definition roundToCharm (priceCents : number) (charm : Charm)
    (minCents : option number) : number :=
  match charm with
  | none => ensure minCents priceCents
  | _ =>
      let dollars := Math_floor (div priceCents (ofZ 100)) in
      let target := add (mul dollars (ofZ 100)) (endings charm) in
      if ge target priceCents then ensure minCents target
      else
        ensure minCents
          (add (mul (add dollars (ofZ 1)) (ofZ 100)) (endings charm))
  end.

(** The callback of [steps.map] in [buildPriceLadderCents], for the
    multiplier [m] at index [i]. *)
Definition rung (baseInput : BaseInputs.t) (charm : Charm) (p0 : number)
    (m : number) (i : nat) : outcome number :=
  let raw := Math_ceil (times p0 m) in
  let charmed := roundToCharm raw charm (Some p0) in
  evalRes <-
    evaluateEcon
      {| EconInputs.priceCents := charmed; EconInputs.rest := baseInput |} ;;
  if negb (EconResult.pass evalRes) && Nat.eqb i 0
  then Returns (roundToCharm (plus p0 (ofZ 1)) charm (Some p0))
  else Returns charmed.

(** [steps.map(f)] from index [i] on; the first callback that throws ends
    the call. *)
Fixpoint mapRungs (baseInput : BaseInputs.t) (charm : Charm) (p0 : number)
    (i : nat) (steps : list number) : outcome (list number) :=
  match steps with
  | [] => Returns []
  | m :: steps' =>
      r <- rung baseInput charm p0 m i ;;
      rs <- mapRungs baseInput charm p0 (S i) steps' ;;
      Returns (r :: rs)
  end.

(** The default arguments of [buildPriceLadderCents]; the literals [1.15]
    and [1.30] stand for the doubles nearest to them. *)
Definition defaultSteps : list number :=
  [ofZ 1; roundToDouble (23 # 20); roundToDouble (13 # 10)].

Definition defaultCharm : Charm := charm99.

(** Build a price ladder from the break-even price. *)
Definition buildPriceLadderCents (baseInput : BaseInputs.t)
    (steps : list number) (charm : Charm) : outcome (list number) :=
  let p0 := minPriceForFloorCents baseInput in
  ladder <- mapRungs baseInput charm p0 0 steps ;;
  Returns (Array_from_Set ladder).

(** One variant of a listing. *)
Module VariantInput.
Record t : Type := {
  sku : string;
  priceCents : number;
  cogsCents : number;
  shippingCents : number;
  packagingCents : option number
}.
End VariantInput.

(** [Omit<EconInputs, 'priceCents' | 'cogsCents' | 'shippingCents' |
    'packagingCents'>]: what the variants of a listing share. *)
Module CommonInputs.
Record t : Type := {
  platform : Platform;
  kind : ProductKind;
  overridePctBps : option number;
  overrideFixedCents : option number;
  bufferBps : option number;
  floorBps : option number
}.
End CommonInputs.

(** [VariantEval]: an [EconResult] with the variant's [sku]. *)
Module VariantEval.
Record t : Type := {
  sku : string;
  result : EconResult.t
}.
End VariantEval.

(** The callback of [variants.map] in [evaluateVariants]. *)
Definition evaluateVariant (common : CommonInputs.t) (v : VariantInput.t)
    : outcome VariantEval.t :=
  res <-
    evaluateEcon
      {| EconInputs.priceCents := VariantInput.priceCents v;
         EconInputs.rest :=
           {| BaseInputs.cogsCents := VariantInput.cogsCents v;
              BaseInputs.shippingCents := VariantInput.shippingCents v;
              BaseInputs.packagingCents :=
                Some (nullish (VariantInput.packagingCents v) (ofZ 0));
              BaseInputs.platform := CommonInputs.platform common;
              BaseInputs.kind := CommonInputs.kind common;
              BaseInputs.overridePctBps :=
                CommonInputs.overridePctBps common;
              BaseInputs.overrideFixedCents :=
                CommonInputs.overrideFixedCents common;
              BaseInputs.bufferBps := CommonInputs.bufferBps common;
              BaseInputs.floorBps := CommonInputs.floorBps common |} |} ;;
  Returns {| VariantEval.sku := VariantInput.sku v;
             VariantEval.result := res |}.

(** Evaluate a set of variants; the first variant that throws ends the
    call. *)
Fixpoint evaluateVariants (variants : list VariantInput.t)
    (common : CommonInputs.t) : outcome (list VariantEval.t) :=
  match variants with
  | [] => Returns []
  | v :: variants' =>
      r <- evaluateVariant common v ;;
      rs <- evaluateVariants variants' common ;;
      Returns (r :: rs)
  end.

(** Heuristic sell-through check for flips. *)
Definition passesSellThrough (expectedDaysToSell thresholdDays : number)
    : bool :=
  le expectedDaysToSell thresholdDays.

(** Human-readable helper for UI: [None] where [toFixed] is. *)
Definition humanizeCents (n : number) : option string :=
  let sign := if lt n (ofZ 0) then "-"%string else EmptyString in
  let v := Math_abs n in
  option_map (fun t => (sign ++ "$" ++ t)%string)
    (toFixed (div v (ofZ 100)) 2).

End Econ.

(** ** lib/pricing.ts: the [Money] class *)

Module Pricing.

Inductive CurrencyCode : Type :=
| USD | AUD | NZD | CAD | EUR | GBP | JPY | SGD | HKD.

Definition CurrencyCode_eqb (a b : CurrencyCode) : bool :=
  match a, b with
  | USD, USD | AUD, AUD | NZD, NZD | CAD, CAD | EUR, EUR
  | GBP, GBP | JPY, JPY | SGD, SGD | HKD, HKD => true
  | _, _ => false
  end.

Inductive Charm : Type :=
| charm99 | charm95 | charm90 | none.

Definition DECIMALS (currency : CurrencyCode) : nat :=
  match currency with
  | JPY => 0
  | _ => 2
  end.

(** [10 ** d]. *)
Definition pow10 (d : nat) : number := ofZ (10 ^ Z.of_nat d).

(** *** String primitives used by [Money.parse] *)

Definition isDigit (c : ascii) : bool :=
  (48 <=? nat_of_ascii c)%nat && (nat_of_ascii c <=? 57)%nat.

Definition isDot (c : ascii) : bool := Ascii.eqb c ".".

Definition digitValue (c : ascii) : Z := Z.of_nat (nat_of_ascii c) - 48.

(** [str.replace(/[^\d.]/g, '')]: keep the digits and the dots. *)
Fixpoint stripNonNumeric (str : string) : string :=
  match str with
  | EmptyString => EmptyString
  | String c str' =>
      if isDigit c || isDot c then String c (stripNonNumeric str')
      else stripNonNumeric str'
  end.

Definition isEmpty (s : string) : bool :=
  match s with
  | EmptyString => true
  | String _ _ => false
  end.

Definition isWhiteSpace (c : ascii) : bool :=
  let n := nat_of_ascii c in
  ((9 <=? n)%nat && (n <=? 13)%nat) || (n =? 32)%nat.

Fixpoint trimStart (s : string) : string :=
  match s with
  | String c s' => if isWhiteSpace c then trimStart s' else s
  | EmptyString => s
  end.

(** Value of the longest prefix of decimal digits, if it is not empty;
    [acc] is the value of the digits read so far. *)
Fixpoint digitsPrefix (acc : option Z) (s : string) : option Z :=
  match s with
  | String c s' =>
      if isDigit c
      then digitsPrefix (Some (10 * nullish acc 0 + digitValue c)) s'
      else acc
  | EmptyString => acc
  end.

(** [parseInt(s, 10)]: leading white space, an optional sign, then the
    longest prefix of digits; [NaN] when there is no digit. *)
Definition parseInt10 (s : string) : number :=
  let s1 := trimStart s in
  let signed :=
    match s1 with
    | String c r =>
        if Ascii.eqb c "-" then (-1, r)
        else if Ascii.eqb c "+" then (1, r)
        else (1, s1)
    | EmptyString => (1, s1)
    end in
  match digitsPrefix None (snd signed) with
  | Some v => ofZ (fst signed * v)
  | None => NaN
  end.

(** [s.split('.')]: never an empty array. *)
Fixpoint split_dot (s : string) : list string :=
  match s with
  | EmptyString => [EmptyString]
  | String c s' =>
      if isDot c then EmptyString :: split_dot s'
      else
        match split_dot s' with
        | part :: parts => String c part :: parts
        | [] => [String c EmptyString]
        end
  end.

Module Money.

Record t : Type := {
  cents : Z;
  currency : CurrencyCode
}.

(** Construct from integer cents given as a number. *)
Definition fromCents (cents : number) (currency : CurrencyCode) : outcome t :=
  if negb (isFinite cents) then Throws "Invalid cents"
  else
    c <- BigInt (Math_trunc cents) ;;
    Returns {| cents := c; currency := currency |}.

(** Construct from a user-entered string like "12.99" or "1299" (JPY). *)
Definition parse (str : string) (currency : CurrencyCode) : outcome t :=
  let s := stripNonNumeric str in
  if isEmpty s then fromCents (ofZ 0) currency
  else
    let d := DECIMALS currency in
    if Nat.eqb d 0 then fromCents (parseInt10 s) currency
    else
      let parts := split_dot s in
      let int := nth 0 parts EmptyString in
      let fracRaw := nth 1 parts EmptyString in
      let frac := substring 0 d (fracRaw ++ "00") in
      let cents :=
        add (mul (parseInt10 int) (pow10 d))
          (parseInt10 (if isEmpty frac then "0"%string else frac)) in
      fromCents cents currency.

Definition assertSameCurrency (this other : t) : outcome unit :=
  if negb (CurrencyCode_eqb (currency this) (currency other))
  then Throws "Currency mismatch"
  else Returns tt.

Definition add (this other : t) : outcome t :=
  _ <- assertSameCurrency this other ;;
  Returns {| cents := cents this + cents other; currency := currency this |}.

Definition sub (this other : t) : outcome t :=
  _ <- assertSameCurrency this other ;;
  Returns {| cents := cents this - cents other; currency := currency this |}.

(** Multiply by a scalar (e.g., quantity). *)
Definition mul (this : t) (n : number) : outcome t :=
  c <- BigInt (Math_round (times (Number (cents this)) n)) ;;
  Returns {| cents := c; currency := currency this |}.

(** Multiply by basis points (100 bps = 1%). *)
Definition mulBps (this : t) (bps : number) : outcome t :=
  c <- BigInt
         (Math_round
            (times (Number (cents this)) (over bps (ofZ 10000)))) ;;
  Returns {| cents := c; currency := currency this |}.

Definition clamp (this : t) (min max : option t) : outcome t :=
  c1 <-
    match min with
    | Some m =>
        _ <- assertSameCurrency this m ;;
        Returns (if cents this <? cents m then cents m else cents this)
    | None => Returns (cents this)
    end ;;
  c2 <-
    match max with
    | Some m =>
        _ <- assertSameCurrency this m ;;
        Returns (if cents m <? c1 then cents m else c1)
    | None => Returns c1
    end ;;
  Returns {| cents := c2; currency := currency this |}.

Definition ending (charm : Charm) : number :=
  match charm with
  | charm99 => ofZ 99
  | charm95 => ofZ 95
  | _ => ofZ 90
  end.

(** Apply charm pricing without going below a minimum. *)
Definition withCharm (this : t) (charm : Charm) (min : option t) : outcome t :=
  let d := DECIMALS (currency this) in
  let plain :=
    match min with
    | Some m => clamp this (Some m) None
    | None => Returns this
    end in
  match charm with
  | none => plain
  | _ =>
      if Nat.eqb d 0 then plain
      else
        let dollars := Math_floor (div (Number (cents this)) (ofZ 100)) in
        let ending := ending charm in
        candidate <-
          fromCents (JS.add (JS.mul dollars (ofZ 100)) ending)
            (currency this) ;;
        candidate <-
          (if cents candidate <? cents this
           then
             fromCents
               (JS.add (JS.mul (JS.add dollars (ofZ 1)) (ofZ 100)) ending)
               (currency this)
           else Returns candidate) ;;
        match min with
        | Some m =>
            if cents candidate <? cents m
            then
              let minDollars :=
                Math_floor (div (Number (cents m)) (ofZ 100)) in
              fromCents
                (JS.add (JS.mul (JS.add minDollars (ofZ 1)) (ofZ 100)) ending)
                (currency this)
            else Returns candidate
        | None => Returns candidate
        end
  end.

(** Construct from a decimal number (e.g., 12.99). *)
Definition fromDecimal (amount : number) (currency : CurrencyCode)
    : outcome t :=
  let d := DECIMALS currency in
  if negb (isFinite amount) then Throws "Invalid amount"
  else
    let cents := Math_round (JS.mul amount (pow10 d)) in
    fromCents cents currency.

Definition toNumber (this : t) : number :=
  let d := DECIMALS (currency this) in
  div (Number (cents this)) (pow10 d).

(** [{ currency_code, value }]. *)
Record ProcessorAmount : Type := {
  currency_code : CurrencyCode;
  value : string
}.

(** Serialize for PayPal/Stripe amounts: [None] where [toFixed] is. *)
Definition toProcessorAmount (this : t) : option ProcessorAmount :=
  let d := DECIMALS (currency this) in
  option_map
    (fun value => {| currency_code := currency this; value := value |})
    (toFixed (div (Number (cents this)) (pow10 d)) d).

End Money.

(** Convert number-of-dollars to integer cents. *)
Definition dollarsToCents (n : number) (currency : CurrencyCode)
    : outcome Z :=
  m <- Money.fromDecimal n currency ;;
  Returns (Money.cents m).

(** Convert integer cents to number-of-dollars. *)
Definition centsToDollars (cents : number) (currency : CurrencyCode)
    : outcome number :=
  m <- Money.fromCents cents currency ;;
  Returns (Money.toNumber m).

(** [multipliers.map(m => base.mul(m).withCharm(charm, base).cents)]. *)
Fixpoint mapCharmLadder (base : Money.t) (charm : Charm)
    (multipliers : list number) : outcome (list Z) :=
  match multipliers with
  | [] => Returns []
  | m :: multipliers' =>
      scaled <- Money.mul base m ;;
      charmed <- Money.withCharm scaled charm (Some base) ;;
      rest <- mapCharmLadder base charm multipliers' ;;
      Returns (Money.cents charmed :: rest)
  end.

(** Build a price ladder given a minimum price (cents) already meeting
    the floor. *)
Definition buildCharmLadder (minPriceCents : number)
    (currency : CurrencyCode) (multipliers : list number) (charm : Charm)
    : outcome (list number) :=
  base <- Money.fromCents minPriceCents currency ;;
  ladder <- mapCharmLadder base charm multipliers ;;
  Returns (Array_from_Set (map Number ladder)).

(** Round arbitrary cents up to a charm ending (never below baseline).
    A falsy [minCents] is passed on as no minimum. *)
Definition roundCentsToCharm (cents : number) (currency : CurrencyCode)
    (charm : Charm) (minCents : option number) : outcome number :=
  this <- Money.fromCents cents currency ;;
  min <-
    match minCents with
    | Some mc =>
        if truthy mc
        then (m <- Money.fromCents mc currency ;; Returns (Some m))
        else Returns None
    | None => Returns None
    end ;;
  m <- Money.withCharm this charm min ;;
  Returns (Number (Money.cents m)).

(** Parse a price query param and guard extremes.  [raw] is [None] for
    [null] or [undefined]; the bounds default to 0 and 1_000_000_00. *)
Definition parsePriceParam (raw : option string) (currency : CurrencyCode)
    (minCents maxCents : option number) : outcome number :=
  let minCents := nullish minCents (ofZ 0) in
  let maxCents := nullish maxCents (ofZ 100000000) in
  match raw with
  | None => Returns minCents
  | Some str =>
      if isEmpty str then Returns minCents
      else
        m <- Money.parse str currency ;;
        let cents := Number (Money.cents m) in
        let cents := if lt cents minCents then minCents else cents in
        let cents := if lt maxCents cents then maxCents else cents in
        Returns cents
  end.

(** PayPal helper. *)
Definition toPayPalAmount (cents : number) (currency : CurrencyCode)
    : outcome (option Money.ProcessorAmount) :=
  m <- Money.fromCents cents currency ;;
  Returns (Money.toProcessorAmount m).

End Pricing.

(** ** lib/fees.ts: the second copy of the preset table *)

Module FeesTs.

Import Econ.

Definition PLATFORM_FEES (platform : Platform) : FeePreset :=
  match platform with
  | etsy =>
      {| pctBps := plus (ofZ 650) (ofZ 325); fixedCents := ofZ 0;
         label := "Etsy + payment (~9.75%)" |}
  | ebay =>
      {| pctBps := ofZ 1300; fixedCents := ofZ 0;
         label := "eBay final value (avg)" |}
  | gumroad =>
      {| pctBps := ofZ 1000; fixedCents := ofZ 30;
         label := "Gumroad 10% + $0.30" |}
  | shopify =>
      {| pctBps := ofZ 290; fixedCents := ofZ 30;
         label := "Stripe 2.9% + $0.30" |}
  | tiktok_shop =>
      {| pctBps := ofZ 600; fixedCents := ofZ 0;
         label := "TikTok Shop (~6%)" |}
  | stripe_links =>
      {| pctBps := ofZ 290; fixedCents := ofZ 30;
         label := "Stripe 2.9% + $0.30" |}
  | other =>
      {| pctBps := ofZ 300; fixedCents := ofZ 30;
         label := "Generic PSP 3% + $0.30" |}
  end.

End FeesTs.

(** ** Integer inputs

    The module documents its amounts as integer cents and its rates as
    integer basis points.  [IntInputs.t] collects such inputs; [toBase] and
    [toInputs] build the records the functions of [Econ] take.  The
    definitions that follow name the integers those functions work with. *)

Module IntInputs.

Import Econ.

Record t : Type := {
  cogs : Z;
  shipping : Z;
  packaging : option Z;
  platform : Platform;
  kind : ProductKind;
  overridePct : option Z;
  overrideFixed : option Z;
  buffer : option Z;
  floor : option Z
}.

Definition toBase (i : t) : BaseInputs.t :=
  {| BaseInputs.cogsCents := ofZ (cogs i);
     BaseInputs.shippingCents := ofZ (shipping i);
     BaseInputs.packagingCents := option_map ofZ (packaging i);
     BaseInputs.platform := platform i;
     BaseInputs.kind := kind i;
     BaseInputs.overridePctBps := option_map ofZ (overridePct i);
     BaseInputs.overrideFixedCents := option_map ofZ (overrideFixed i);
     BaseInputs.bufferBps := option_map ofZ (buffer i);
     BaseInputs.floorBps := option_map ofZ (floor i) |}.

Definition toInputs (price : Z) (i : t) : EconInputs.t :=
  {| EconInputs.priceCents := ofZ price; EconInputs.rest := toBase i |}.

(** The presets as integers: the percentage fee and the fixed fee of a
    platform, and the floor of a product kind. *)
Definition presetPct (platform : Platform) : Z :=
  match platform with
  | etsy => 975
  | ebay => 1300
  | gumroad => 1000
  | shopify => 290
  | tiktok_shop => 600
  | stripe_links => 290
  | other => 300
  end.

Definition presetFixed (platform : Platform) : Z :=
  match platform with
  | etsy | ebay | tiktok_shop => 0
  | gumroad | shopify | stripe_links | other => 30
  end.

Definition defaultFloor (kind : ProductKind) : Z :=
  match kind with
  | physical => 3000
  | digital => 7000
  | service | flip => 2500
  end.

(** The values in force once overrides and defaults are resolved. *)
Definition pack (i : t) : Z :=
  match packaging i with
  | Some v => v
  | None => 0
  end.

Definition pct (i : t) : Z :=
  match overridePct i with
  | Some v => v
  | None => presetPct (platform i)
  end.

Definition fixed (i : t) : Z :=
  match overrideFixed i with
  | Some v => v
  | None => presetFixed (platform i)
  end.

Definition buf (i : t) : Z :=
  match buffer i with
  | Some v => v
  | None => 300
  end.

Definition flr (i : t) : Z :=
  match floor i with
  | Some v => v
  | None => defaultFloor (kind i)
  end.

(** [10000 - pctBps - bufferBps - floorBps] and the price-independent
    costs [cogs + shipping + packaging + fixed]. *)
Definition denom (i : t) : Z := 10000 - pct i - buf i - flr i.
Definition rhs (i : t) : Z := cogs i + shipping i + pack i + fixed i.

End IntInputs.

(** ** Magnitudes

    The ranges the theorems on integer amounts are stated for: amounts of
    at most 10^10 cents (a hundred million dollars) and rates of at most
    20000 bps in magnitude, a price in the same range, and, for charm
    rounding, 10^15 cents.  Within them every product the evaluator forms
    ([price * rate], [profit * 10000], [costs * 10000],
    [price * (10000 - rates)]) is below 10^15 < 2^51 in magnitude. *)

Module Range.

Import IntInputs.

Definition amountMax : Z := 10000000000.
Definition rateMax : Z := 20000.
Definition centsMax : Z := 1000000000000000.

Definition amount (z : Z) : Prop := Z.abs z <= amountMax.
Definition rate (z : Z) : Prop := Z.abs z <= rateMax.
Definition cents (z : Z) : Prop := Z.abs z <= centsMax.
Definition price (p : Z) : Prop := 0 < p <= amountMax.

Definition inputs (i : IntInputs.t) : Prop :=
  amount (cogs i) /\ amount (shipping i) /\ amount (pack i) /\
  amount (fixed i) /\ rate (pct i) /\ rate (buf i) /\ rate (flr i).

(** A break-even price and the multipliers applied to it: a price of at
    most a million dollars, multipliers that are doubles of magnitude at
    most 100. *)
Definition basePrice (p0 : Z) : Prop := Z.abs p0 <= 99999999.

Definition multiplier (q : Q) : Prop :=
  isDouble q /\ (Qabs q <= 100)%Q.

End Range.

(** ** Integer rounding

    [nearest a b m]: [m] is [a / b] rounded to the nearest integer, a tie
    going up, that is [m - 1/2 <= a / b < m + 1/2] for [b > 0]. *)
Definition nearest (a b m : Z) : Prop :=
  2 * m * b - b <= 2 * a < 2 * m * b + b.

(** [ceilingOf a b m]: [m] is the least integer with [a / b <= m]. *)
Definition ceilingOf (a b m : Z) : Prop :=
  (m - 1) * b < a <= m * b.

(** The quotients [Math.round] and [Math.ceil] compute on integers. *)
Definition roundDiv (a b : Z) : Z := (2 * a + b) / (2 * b).
Definition ceilDiv (a b : Z) : Z := - ((- a) / b).

(** A power of two between [2 * b] and [4 * b], and its half: the
    integers and half-integers next to a quotient by [b] are fractions
    over it. *)
Definition separator (b : Z) : Z := 2 ^ Z.log2_up (2 * b).
Definition halfSeparator (b : Z) : Z := 2 ^ (Z.log2_up (2 * b) - 1).

(** A number that is an integer. *)
Definition isInteger (x : number) : Prop := exists z : Z, x = ofZ z.

Definition optInteger (o : option number) : Prop :=
  match o with
  | Some x => isInteger x
  | None => True
  end.

(** A price-less input all of whose amounts and rates are integers. *)
Definition integerBase (b : Econ.BaseInputs.t) : Prop :=
  isInteger (Econ.BaseInputs.cogsCents b) /\
  isInteger (Econ.BaseInputs.shippingCents b) /\
  optInteger (Econ.BaseInputs.packagingCents b) /\
  optInteger (Econ.BaseInputs.overridePctBps b) /\
  optInteger (Econ.BaseInputs.overrideFixedCents b) /\
  optInteger (Econ.BaseInputs.bufferBps b) /\
  optInteger (Econ.BaseInputs.floorBps b).

(** The amounts [evaluateEcon] computes at an integer price. *)
Module IntEval.

Import IntInputs.

Definition fees (p : Z) (i : t) : Z := roundDiv (p * pct i) 10000 + fixed i.
Definition bufferC (p : Z) (i : t) : Z := roundDiv (p * buf i) 10000.
Definition profit (p : Z) (i : t) : Z :=
  p - (cogs i + shipping i + pack i + fees p i + bufferC p i).
Definition margin (p : Z) (i : t) : Z := roundDiv (profit p i * 10000) p.

(** What [evaluateEcon] returns at an integer price and integer inputs. *)
Definition resultAt (p : Z) (i : t) : Econ.EconResult.t :=
  {| Econ.EconResult.priceCents := ofZ p;
     Econ.EconResult.feesCents := ofZ (fees p i);
     Econ.EconResult.bufferCents := ofZ (bufferC p i);
     Econ.EconResult.cogsCents := ofZ (cogs i);
     Econ.EconResult.shippingCents := ofZ (shipping i);
     Econ.EconResult.packagingCents := ofZ (pack i);
     Econ.EconResult.profitCents := ofZ (profit p i);
     Econ.EconResult.marginBps := ofZ (margin p i);
     Econ.EconResult.pass := flr i <=? margin p i;
     Econ.EconResult.floorBps := ofZ (flr i);
     Econ.EconResult.breakdown :=
       {| Econ.Breakdown.feeLabel := Econ.label (Econ.PLATFORM_FEES (platform i));
          Econ.Breakdown.platformPctBps := ofZ (pct i);
          Econ.Breakdown.fixedFeeCents := ofZ (fixed i) |} |}.

(** The integer [roundToCharm] returns on integers. *)
Definition ensureZ (minCents : option Z) (n : Z) : Z :=
  match minCents with
  | Some m => if negb (m =? 0) && (n <? m) then m else n
  | None => n
  end.

Definition endingZ (charm : Econ.Charm) : Z :=
  match charm with
  | Econ.charm99 => 99
  | Econ.charm95 => 95
  | Econ.charm90 => 90
  | Econ.none => 0
  end.

Definition charmUp (p : Z) (charm : Econ.Charm) : Z :=
  match charm with
  | Econ.none => p
  | _ =>
      if p <=? p / 100 * 100 + endingZ charm
      then p / 100 * 100 + endingZ charm
      else (p / 100 + 1) * 100 + endingZ charm
  end.

Definition roundToCharmZ (p : Z) (charm : Econ.Charm) (minCents : option Z)
    : Z :=
  ensureZ minCents (charmUp p charm).

(** [Math.ceil(p0 * m)] for an integer [p0] and a multiplier whose
    product with it is finite. *)
Definition rawZ (p0 : Z) (m : Q) : Z :=
  match roundToDouble (inject_Z p0 * m) with
  | Fin r => Qceiling r
  | _ => 0
  end.

(** The rung a multiplier yields when the charmed price passes. *)
Definition rungZ (p0 : Z) (charm : Econ.Charm) (m : Q) : Z :=
  roundToCharmZ (rawZ p0 m) charm (Some p0).

End IntEval.

(** ** Shapes of strings

    What [Money.parse] is left with once the other characters are
    stripped: digits and dots. *)

Module StringShape.

Import Pricing.

Fixpoint onlyNumeric (s : string) : bool :=
  match s with
  | EmptyString => true
  | String c s' => (isDigit c || isDot c) && onlyNumeric s'
  end.

Fixpoint onlyDigits (s : string) : bool :=
  match s with
  | EmptyString => true
  | String c s' => isDigit c && onlyDigits s'
  end.

Definition startsWithDot (s : string) : bool :=
  match s with
  | String c _ => isDot c
  | EmptyString => false
  end.

End StringShape.

(** ** Shapes of results

    What a result of [evaluateVariants] repeats of the variant it was
    computed from. *)
Definition variantEcho (v : Econ.VariantInput.t) (r : Econ.VariantEval.t)
    : Prop :=
  Econ.VariantEval.sku r = Econ.VariantInput.sku v /\
  Econ.EconResult.priceCents (Econ.VariantEval.result r) =
    Econ.VariantInput.priceCents v /\
  Econ.EconResult.cogsCents (Econ.VariantEval.result r) =
    Econ.VariantInput.cogsCents v /\
  Econ.EconResult.shippingCents (Econ.VariantEval.result r) =
    Econ.VariantInput.shippingCents v /\
  Econ.EconResult.packagingCents (Econ.VariantEval.result r) =
    nullish (Econ.VariantInput.packagingCents v) (ofZ 0).

(** The charm of lib/econ.ts with the same ending. *)
Definition toEconCharm (c : Pricing.Charm) : Econ.Charm :=
  match c with
  | Pricing.charm99 => Econ.charm99
  | Pricing.charm95 => Econ.charm95
  | Pricing.charm90 => Econ.charm90
  | Pricing.none => Econ.none
  end.

(** The integer a string of digits denotes (0 for the empty string). *)
Fixpoint digitsValue (acc : Z) (s : string) : Z :=
  match s with
  | EmptyString => acc
  | String c s' => digitsValue (10 * acc + Pricing.digitValue c) s'
  end.

(** ** Sample inputs *)

Module Samples.

Import Econ.

(** The example of the module's closing comment. *)
Definition exampleInputs : EconInputs.t :=
  {| EconInputs.priceCents := ofZ 1490;
     EconInputs.rest :=
       {| BaseInputs.cogsCents := ofZ 500;
          BaseInputs.shippingCents := ofZ 320;
          BaseInputs.packagingCents := None;
          BaseInputs.platform := etsy;
          BaseInputs.kind := physical;
          BaseInputs.overridePctBps := None;
          BaseInputs.overrideFixedCents := None;
          BaseInputs.bufferBps := None;
          BaseInputs.floorBps := None |} |}.

(** The same costs as integer inputs. *)
Definition exampleInt : IntInputs.t :=
  {| IntInputs.cogs := 500;
     IntInputs.shipping := 320;
     IntInputs.packaging := None;
     IntInputs.platform := etsy;
     IntInputs.kind := physical;
     IntInputs.overridePct := None;
     IntInputs.overrideFixed := None;
     IntInputs.buffer := None;
     IntInputs.floor := None |}.

(** Costs of one cent on Etsy, physical goods. *)
Definition oneCent : IntInputs.t :=
  {| IntInputs.cogs := 1;
     IntInputs.shipping := 0;
     IntInputs.packaging := None;
     IntInputs.platform := etsy;
     IntInputs.kind := physical;
     IntInputs.overridePct := None;
     IntInputs.overrideFixed := None;
     IntInputs.buffer := None;
     IntInputs.floor := None |}.

(** No costs at all on Etsy. *)
Definition noCosts : IntInputs.t :=
  {| IntInputs.cogs := 0;
     IntInputs.shipping := 0;
     IntInputs.packaging := None;
     IntInputs.platform := etsy;
     IntInputs.kind := physical;
     IntInputs.overridePct := None;
     IntInputs.overrideFixed := None;
     IntInputs.buffer := None;
     IntInputs.floor := None |}.

(** Costs of 200 dollars on Etsy, physical goods. *)
Definition largeCosts : IntInputs.t :=
  {| IntInputs.cogs := 20000;
     IntInputs.shipping := 0;
     IntInputs.packaging := None;
     IntInputs.platform := etsy;
     IntInputs.kind := physical;
     IntInputs.overridePct := None;
     IntInputs.overrideFixed := None;
     IntInputs.buffer := None;
     IntInputs.floor := None |}.

(** Costs of some 144 billion dollars on Etsy, physical goods. *)
Definition hugeCosts : IntInputs.t :=
  {| IntInputs.cogs := 14427965257517;
     IntInputs.shipping := 0;
     IntInputs.packaging := None;
     IntInputs.platform := etsy;
     IntInputs.kind := physical;
     IntInputs.overridePct := None;
     IntInputs.overrideFixed := None;
     IntInputs.buffer := None;
     IntInputs.floor := None |}.

(** A digital good costing 17 cents on Etsy. *)
Definition digital17 : IntInputs.t :=
  {| IntInputs.cogs := 17;
     IntInputs.shipping := 0;
     IntInputs.packaging := None;
     IntInputs.platform := etsy;
     IntInputs.kind := digital;
     IntInputs.overridePct := None;
     IntInputs.overrideFixed := None;
     IntInputs.buffer := None;
     IntInputs.floor := None |}.

(** A floor of 95%: fee, buffer and floor exceed 100% together. *)
Definition floor95 : IntInputs.t :=
  {| IntInputs.cogs := 500;
     IntInputs.shipping := 320;
     IntInputs.packaging := None;
     IntInputs.platform := etsy;
     IntInputs.kind := physical;
     IntInputs.overridePct := None;
     IntInputs.overrideFixed := None;
     IntInputs.buffer := None;
     IntInputs.floor := Some 9500 |}.

(** The doubles of the default steps 1.0, 1.15 and 1.30. *)
Definition doubleSteps : list Q :=
  [1; 2589569785738035 # 2251799813685248;
   5854679515581645 # 4503599627370496]%Q.

(** Goods of unbounded cost on Etsy, with the preset rates. *)
Definition infiniteCost : BaseInputs.t :=
  {| BaseInputs.cogsCents := Infinity;
     BaseInputs.shippingCents := ofZ 320;
     BaseInputs.packagingCents := None;
     BaseInputs.platform := etsy;
     BaseInputs.kind := physical;
     BaseInputs.overridePctBps := None;
     BaseInputs.overrideFixedCents := None;
     BaseInputs.bufferBps := None;
     BaseInputs.floorBps := None |}.

(** One dollar and two and a half dollars, in US currency. *)
Definition oneDollar : Pricing.Money.t :=
  {| Pricing.Money.cents := 100; Pricing.Money.currency := Pricing.USD |}.

Definition twoFifty : Pricing.Money.t :=
  {| Pricing.Money.cents := 250; Pricing.Money.currency := Pricing.USD |}.

Definition oneEuro : Pricing.Money.t :=
  {| Pricing.Money.cents := 100; Pricing.Money.currency := Pricing.EUR |}.

(** Two variants of a listing, the second with a price of zero. *)
Definition smallVariant : Econ.VariantInput.t :=
  {| Econ.VariantInput.sku := "S";
     Econ.VariantInput.priceCents := ofZ 1490;
     Econ.VariantInput.cogsCents := ofZ 500;
     Econ.VariantInput.shippingCents := ofZ 320;
     Econ.VariantInput.packagingCents := None |}.

Definition freeVariant : Econ.VariantInput.t :=
  {| Econ.VariantInput.sku := "FREE";
     Econ.VariantInput.priceCents := ofZ 0;
     Econ.VariantInput.cogsCents := ofZ 500;
     Econ.VariantInput.shippingCents := ofZ 320;
     Econ.VariantInput.packagingCents := Some (ofZ 10) |}.

Definition etsyPhysical : Econ.CommonInputs.t :=
  {| Econ.CommonInputs.platform := Econ.etsy;
     Econ.CommonInputs.kind := Econ.physical;
     Econ.CommonInputs.overridePctBps := None;
     Econ.CommonInputs.overrideFixedCents := None;
     Econ.CommonInputs.bufferBps := None;
     Econ.CommonInputs.floorBps := None |}.

End Samples.

(** * Properties *)

(** ** Numbers at integers *)

Lemma Qred_int (z : Z) : Qred (inject_Z z) = inject_Z z.
Proof.
  unfold Qred, inject_Z.
  generalize (Z.ggcd_gcd z 1) (Z.ggcd_correct_divisors z 1).
  destruct (Z.ggcd z 1) as [g [aa bb]]. simpl.
  rewrite Z.gcd_1_r. intros -> [Ha Hb].
  rewrite Z.mul_1_l in Ha, Hb. now subst.
Qed.

Lemma add_ofZ (a b : Z) : add (ofZ a) (ofZ b) = ofZ (a + b).
Proof.
  unfold add, ofZ. rewrite <- (Qred_int (a + b)). f_equal.
  apply Qred_complete. now rewrite inject_Z_plus.
Qed.

Lemma mul_ofZ (a b : Z) : mul (ofZ a) (ofZ b) = ofZ (a * b).
Proof.
  unfold mul, ofZ.
  change (inject_Z a * inject_Z b)%Q with (inject_Z (a * b)).
  now rewrite Qred_int.
Qed.

Lemma le_ofZ (a b : Z) : le (ofZ a) (ofZ b) = (a <=? b).
Proof.
  unfold le, ofZ, Qle_bool. simpl. now rewrite !Z.mul_1_r.
Qed.

Lemma lt_ofZ (a b : Z) : lt (ofZ a) (ofZ b) = (a <? b).
Proof.
  unfold lt, ofZ, Qle_bool. simpl. rewrite !Z.mul_1_r.
  now rewrite Z.ltb_antisym.
Qed.

Lemma ge_ofZ (a b : Z) : ge (ofZ a) (ofZ b) = (b <=? a).
Proof. apply le_ofZ. Qed.

Lemma truthy_ofZ (a : Z) : truthy (ofZ a) = negb (a =? 0).
Proof.
  unfold truthy, ofZ, Qeq_bool. simpl. rewrite Z.mul_1_r.
  now destruct a.
Qed.

Lemma ofZ_inj (a b : Z) : ofZ a = ofZ b -> a = b.
Proof. unfold ofZ, inject_Z. congruence. Qed.

Lemma Qdiv_int (a b : Z) :
  0 < b -> (inject_Z a / inject_Z b == a # Z.to_pos b)%Q.
Proof.
  intros Hb. destruct b as [|bp|bp]; try lia.
  unfold Qdiv, Qinv, Qmult, Qeq, inject_Z. simpl. lia.
Qed.

Lemma div_ofZ (a b : Z) :
  0 < b -> div (ofZ a) (ofZ b) = Fin (Qred (a # Z.to_pos b)).
Proof.
  intros Hb. unfold div, ofZ.
  replace (Qeq_bool (inject_Z b) 0) with false.
  - f_equal. apply Qred_complete. now apply Qdiv_int.
  - symmetry. unfold Qeq_bool, inject_Z. simpl. destruct b; simpl; lia.
Qed.

Lemma floor_div_ofZ (a b : Z) :
  0 < b -> Math_floor (div (ofZ a) (ofZ b)) = ofZ (a / b).
Proof.
  intros Hb. rewrite div_ofZ by assumption. unfold Math_floor. f_equal.
  rewrite (Qfloor_comp _ _ (Qred_correct _)). simpl.
  now rewrite Z2Pos.id.
Qed.

Lemma BigInt_ofZ (z : Z) : BigInt (ofZ z) = Returns z.
Proof. unfold BigInt, ofZ. now rewrite Qred_int. Qed.

Lemma nullish_ofZ (o : option Z) (d : Z) :
  nullish (option_map ofZ o) (ofZ d) = ofZ (nullish o d).
Proof. now destruct o. Qed.

(** ** Integer rounding *)

Lemma roundDiv_nearest (a b : Z) : 0 < b -> nearest a b (roundDiv a b).
Proof.
  intros Hb. unfold nearest, roundDiv.
  pose proof (Z.div_mod (2 * a + b) (2 * b)) as E.
  pose proof (Z.mod_pos_bound (2 * a + b) (2 * b)) as B.
  lia.
Qed.

Lemma nearest_unique (a b m m' : Z) :
  0 < b -> nearest a b m -> nearest a b m' -> m = m'.
Proof. unfold nearest. intros Hb H H'. nia. Qed.

Lemma ceilDiv_ceilingOf (a b : Z) : 0 < b -> ceilingOf a b (ceilDiv a b).
Proof.
  intros Hb. unfold ceilingOf, ceilDiv.
  pose proof (Z.div_mod (- a) b) as E.
  pose proof (Z.mod_pos_bound (- a) b) as B.
  lia.
Qed.

(** ** Doubles

    What the theorems need of [roundToDouble]: it is monotone, and it
    leaves an integer of less than 53 bits as it is, so a value between
    two such integers stays between them. *)

Section Doubles.

Local Open Scope Q_scope.

(** Rounding to the nearest integer. *)

Lemma nearestEven_floor (u : Q) :
  (Qfloor u <= nearestEven u <= Qfloor u + 1)%Z.
Proof.
  unfold nearestEven.
  destruct (Qcompare (u - inject_Z (Qfloor u)) (1 # 2)); try lia.
  destruct (Z.even (Qfloor u)); lia.
Qed.

Lemma nearestEven_le (u : Q) (k : Z) :
  inject_Z k <= u -> (k <= nearestEven u)%Z.
Proof.
  intros H. pose proof (nearestEven_floor u) as B.
  assert (k <= Qfloor u)%Z; [|lia].
  rewrite <- (Qfloor_Z k). now apply Qfloor_resp_le.
Qed.

Lemma nearestEven_ge (u : Q) (k : Z) :
  u <= inject_Z k -> (nearestEven u <= k)%Z.
Proof.
  intros H. pose proof (nearestEven_floor u) as B.
  assert (Hf : (Qfloor u <= k)%Z).
  { rewrite <- (Qfloor_Z k). now apply Qfloor_resp_le. }
  destruct (Z.eq_dec (Qfloor u) k) as [E|E]; [|lia].
  unfold nearestEven. rewrite E.
  assert (Hlt : u - inject_Z k < 1 # 2).
  { pose proof (Qfloor_le u) as Hl. rewrite E in Hl. lra. }
  destruct (Qcompare (u - inject_Z k) (1 # 2)) eqn:C.
  - apply Qeq_alt in C. lra.
  - lia.
  - apply Qgt_alt in C. lra.
Qed.

Lemma nearestEven_int (k : Z) : nearestEven (inject_Z k) = k.
Proof.
  apply Z.le_antisymm.
  - apply nearestEven_ge. lra.
  - apply nearestEven_le. lra.
Qed.

Lemma nearestEven_mono (u v : Q) :
  u <= v -> (nearestEven u <= nearestEven v)%Z.
Proof.
  intros H.
  pose proof (Qfloor_resp_le _ _ H) as Hf.
  pose proof (nearestEven_floor u) as Bu.
  pose proof (nearestEven_floor v) as Bv.
  destruct (Z.eq_dec (Qfloor u) (Qfloor v)) as [E|E]; [|lia].
  unfold nearestEven in *. rewrite <- E in *.
  destruct (Qcompare (u - inject_Z (Qfloor u)) (1 # 2)) eqn:Cu.
  - apply Qeq_alt in Cu.
    destruct (Qcompare (v - inject_Z (Qfloor u)) (1 # 2)) eqn:Cv.
    + lia.
    + apply Qlt_alt in Cv. lra.
    + destruct (Z.even (Qfloor u)); lia.
  - destruct (Qcompare (v - inject_Z (Qfloor u)) (1 # 2));
      try destruct (Z.even (Qfloor u)); lia.
  - apply Qgt_alt in Cu.
    destruct (Qcompare (v - inject_Z (Qfloor u)) (1 # 2)) eqn:Cv.
    + apply Qeq_alt in Cv. lra.
    + apply Qlt_alt in Cv. lra.
    + lia.
Qed.

Lemma nearestEven_comp (u v : Q) : u == v -> nearestEven u = nearestEven v.
Proof.
  intros E. apply Z.le_antisymm; apply nearestEven_mono; rewrite E; lra.
Qed.

(** Powers of two and the binary exponent. *)

Lemma two_neq_0 : ~ 2 == 0.
Proof. discriminate. Qed.

Lemma pow2_pos (s : Z) : 0 < 2 ^ s.
Proof. apply Qpower_0_lt. reflexivity. Qed.

Lemma pow2_add (a b : Z) : 2 ^ (a + b) == 2 ^ a * 2 ^ b.
Proof. apply Qpower_plus, two_neq_0. Qed.

Lemma pow2_le (a b : Z) : (a <= b)%Z -> 2 ^ a <= 2 ^ b.
Proof. intros H. apply Qpower_le_compat_l; [assumption | discriminate]. Qed.

Lemma pow2_Z (k : Z) : (0 <= k)%Z -> 2 ^ k == inject_Z (2 ^ k).
Proof. intros H. symmetry. now apply (Zpower_Qpower 2 k). Qed.

Lemma pow2_cancel (s : Z) : 2 ^ (- s) * 2 ^ s == 1.
Proof. rewrite <- pow2_add. now replace (- s + s)%Z with 0%Z by lia. Qed.

Lemma ilog2_spec (x : Q) :
  0 < x -> 2 ^ ilog2 x <= x /\ x < 2 ^ (ilog2 x + 1).
Proof.
  intros Hx. unfold ilog2.
  destruct (Qle_bool 1 x) eqn:H1.
  - apply Qle_bool_iff in H1.
    assert (Hf : (1 <= Qfloor x)%Z).
    { rewrite <- (Qfloor_Z 1). now apply Qfloor_resp_le. }
    pose proof (Z.log2_spec (Qfloor x)) as S.
    pose proof (Z.log2_nonneg (Qfloor x)) as N.
    pose proof (Qfloor_le x) as Hl. pose proof (Qlt_floor x) as Hu.
    rewrite !pow2_Z by lia. split.
    + apply Qle_trans with (inject_Z (Qfloor x)); [|assumption].
      rewrite <- Zle_Qle. lia.
    + apply Qlt_le_trans with (inject_Z (Qfloor x + 1)); [assumption|].
      rewrite <- Zle_Qle. replace (Z.succ (Z.log2 (Qfloor x)))
        with (Z.log2 (Qfloor x) + 1)%Z in S by lia. lia.
  - assert (Hlt : x < 1).
    { apply Qnot_le_lt. intros C. apply Qle_bool_iff in C. congruence. }
    set (y := / x).
    assert (Hxy : x * y == 1) by (apply Qmult_inv_r; lra).
    assert (Hy0 : 0 < y) by (apply Qinv_lt_0_compat; assumption).
    assert (Hy : 1 < y).
    { apply Qnot_le_lt. intros C.
      assert (x * y <= x * 1) by (apply Qmult_le_l; assumption). lra. }
    set (c := Qceiling y).
    pose proof (Qle_ceiling y) as Hc. pose proof (Qceiling_lt y) as Hc'.
    fold c in Hc, Hc'.
    assert (Hc2 : (1 < c)%Z).
    { rewrite Zlt_Qlt. change (inject_Z 1) with 1. lra. }
    pose proof (Z.log2_up_spec c Hc2) as S.
    pose proof (Z.log2_up_nonneg c) as N.
    set (u := Z.log2_up c) in *.
    assert (Hu1 : (0 < u)%Z) by (apply Z.log2_up_pos; assumption).
    split.
    + (* 2^(-u) <= x *)
      assert (Hyu : y <= 2 ^ u).
      { rewrite pow2_Z by lia. apply Qle_trans with (inject_Z c); [assumption|].
        rewrite <- Zle_Qle. lia. }
      pose proof (pow2_cancel u) as K. pose proof (pow2_pos (- u)) as Pm.
      pose proof (pow2_pos u) as Pu.
      apply Qnot_lt_le. intros C.
      assert (x * y < 2 ^ (- u) * 2 ^ u).
      { apply Qlt_le_trans with (2 ^ (- u) * y).
        - apply Qmult_lt_r; assumption.
        - apply Qmult_le_l; assumption. }
      lra.
    + (* x < 2^(-u+1) *)
      assert (Hyu : 2 ^ (u - 1) < y).
      { rewrite pow2_Z by lia.
        apply Qle_lt_trans with (inject_Z (c - 1)); [|assumption].
        rewrite <- Zle_Qle. replace (Z.pred u) with (u - 1)%Z in S by lia. lia. }
      pose proof (pow2_cancel (u - 1)) as K.
      replace (- (u - 1))%Z with (- u + 1)%Z in K by lia.
      pose proof (pow2_pos (- u + 1)) as Pm.
      pose proof (pow2_pos (u - 1)) as Pu.
      apply Qnot_le_lt. intros C.
      assert (2 ^ (- u + 1) * 2 ^ (u - 1) < x * y).
      { apply Qle_lt_trans with (x * 2 ^ (u - 1)).
        - apply Qmult_le_r; assumption.
        - apply Qmult_lt_l; assumption. }
      lra.
Qed.

Lemma div_pow2 (x : Q) (s : Z) : x / 2 ^ s == x * 2 ^ (- s).
Proof. unfold Qdiv. now rewrite Qpower_opp. Qed.

Lemma ilog2_mono (x y : Q) : 0 < x -> x <= y -> (ilog2 x <= ilog2 y)%Z.
Proof.
  intros Hx Hxy.
  destruct (ilog2_spec x Hx) as [Lx _].
  destruct (ilog2_spec y) as [_ Uy]; [lra|].
  assert (H : 2 ^ ilog2 x < 2 ^ (ilog2 y + 1)) by lra.
  apply Qpower_lt_compat_l_inv in H; [lia | reflexivity].
Qed.

Lemma scale_mono (x y : Q) : 0 < x -> x <= y -> (scale x <= scale y)%Z.
Proof.
  intros Hx Hxy. pose proof (ilog2_mono x y Hx Hxy). unfold scale. lia.
Qed.

(** The mantissa of a positive number has at most 53 bits, exactly 53 for a
    normal one. *)
Lemma mantissa_upper (x : Q) : 0 < x -> (mantissa x <= 2 ^ 53)%Z.
Proof.
  intros Hx. unfold mantissa. apply nearestEven_ge.
  destruct (ilog2_spec x Hx) as [_ U].
  rewrite div_pow2. rewrite <- pow2_Z by lia.
  replace 53%Z with (scale x + 53 + - scale x)%Z by lia.
  rewrite pow2_add.
  apply Qmult_le_r; [apply pow2_pos|].
  apply Qle_trans with (2 ^ (ilog2 x + 1)); [lra|].
  apply pow2_le. unfold scale. lia.
Qed.

Lemma mantissa_lower (x : Q) :
  0 < x -> (-1022 <= ilog2 x)%Z -> (2 ^ 52 <= mantissa x)%Z.
Proof.
  intros Hx Hn. unfold mantissa. apply nearestEven_le.
  destruct (ilog2_spec x Hx) as [L _].
  rewrite div_pow2. rewrite <- pow2_Z by lia.
  replace 52%Z with (ilog2 x + - scale x)%Z by (unfold scale; lia).
  rewrite pow2_add.
  apply Qmult_le_r; [apply pow2_pos|]. assumption.
Qed.

Lemma mantissa_nonneg (x : Q) : 0 < x -> (0 <= mantissa x)%Z.
Proof.
  intros Hx. unfold mantissa. apply nearestEven_le.
  change (inject_Z 0) with 0. rewrite div_pow2.
  apply Qmult_le_0_compat; [lra|]. apply Qlt_le_weak, pow2_pos.
Qed.

(** The value [mantissa * 2 ^ scale] is monotone. *)
Lemma rounded_mono (x y : Q) :
  0 < x -> x <= y ->
  inject_Z (mantissa x) * 2 ^ scale x <= inject_Z (mantissa y) * 2 ^ scale y.
Proof.
  intros Hx Hxy. assert (Hy : 0 < y) by lra.
  pose proof (scale_mono x y Hx Hxy) as Hs.
  destruct (Z.eq_dec (scale x) (scale y)) as [E|E].
  - rewrite E. apply Qmult_le_r; [apply pow2_pos|].
    rewrite <- Zle_Qle. unfold mantissa. rewrite E.
    apply nearestEven_mono. rewrite !div_pow2.
    apply Qmult_le_r; [apply pow2_pos | assumption].
  - assert (Hn : (-1022 <= ilog2 y)%Z) by (unfold scale in *; lia).
    pose proof (mantissa_upper x Hx) as Ux.
    pose proof (mantissa_lower y Hy Hn) as Ly.
    apply Qle_trans with (2 ^ (scale y + 52)).
    + apply Qle_trans with (2 ^ (53 + scale x)).
      * rewrite pow2_add. apply Qmult_le_r; [apply pow2_pos|].
        rewrite pow2_Z by lia. rewrite <- Zle_Qle. assumption.
      * apply pow2_le. lia.
    + rewrite Z.add_comm, pow2_add. apply Qmult_le_r; [apply pow2_pos|].
      rewrite pow2_Z by lia. rewrite <- Zle_Qle. assumption.
Qed.

Lemma roundPos_mono (x y ry : Q) :
  0 < x -> x <= y -> roundPos y = Some ry ->
  exists rx, roundPos x = Some rx /\ rx <= ry.
Proof.
  intros Hx Hxy. assert (Hy : 0 < y) by lra.
  pose proof (scale_mono x y Hx Hxy) as Hs.
  pose proof (rounded_mono x y Hx Hxy) as Hr.
  pose proof (mantissa_upper x Hx) as Ux.
  pose proof (mantissa_upper y Hy) as Uy.
  unfold roundPos.
  destruct ((971 <? scale y)%Z || ((scale y =? 971)%Z && (mantissa y =? 2 ^ 53)%Z))
    eqn:Oy; [discriminate|].
  intros Ery.
  assert (E : ry = Qred (inject_Z (mantissa y) * 2 ^ scale y)) by congruence.
  subst ry. clear Ery.
  apply orb_false_iff in Oy. destruct Oy as [O1 O2].
  apply Z.ltb_ge in O1.
  assert (Ox : ((971 <? scale x)%Z || ((scale x =? 971)%Z && (mantissa x =? 2 ^ 53)%Z))
               = false).
  { apply orb_false_iff. split; [apply Z.ltb_ge; lia|].
    apply andb_false_iff.
    destruct (Z.eqb_spec (scale x) 971) as [E|E]; [right | now left].
    apply Z.eqb_neq. intros Em.
    assert (Ey : scale y = 971%Z) by lia.
    rewrite Ey, Z.eqb_refl in O2. simpl in O2. apply Z.eqb_neq in O2.
    rewrite E, Ey, Em in Hr.
    apply Qmult_le_r in Hr; [|apply pow2_pos].
    rewrite <- Zle_Qle in Hr. lia. }
  rewrite Ox. eexists. split; [reflexivity|].
  rewrite !Qred_correct. exact Hr.
Qed.

Lemma roundPos_nonneg (x r : Q) : 0 < x -> roundPos x = Some r -> 0 <= r.
Proof.
  intros Hx. unfold roundPos.
  destruct (_ || _); [discriminate|]. intros Er.
  assert (E : r = Qred (inject_Z (mantissa x) * 2 ^ scale x)) by congruence.
  subst r. clear Er.
  rewrite Qred_correct. apply Qmult_le_0_compat.
  - change 0 with (inject_Z 0). rewrite <- Zle_Qle.
    now apply mantissa_nonneg.
  - apply Qlt_le_weak, pow2_pos.
Qed.

(** Integers of at most 53 bits are doubles. *)
Lemma ilog2_int (z : Z) : (0 < z)%Z -> ilog2 (inject_Z z) = Z.log2 z.
Proof.
  intros Hz. unfold ilog2.
  replace (Qle_bool 1 (inject_Z z)) with true.
  - now rewrite Qfloor_Z.
  - symmetry. apply Qle_bool_iff. change 1 with (inject_Z 1).
    rewrite <- Zle_Qle. lia.
Qed.

Lemma roundPos_int (z : Z) :
  (0 < z < 2 ^ 53)%Z -> roundPos (inject_Z z) = Some (inject_Z z).
Proof.
  intros Hz.
  assert (Hl : (0 <= Z.log2 z < 53)%Z).
  { split; [apply Z.log2_nonneg|]. apply Z.log2_lt_pow2; lia. }
  assert (Hs : scale (inject_Z z) = (Z.log2 z - 52)%Z).
  { unfold scale. rewrite ilog2_int by lia. lia. }
  assert (Hm : mantissa (inject_Z z) = (z * 2 ^ (52 - Z.log2 z))%Z).
  { unfold mantissa. rewrite Hs.
    rewrite <- (nearestEven_int (z * 2 ^ (52 - Z.log2 z))).
    apply nearestEven_comp. rewrite div_pow2.
    replace (- (Z.log2 z - 52))%Z with (52 - Z.log2 z)%Z by lia.
    rewrite pow2_Z by lia. now rewrite inject_Z_mult. }
  unfold roundPos. rewrite Hs, Hm.
  replace ((971 <? Z.log2 z - 52)%Z) with false by (symmetry; apply Z.ltb_ge; lia).
  replace ((Z.log2 z - 52 =? 971)%Z) with false by (symmetry; apply Z.eqb_neq; lia).
  cbn [orb andb]. f_equal.
  rewrite <- (Qred_int z). apply Qred_complete.
  rewrite inject_Z_mult, <- pow2_Z by lia.
  rewrite <- Qmult_assoc, <- pow2_add.
  replace (52 - Z.log2 z + (Z.log2 z - 52))%Z with 0%Z by lia.
  change (2 ^ 0) with 1. ring.
Qed.

Lemma Qred_Qred (q : Q) : Qred (Qred q) = Qred q.
Proof. apply Qred_complete, Qred_correct. Qed.

Lemma roundPos_canonical (x r : Q) : roundPos x = Some r -> Qred r = r.
Proof.
  unfold roundPos. destruct (_ || _); [discriminate|]. intros Er.
  assert (E : r = Qred (inject_Z (mantissa x) * 2 ^ scale x)) by congruence.
  rewrite E. apply Qred_Qred.
Qed.

Lemma double_pos (x : Q) :
  0 < x ->
  roundToDouble x = match roundPos x with Some r => Fin r | None => Infinity end.
Proof.
  intros Hx. unfold roundToDouble. destruct x as [[|n|n] d]; try reflexivity;
    unfold Qlt in Hx; simpl in Hx; lia.
Qed.

Lemma double_neg (x : Q) :
  x < 0 ->
  roundToDouble x = match roundPos (- x) with
         | Some r => Fin (Qred (- r))
         | None => NegInfinity
         end.
Proof.
  intros Hx. unfold roundToDouble. destruct x as [[|n|n] d]; try reflexivity;
    unfold Qlt in Hx; simpl in Hx; lia.
Qed.

Lemma double_zero (x : Q) : x == 0 -> roundToDouble x = Fin 0.
Proof.
  intros Hx. unfold roundToDouble. destruct x as [[|n|n] d]; try reflexivity;
    unfold Qeq in Hx; simpl in Hx; lia.
Qed.

(** Rounding is monotone. *)
Lemma double_mono (x y rx ry : Q) :
  x <= y -> roundToDouble x = Fin rx -> roundToDouble y = Fin ry -> rx <= ry.
Proof.
  intros Hxy.
  destruct (Q_dec x 0) as [[Hx|Hx]|Hx]; destruct (Q_dec y 0) as [[Hy|Hy]|Hy];
    try lra.
  - rewrite (double_neg x Hx), (double_neg y Hy).
    destruct (roundPos (- x)) as [r|] eqn:Ex; [|discriminate].
    destruct (roundPos (- y)) as [r'|] eqn:Ey; [|discriminate].
    intros Ea Eb.
    assert (E1 : rx = Qred (- r)) by congruence.
    assert (E2 : ry = Qred (- r')) by congruence.
    subst rx ry. rewrite !Qred_correct.
    destruct (roundPos_mono (- y) (- x) r) as (r'' & E'' & Hle);
      [lra | lra | assumption |].
    assert (r'' = r') by congruence. subst r''. lra.
  - rewrite (double_neg x Hx), (double_pos y Hy).
    destruct (roundPos (- x)) as [r|] eqn:Ex; [|discriminate].
    destruct (roundPos y) as [r'|] eqn:Ey; [|discriminate].
    intros Ea Eb.
    assert (E1 : rx = Qred (- r)) by congruence.
    assert (E2 : ry = r') by congruence.
    subst rx ry. rewrite Qred_correct.
    pose proof (roundPos_nonneg (- x) r) as N1.
    pose proof (roundPos_nonneg y r') as N2.
    assert (0 <= r) by (apply N1; [lra | assumption]).
    assert (0 <= r') by (apply N2; [lra | assumption]). lra.
  - rewrite (double_neg x Hx), (double_zero y Hy).
    destruct (roundPos (- x)) as [r|] eqn:Ex; [|discriminate].
    intros Ea Eb.
    assert (E1 : rx = Qred (- r)) by congruence.
    assert (E2 : ry = 0) by congruence.
    subst rx ry. rewrite Qred_correct.
    pose proof (roundPos_nonneg (- x) r) as N1.
    assert (0 <= r) by (apply N1; [lra | assumption]). lra.
  - rewrite (double_pos x Hx), (double_pos y Hy).
    destruct (roundPos x) as [r|] eqn:Ex; [|discriminate].
    destruct (roundPos y) as [r'|] eqn:Ey; [|discriminate].
    intros Ea Eb.
    assert (E1 : rx = r) by congruence.
    assert (E2 : ry = r') by congruence.
    subst rx ry.
    destruct (roundPos_mono x y r') as (r'' & E'' & Hle);
      [lra | lra | assumption |].
    assert (r'' = r) by congruence. subst r''. lra.
  - rewrite (double_zero x Hx), (double_pos y Hy).
    destruct (roundPos y) as [r'|] eqn:Ey; [|discriminate].
    intros Ea Eb.
    assert (E1 : rx = 0) by congruence.
    assert (E2 : ry = r') by congruence.
    subst rx ry.
    pose proof (roundPos_nonneg y r') as N2. apply N2; [lra | assumption].
  - rewrite (double_zero x Hx), (double_zero y Hy).
    intros Ea Eb.
    assert (E1 : rx = 0) by congruence.
    assert (E2 : ry = 0) by congruence.
    subst rx ry. lra.
Qed.

Lemma double_canonical (x r : Q) : roundToDouble x = Fin r -> Qred r = r.
Proof.
  destruct (Q_dec x 0) as [[Hx|Hx]|Hx].
  - rewrite (double_neg x Hx). destruct (roundPos (- x)); [|discriminate].
    intros E. assert (E' : r = Qred (- q)) by congruence.
    rewrite E'. apply Qred_Qred.
  - rewrite (double_pos x Hx). destruct (roundPos x) eqn:Ex; [|discriminate].
    intros E. assert (E' : r = q) by congruence. subst q.
    now apply roundPos_canonical with x.
  - rewrite (double_zero x Hx). intros E.
    assert (E' : r = 0) by congruence. now subst r.
Qed.

(** An integer of less than 53 bits is a double. *)
Lemma double_int (z : Z) : (Z.abs z < 2 ^ 53)%Z -> roundToDouble (inject_Z z) = ofZ z.
Proof.
  intros Hz. destruct (Z.lt_trichotomy z 0) as [H|[H|H]].
  - rewrite double_neg by (change 0 with (inject_Z 0); rewrite <- Zlt_Qlt; lia).
    rewrite <- inject_Z_opp. rewrite roundPos_int by lia.
    rewrite <- inject_Z_opp, Z.opp_involutive. unfold ofZ.
    now rewrite Qred_int.
  - subst z. reflexivity.
  - rewrite double_pos by (change 0 with (inject_Z 0); rewrite <- Zlt_Qlt; lia).
    now rewrite roundPos_int by lia.
Qed.

(** A value between two such integers rounds to a double between them. *)
Lemma double_between (lo hi : Z) (x : Q) :
  (Z.abs lo < 2 ^ 53)%Z -> (Z.abs hi < 2 ^ 53)%Z ->
  inject_Z lo <= x -> x <= inject_Z hi ->
  exists r, roundToDouble x = Fin r /\ inject_Z lo <= r /\ r <= inject_Z hi.
Proof.
  intros Hlo Hhi Hl Hh.
  assert (Hfin : exists r, roundToDouble x = Fin r).
  { destruct (Q_dec x 0) as [[Hx|Hx]|Hx].
    - rewrite (double_neg x Hx).
      assert (Hlo0 : (lo < 0)%Z).
      { rewrite Zlt_Qlt. change (inject_Z 0) with 0. lra. }
      destruct (roundPos_mono (- x) (inject_Z (- lo)) (inject_Z (- lo)))
        as (r & Er & _).
      + lra.
      + rewrite inject_Z_opp. lra.
      + apply roundPos_int. lia.
      + rewrite Er. eexists. reflexivity.
    - rewrite (double_pos x Hx).
      assert (Hhi0 : (0 < hi)%Z).
      { rewrite Zlt_Qlt. change (inject_Z 0) with 0. lra. }
      destruct (roundPos_mono x (inject_Z hi) (inject_Z hi)) as (r & Er & _).
      + lra.
      + lra.
      + apply roundPos_int. lia.
      + rewrite Er. eexists. reflexivity.
    - rewrite (double_zero x Hx). eexists. reflexivity. }
  destruct Hfin as [r Er]. exists r. split; [assumption|]. split.
  - apply (double_mono (inject_Z lo) x); [assumption | now apply double_int | assumption].
  - apply (double_mono x (inject_Z hi)); [assumption | assumption | now apply double_int].
Qed.

Lemma double_exact (x : Q) (z : Z) :
  (Z.abs z < 2 ^ 53)%Z -> x == inject_Z z -> roundToDouble x = ofZ z.
Proof.
  intros Hz E.
  destruct (double_between z z x Hz Hz) as (r & Er & H1 & H2); try lra.
  rewrite Er. unfold ofZ. f_equal.
  rewrite <- (double_canonical x r Er), <- (Qred_int z).
  apply Qred_complete. lra.
Qed.

Lemma ilog2_unique (x : Q) (e : Z) :
  2 ^ e <= x -> x < 2 ^ (e + 1) -> ilog2 x = e.
Proof.
  intros L U.
  assert (Hx : 0 < x) by (pose proof (pow2_pos e); lra).
  destruct (ilog2_spec x Hx) as [L' U'].
  assert (H1 : 2 ^ e < 2 ^ (ilog2 x + 1)) by lra.
  assert (H2 : 2 ^ ilog2 x < 2 ^ (e + 1)) by lra.
  apply Qpower_lt_compat_l_inv in H1; [|reflexivity].
  apply Qpower_lt_compat_l_inv in H2; [|reflexivity].
  lia.
Qed.

Lemma roundPos_comp (x y : Q) : 0 < x -> x == y -> roundPos x = roundPos y.
Proof.
  intros Hx E. assert (Hy : 0 < y) by lra.
  destruct (roundPos x) as [rx|] eqn:Ex, (roundPos y) as [ry|] eqn:Ey.
  - destruct (roundPos_mono x y ry) as (r1 & E1 & L1); [lra | lra | assumption|].
    destruct (roundPos_mono y x rx) as (r2 & E2 & L2); [lra | lra | assumption|].
    assert (r1 = rx) by congruence. assert (r2 = ry) by congruence. subst.
    f_equal. rewrite <- (roundPos_canonical x rx Ex).
    rewrite <- (roundPos_canonical y ry Ey). apply Qred_complete. lra.
  - destruct (roundPos_mono y x rx) as (r2 & E2 & _); [lra | lra | assumption|].
    congruence.
  - destruct (roundPos_mono x y ry) as (r1 & E1 & _); [lra | lra | assumption|].
    congruence.
  - reflexivity.
Qed.

Lemma double_comp (x y : Q) : x == y -> roundToDouble x = roundToDouble y.
Proof.
  intros E. destruct (Q_dec x 0) as [[Hx|Hx]|Hx].
  - rewrite (double_neg x), (double_neg y) by lra.
    rewrite (roundPos_comp (- x) (- y)); [reflexivity | lra | now rewrite E].
  - rewrite (double_pos x), (double_pos y) by lra.
    now rewrite (roundPos_comp x y).
  - rewrite (double_zero x), (double_zero y); [reflexivity | lra | assumption].
Qed.

(** A positive integer of less than 53 bits divided by a power of two is a
    double. *)
Lemma roundPos_dyadic (n j : Z) :
  (0 < n < 2 ^ 53)%Z -> (0 <= j <= 1000)%Z ->
  roundPos (inject_Z n * 2 ^ (- j)) = Some (Qred (inject_Z n * 2 ^ (- j))).
Proof.
  intros Hn Hj.
  set (x := inject_Z n * 2 ^ (- j)).
  assert (Hl : (0 <= Z.log2 n < 53)%Z).
  { split; [apply Z.log2_nonneg|]. apply Z.log2_lt_pow2; lia. }
  pose proof (Z.log2_spec n (proj1 Hn)) as S.
  assert (He : ilog2 x = (Z.log2 n - j)%Z).
  { apply ilog2_unique; subst x.
    - replace (Z.log2 n - j)%Z with (Z.log2 n + - j)%Z by lia.
      rewrite pow2_add. apply Qmult_le_r; [apply pow2_pos|].
      rewrite pow2_Z by lia. rewrite <- Zle_Qle. lia.
    - replace (Z.log2 n - j + 1)%Z with (Z.log2 n + 1 + - j)%Z by lia.
      rewrite pow2_add. apply Qmult_lt_r; [apply pow2_pos|].
      rewrite pow2_Z by lia. rewrite <- Zlt_Qlt.
      replace (Z.log2 n + 1)%Z with (Z.succ (Z.log2 n)) by lia. lia. }
  assert (Hs : scale x = (Z.log2 n - j - 52)%Z).
  { unfold scale. rewrite He. lia. }
  assert (Hm : mantissa x = (n * 2 ^ (52 - Z.log2 n))%Z).
  { unfold mantissa. rewrite Hs.
    rewrite <- (nearestEven_int (n * 2 ^ (52 - Z.log2 n))).
    apply nearestEven_comp. rewrite div_pow2. subst x.
    rewrite inject_Z_mult, <- pow2_Z by lia.
    rewrite <- Qmult_assoc, <- pow2_add.
    now replace (- j + - (Z.log2 n - j - 52))%Z with (52 - Z.log2 n)%Z by lia. }
  unfold roundPos. rewrite Hs, Hm.
  replace ((971 <? Z.log2 n - j - 52)%Z) with false
    by (symmetry; apply Z.ltb_ge; lia).
  replace ((Z.log2 n - j - 52 =? 971)%Z) with false
    by (symmetry; apply Z.eqb_neq; lia).
  cbn [orb andb]. f_equal. apply Qred_complete. subst x.
  rewrite inject_Z_mult, <- pow2_Z by lia.
  rewrite <- Qmult_assoc, <- pow2_add.
  now replace (52 - Z.log2 n + (Z.log2 n - j - 52))%Z with (- j)%Z by lia.
Qed.

Lemma double_dyadic (n j : Z) :
  (Z.abs n < 2 ^ 53)%Z -> (0 <= j <= 1000)%Z ->
  roundToDouble (inject_Z n * 2 ^ (- j)) = Fin (Qred (inject_Z n * 2 ^ (- j))).
Proof.
  intros Hn Hj. pose proof (pow2_pos (- j)) as P.
  destruct (Z.lt_trichotomy n 0) as [H|[H|H]].
  - assert (Hx : inject_Z n * 2 ^ (- j) < 0).
    { assert (inject_Z n < 0)
        by (change 0 with (inject_Z 0); rewrite <- Zlt_Qlt; lia).
      setoid_replace 0 with (0 * 2 ^ (- j)) by ring.
      apply Qmult_lt_r; assumption. }
    rewrite double_neg by assumption.
    assert (E : - (inject_Z n * 2 ^ (- j)) == inject_Z (- n) * 2 ^ (- j))
      by (rewrite inject_Z_opp; ring).
    assert (Hp : 0 < - (inject_Z n * 2 ^ (- j))) by lra.
    rewrite (roundPos_comp _ _ Hp E).
    rewrite roundPos_dyadic by lia.
    apply f_equal.
    apply Qred_complete. rewrite Qred_correct, inject_Z_opp. ring.
  - subst n. rewrite double_zero by ring. reflexivity.
  - assert (Hx : 0 < inject_Z n * 2 ^ (- j)).
    { assert (0 < inject_Z n)
        by (change 0 with (inject_Z 0); rewrite <- Zlt_Qlt; lia).
      setoid_replace 0 with (0 * 2 ^ (- j)) by ring.
      apply Qmult_lt_r; assumption. }
    rewrite double_pos by assumption. now rewrite roundPos_dyadic by lia.
Qed.

(** Rounding does not cross a double. *)
Lemma double_le_dyadic (x : Q) (n j : Z) (r : Q) :
  (Z.abs n < 2 ^ 53)%Z -> (0 <= j <= 1000)%Z ->
  x <= inject_Z n * 2 ^ (- j) -> roundToDouble x = Fin r ->
  r <= inject_Z n * 2 ^ (- j).
Proof.
  intros Hn Hj Hx Er.
  rewrite <- (Qred_correct (inject_Z n * 2 ^ (- j))).
  apply (double_mono x (inject_Z n * 2 ^ (- j))); try assumption.
  now apply double_dyadic.
Qed.

Lemma double_ge_dyadic (x : Q) (n j : Z) (r : Q) :
  (Z.abs n < 2 ^ 53)%Z -> (0 <= j <= 1000)%Z ->
  inject_Z n * 2 ^ (- j) <= x -> roundToDouble x = Fin r ->
  inject_Z n * 2 ^ (- j) <= r.
Proof.
  intros Hn Hj Hx Er.
  rewrite <- (Qred_correct (inject_Z n * 2 ^ (- j))).
  apply (double_mono (inject_Z n * 2 ^ (- j)) x); try assumption.
  now apply double_dyadic.
Qed.

Lemma pow2_frac (n j : Z) :
  (0 <= j)%Z -> inject_Z n * 2 ^ (- j) == n # Z.to_pos (2 ^ j).
Proof.
  intros Hj. rewrite Qpower_opp, pow2_Z by assumption.
  assert (P : (0 < 2 ^ j)%Z) by (apply Z.pow_pos_nonneg; lia).
  destruct (2 ^ j)%Z as [|p|p]; try lia.
  unfold Qeq, Qmult, Qinv, inject_Z. simpl. lia.
Qed.

(** The quotient of two integers in range, rounded to a double, lies on
    the same side of every integer and half-integer as the quotient. *)
Lemma Qfloor_lt (x : Q) (m : Z) : x < inject_Z m -> (Qfloor x < m)%Z.
Proof.
  intros H. rewrite Zlt_Qlt.
  apply Qle_lt_trans with x; [apply Qfloor_le | assumption].
Qed.

Lemma Qceiling_gt (x : Q) (m : Z) : inject_Z m < x -> (m < Qceiling x)%Z.
Proof.
  intros H. rewrite Zlt_Qlt.
  apply Qlt_le_trans with x; [assumption | apply Qle_ceiling].
Qed.

Section Quotient.

Variables a b : Z.
Hypothesis Hb : (0 < b)%Z.
Hypothesis Hab : (4 * Z.abs a + 4 * b < 2 ^ 52)%Z.

Lemma separator_facts :
  (0 <= Z.log2_up (2 * b) <= 1000)%Z /\
  separator b = (2 * halfSeparator b)%Z /\
  (b <= halfSeparator b < 2 * b)%Z.
Proof.
  pose proof (Z.log2_up_spec (2 * b) ltac:(lia)) as S.
  assert (L : (Z.log2_up (2 * b) <= 52)%Z).
  { apply Z.log2_up_le_pow2; lia. }
  assert (0 < Z.log2_up (2 * b))%Z by (apply Z.log2_up_pos; lia).
  assert (E : separator b = (2 * halfSeparator b)%Z).
  { unfold separator, halfSeparator.
    rewrite <- Z.pow_succ_r by lia. f_equal. lia. }
  replace (Z.pred (Z.log2_up (2 * b))) with (Z.log2_up (2 * b) - 1)%Z in S
    by lia.
  fold (separator b) (halfSeparator b) in S. lia.
Qed.

Lemma quotient_bounds (r : Q) (n : Z) :
  (Z.abs n < 2 ^ 53)%Z -> roundToDouble (a # Z.to_pos b) = Fin r ->
  ((n * b <= a * (separator b))%Z -> n # Z.to_pos (separator b) <= r) /\
  ((a * (separator b) <= n * b)%Z -> r <= n # Z.to_pos (separator b)).
Proof.
  intros Hn Er. destruct separator_facts as (Hj & HP & HP2).
  assert (E : inject_Z n * 2 ^ (- Z.log2_up (2 * b)) == n # Z.to_pos (separator b))
    by (apply pow2_frac; lia).
  split; intros H; rewrite <- E.
  - apply (double_ge_dyadic (a # Z.to_pos b)); try assumption.
    rewrite E. unfold Qle. cbn [Qnum Qden]. rewrite !Z2Pos.id by lia. lia.
  - apply (double_le_dyadic (a # Z.to_pos b)); try assumption.
    rewrite E. unfold Qle. cbn [Qnum Qden]. rewrite !Z2Pos.id by lia. lia.
Qed.

Lemma quotient_finite : exists r, roundToDouble (a # Z.to_pos b) = Fin r.
Proof.
  destruct (double_between (- Z.abs a) (Z.abs a) (a # Z.to_pos b))
    as (r & Er & _); try lia.
  - unfold Qle. cbn [Qnum Qden inject_Z]. rewrite Z2Pos.id by lia. nia.
  - unfold Qle. cbn [Qnum Qden inject_Z]. rewrite Z2Pos.id by lia. nia.
  - now exists r.
Qed.

Lemma round_quotient :
  exists r, roundToDouble (a # Z.to_pos b) = Fin r /\
            Qfloor (r + (1 # 2)) = roundDiv a b.
Proof.
  destruct quotient_finite as [r Er]. exists r. split; [assumption|].
  destruct separator_facts as (Hj & HP & HP2).
  set (k := roundDiv a b).
  assert (Hk : (2 * k * b - b <= 2 * a < 2 * k * b + b)%Z).
  { subst k. unfold roundDiv.
    pose proof (Z.div_mod (2 * a + b) (2 * b)) as E.
    pose proof (Z.mod_pos_bound (2 * a + b) (2 * b)) as B. lia. }
  assert (Hkb : (Z.abs k * b <= Z.abs a + b)%Z) by nia.
  assert (Hkp : (Z.abs k * (halfSeparator b) <= 2 * Z.abs a + 2 * b)%Z) by nia.
  destruct (quotient_bounds r ((2 * k - 1) * (halfSeparator b))) as [Lo _];
    [nia | assumption |].
  destruct (quotient_bounds r ((2 * k + 1) * (halfSeparator b) - 1)) as [_ Up];
    [nia | assumption |].
  assert (L : inject_Z k - (1 # 2) <= r).
  { apply Qle_trans with ((2 * k - 1) * (halfSeparator b) # Z.to_pos (separator b)); [|apply Lo; nia].
    unfold Qle, Qminus, Qplus, Qopp. cbn [Qnum Qden inject_Z].
    rewrite Pos2Z.inj_mul, !Z2Pos.id by lia. nia. }
  assert (U : r < inject_Z k + (1 # 2)).
  { apply Qle_lt_trans with ((2 * k + 1) * (halfSeparator b) - 1 # Z.to_pos (separator b));
      [apply Up; nia|].
    unfold Qlt, Qplus. cbn [Qnum Qden inject_Z].
    rewrite Pos2Z.inj_mul, !Z2Pos.id by lia. nia. }
  apply Z.le_antisymm.
  - assert (Qfloor (r + (1 # 2)) < k + 1)%Z; [|lia].
    apply Qfloor_lt. rewrite inject_Z_plus. change (inject_Z 1) with 1. lra.
  - rewrite <- (Qfloor_Z k). apply Qfloor_resp_le. lra.
Qed.

Lemma ceil_quotient :
  exists r, roundToDouble (a # Z.to_pos b) = Fin r /\ Qceiling r = ceilDiv a b.
Proof.
  destruct quotient_finite as [r Er]. exists r. split; [assumption|].
  destruct separator_facts as (Hj & HP & HP2).
  set (k := ceilDiv a b).
  assert (Hk : ((k - 1) * b < a <= k * b)%Z).
  { subst k. unfold ceilDiv.
    pose proof (Z.div_mod (- a) b) as E.
    pose proof (Z.mod_pos_bound (- a) b) as B. lia. }
  assert (Hkb : (Z.abs k * b <= Z.abs a + b)%Z) by nia.
  assert (Hkp : (Z.abs k * (halfSeparator b) <= 2 * Z.abs a + 2 * b)%Z) by nia.
  destruct (quotient_bounds r (k * (separator b))) as [_ Up]; [nia | assumption |].
  destruct (quotient_bounds r ((k - 1) * (separator b) + 1)) as [Lo _];
    [nia | assumption |].
  assert (U : r <= inject_Z k).
  { apply Qle_trans with (k * (separator b) # Z.to_pos (separator b)); [apply Up; nia|].
    unfold Qle. cbn [Qnum Qden inject_Z]. rewrite !Z2Pos.id by lia. lia. }
  assert (L : inject_Z (k - 1) < r).
  { apply Qlt_le_trans with ((k - 1) * (separator b) + 1 # Z.to_pos (separator b)); [|apply Lo; nia].
    unfold Qlt. cbn [Qnum Qden inject_Z]. rewrite !Z2Pos.id by lia. lia. }
  apply Z.le_antisymm.
  - rewrite <- (Qceiling_Z k). now apply Qceiling_resp_le.
  - apply Qceiling_gt in L. lia.
Qed.

End Quotient.

(** The double of a product of bounded factors, and of a quotient by a
    positive integer, is finite and within the bound. *)
Lemma double_product (x y : Q) (a b : Z) :
  Qabs x <= inject_Z a -> Qabs y <= inject_Z b -> (a * b < 2 ^ 53)%Z ->
  exists r, roundToDouble (x * y) = Fin r /\ Qabs r <= inject_Z (a * b).
Proof.
  intros Hx Hy Hab.
  assert (Ha : (0 <= a)%Z).
  { rewrite Zle_Qle. apply Qle_trans with (Qabs x); [apply Qabs_nonneg|].
    assumption. }
  assert (Hb : (0 <= b)%Z).
  { rewrite Zle_Qle. apply Qle_trans with (Qabs y); [apply Qabs_nonneg|].
    assumption. }
  assert (Hp : Qabs (x * y) <= inject_Z (a * b)).
  { rewrite Qabs_Qmult, inject_Z_mult.
    apply Qmult_le_compat_nonneg; split;
      (apply Qabs_nonneg || assumption). }
  apply Qabs_Qle_condition in Hp. destruct Hp as [H1 H2].
  rewrite <- inject_Z_opp in H1.
  destruct (double_between (- (a * b)) (a * b) (x * y))
    as (r & Er & L & U); try assumption; try nia.
  exists r. split; [assumption|].
  apply Qabs_Qle_condition. rewrite <- inject_Z_opp. now split.
Qed.

Lemma double_quotient (x : Q) (a d : Z) :
  Qabs x <= inject_Z a -> (0 < d)%Z -> (a < 2 ^ 53)%Z ->
  exists r, roundToDouble (x / inject_Z d) = Fin r /\ Qabs r <= inject_Z a.
Proof.
  intros Hx Hd Ha.
  destruct (double_product x (/ inject_Z d) a 1) as (r & Er & Hr);
    try assumption; try lia.
  - destruct d as [|dp|dp]; try lia.
    unfold Qabs, Qinv, Qle, inject_Z. simpl. lia.
  - exists r. split; [exact Er|]. now rewrite Z.mul_1_r in Hr.
Qed.

(** Rounding a bounded number to an integer keeps the bound. *)
Lemma round_bounded (r : Q) (a : Z) :
  Qabs r <= inject_Z a -> (Z.abs (Qfloor (r + (1 # 2))) <= a)%Z.
Proof.
  intros H. apply Qabs_Qle_condition in H. destruct H as [H1 H2].
  rewrite <- inject_Z_opp in H1.
  assert (L : (- a <= Qfloor (r + (1 # 2)))%Z).
  { rewrite <- (Qfloor_Z (- a)). apply Qfloor_resp_le. lra. }
  assert (U : (Qfloor (r + (1 # 2)) < a + 1)%Z).
  { rewrite Zlt_Qlt.
    apply Qle_lt_trans with (r + (1 # 2)); [apply Qfloor_le|].
    rewrite inject_Z_plus. change (inject_Z 1) with 1. lra. }
  lia.
Qed.

End Doubles.

(** ** Doubles at integers

    The arithmetic of doubles on integers: exact while the results stay
    below 2^53, and a quotient rounds, and rounds up, to the integer the
    exact quotient does while [4 |a| + 4 b < 2^52]. *)

Lemma plus_ofZ (a b : Z) :
  Z.abs (a + b) < 2 ^ 53 -> plus (ofZ a) (ofZ b) = ofZ (a + b).
Proof.
  intros H. cbn [plus ofZ]. apply double_exact; [assumption|].
  now rewrite inject_Z_plus.
Qed.

Lemma minus_ofZ (a b : Z) :
  Z.abs (a - b) < 2 ^ 53 -> minus (ofZ a) (ofZ b) = ofZ (a - b).
Proof.
  intros H. cbn [minus ofZ]. apply double_exact; [assumption|].
  unfold Z.sub. now rewrite inject_Z_plus, inject_Z_opp.
Qed.

Lemma times_ofZ (a b : Z) :
  Z.abs (a * b) < 2 ^ 53 -> times (ofZ a) (ofZ b) = ofZ (a * b).
Proof.
  intros H. cbn [times ofZ]. apply double_exact; [assumption|].
  now rewrite inject_Z_mult.
Qed.

Lemma over_ofZ (a b : Z) :
  0 < b -> over (ofZ a) (ofZ b) = roundToDouble (a # Z.to_pos b).
Proof.
  intros Hb. unfold over, ofZ.
  replace (Qeq_bool (inject_Z b) 0) with false.
  - apply double_comp. now apply Qdiv_int.
  - symmetry. unfold Qeq_bool, inject_Z. simpl. destruct b; simpl; lia.
Qed.

Lemma round_over_ofZ (a b : Z) :
  0 < b -> 4 * Z.abs a + 4 * b < 2 ^ 52 ->
  Math_round (over (ofZ a) (ofZ b)) = ofZ (roundDiv a b).
Proof.
  intros Hb Hab. rewrite over_ofZ by assumption.
  destruct (round_quotient a b Hb Hab) as (r & -> & E).
  cbn [Math_round]. now rewrite E.
Qed.

Lemma ceil_over_ofZ (a b : Z) :
  0 < b -> 4 * Z.abs a + 4 * b < 2 ^ 52 ->
  Math_ceil (over (ofZ a) (ofZ b)) = ofZ (ceilDiv a b).
Proof.
  intros Hb Hab. rewrite over_ofZ by assumption.
  destruct (ceil_quotient a b Hb Hab) as (r & -> & E).
  cbn [Math_ceil]. now rewrite E.
Qed.

Lemma over_one_ofZ (a : Z) :
  Z.abs a < 2 ^ 53 -> over (ofZ a) (ofZ 1) = ofZ a.
Proof.
  intros H. rewrite over_ofZ by lia. apply double_exact; [assumption|].
  reflexivity.
Qed.

(** The magnitude of a rounded quotient. *)
Lemma roundDiv_abs (a b m : Z) :
  0 < b -> Z.abs a <= m * b -> Z.abs (roundDiv a b) <= m + 1.
Proof.
  intros Hb Ha. pose proof (roundDiv_nearest a b Hb) as H.
  unfold nearest in H. nia.
Qed.

(** ** The evaluator at integer inputs *)

Section IntegerInputs.

Import Econ IntInputs IntEval.

Lemma preset_pct_int (pl : Platform) :
  pctBps (PLATFORM_FEES pl) = ofZ (presetPct pl).
Proof. now destruct pl. Qed.

Lemma preset_fixed_int (pl : Platform) :
  fixedCents (PLATFORM_FEES pl) = ofZ (presetFixed pl).
Proof. now destruct pl. Qed.

Lemma default_floor_int (k : ProductKind) :
  DEFAULT_FLOORS_BPS k = ofZ (defaultFloor k).
Proof. now destruct k. Qed.

Lemma default_buffer_int : DEFAULT_BUFFER_BPS = ofZ 300.
Proof. reflexivity. Qed.

Lemma mulBps_ofZ (a r : Z) :
  Z.abs (a * r) <= 1000000000000000 ->
  mulBps (ofZ a) (ofZ r) = ofZ (roundDiv (a * r) 10000).
Proof.
  intros H. unfold mulBps. rewrite times_ofZ by lia.
  apply round_over_ofZ; lia.
Qed.

(** [toBase] reaches every integer-valued input. *)
Lemma optInteger_map (o : option number) :
  optInteger o -> exists oz : option Z, o = option_map ofZ oz.
Proof.
  destruct o as [x|]; simpl.
  - intros [z ->]. now exists (Some z).
  - intros _. now exists None.
Qed.

Lemma integerBase_toBase (b : BaseInputs.t) :
  integerBase b -> exists i : IntInputs.t, b = toBase i.
Proof.
  destruct b as [c s pk pl k op ofx bu fl]. unfold integerBase.
  cbn [BaseInputs.cogsCents BaseInputs.shippingCents
       BaseInputs.packagingCents BaseInputs.overridePctBps
       BaseInputs.overrideFixedCents BaseInputs.bufferBps
       BaseInputs.floorBps].
  intros ([c' ->] & [s' ->] & Hpk & Hop & Hof & Hbu & Hfl).
  destruct (optInteger_map pk Hpk) as [pk' ->].
  destruct (optInteger_map op Hop) as [op' ->].
  destruct (optInteger_map ofx Hof) as [of' ->].
  destruct (optInteger_map bu Hbu) as [bu' ->].
  destruct (optInteger_map fl Hfl) as [fl' ->].
  now exists (IntInputs.Build_t c' s' pk' pl k op' of' bu' fl').
Qed.

(** The rates and fees in force for the example of the module's closing
    comment. *)
Example resolved_example :
  pct Samples.exampleInt = 975 /\ fixed Samples.exampleInt = 0 /\
  buf Samples.exampleInt = 300 /\ flr Samples.exampleInt = 3000 /\
  denom Samples.exampleInt = 5725 /\ rhs Samples.exampleInt = 820.
Proof. repeat split. Qed.

(** The magnitudes of the amounts [evaluateEcon] computes. *)
Lemma evaluator_bounds (p : Z) (i : IntInputs.t) :
  Range.inputs i -> Z.abs p <= Range.amountMax ->
  Z.abs (p * pct i) <= 200000000000000 /\
  Z.abs (p * buf i) <= 200000000000000 /\
  Z.abs (roundDiv (p * pct i) 10000) <= 20000000001 /\
  Z.abs (bufferC p i) <= 20000000001 /\
  Z.abs (fees p i) <= 30000000001 /\
  Z.abs (profit p i) <= 90000000002 /\
  Z.abs (denom i) <= 70000 /\
  Z.abs (rhs i) <= 40000000000.
Proof.
  unfold Range.inputs, Range.amount, Range.rate, Range.amountMax,
    Range.rateMax.
  intros (Hc & Hs & Hk & Hf & Hp & Hb & Hl) Hpr.
  assert (B1 : Z.abs (p * pct i) <= 200000000000000) by nia.
  assert (B2 : Z.abs (p * buf i) <= 200000000000000) by nia.
  assert (B3 : Z.abs (roundDiv (p * pct i) 10000) <= 20000000001)
    by (apply (roundDiv_abs _ 10000 20000000000); lia).
  assert (B4 : Z.abs (bufferC p i) <= 20000000001)
    by (apply (roundDiv_abs _ 10000 20000000000); lia).
  unfold fees, profit, denom, rhs. unfold bufferC, fees in *.
  repeat split; lia.
Qed.

Lemma evaluateEcon_int (p : Z) (i : IntInputs.t) :
  Range.inputs i -> p <= Range.amountMax ->
  evaluateEcon (toInputs p i) =
  if p <=? 0 then Throws "priceCents must be > 0"
  else Returns (resultAt p i).
Proof.
  intros Hi Hp.
  unfold evaluateEcon, computeFeesCents, toInputs, toBase.
  unfold EconInputs.cogsCents, EconInputs.shippingCents,
    EconInputs.packagingCents, EconInputs.platform, EconInputs.kind,
    EconInputs.overridePctBps, EconInputs.overrideFixedCents,
    EconInputs.bufferBps, EconInputs.floorBps.
  cbn [EconInputs.priceCents EconInputs.rest BaseInputs.cogsCents
       BaseInputs.shippingCents BaseInputs.packagingCents
       BaseInputs.platform BaseInputs.kind BaseInputs.overridePctBps
       BaseInputs.overrideFixedCents BaseInputs.bufferBps
       BaseInputs.floorBps Fees.feesCents Fees.pctBps Fees.fixedCents
       Fees.label].
  rewrite le_ofZ. destruct (Z.leb_spec p 0) as [Hle|Hpos]; [reflexivity|].
  destruct (evaluator_bounds p i Hi)
    as (B1 & B2 & B3 & B4 & B5 & B6 & _);
    [unfold Range.amountMax in *; lia|].
  pose proof Hi as (Hc & Hs & Hk & Hf & _).
  unfold Range.amount, Range.amountMax in *.
  rewrite preset_pct_int, preset_fixed_int, default_floor_int,
    default_buffer_int.
  rewrite !nullish_ofZ.
  change (nullish (overridePct i) (presetPct (platform i))) with (pct i).
  change (nullish (buffer i) 300) with (buf i).
  change (nullish (floor i) (defaultFloor (kind i))) with (flr i).
  change (nullish (overrideFixed i) (presetFixed (platform i)))
    with (fixed i).
  change (nullish (packaging i) 0) with (pack i).
  rewrite !mulBps_ofZ by lia.
  fold (bufferC p i).
  rewrite (plus_ofZ (roundDiv (p * pct i) 10000)) by lia.
  fold (fees p i).
  unfold fees, bufferC, profit in B5, B4, B6.
  rewrite !plus_ofZ by (unfold fees, bufferC; lia).
  rewrite minus_ofZ by (unfold fees, bufferC; lia).
  fold (profit p i).
  rewrite times_ofZ by (unfold profit, fees, bufferC; lia).
  rewrite round_over_ofZ by (unfold profit, fees, bufferC; lia).
  rewrite ge_ofZ. reflexivity.
Qed.

Lemma minPriceForFloorCents_int (i : IntInputs.t) :
  Range.inputs i ->
  minPriceForFloorCents (toBase i) =
  if denom i <=? 0 then Infinity
  else ofZ (ceilDiv (rhs i * 10000) (denom i)).
Proof.
  intros Hi.
  destruct (evaluator_bounds 0 i Hi) as (_ & _ & _ & _ & _ & _ & Bd & Br);
    [unfold Range.amountMax; lia|].
  pose proof Hi as (Hc & Hs & Hk & Hf & Hp & Hb & Hl).
  unfold Range.amount, Range.amountMax, Range.rate, Range.rateMax in *.
  unfold minPriceForFloorCents, toBase.
  cbn [BaseInputs.cogsCents BaseInputs.shippingCents
       BaseInputs.packagingCents BaseInputs.platform BaseInputs.kind
       BaseInputs.overridePctBps BaseInputs.overrideFixedCents
       BaseInputs.bufferBps BaseInputs.floorBps].
  rewrite preset_pct_int, preset_fixed_int, default_floor_int,
    default_buffer_int.
  rewrite !nullish_ofZ.
  change (nullish (overridePct i) (presetPct (platform i))) with (pct i).
  change (nullish (buffer i) 300) with (buf i).
  change (nullish (floor i) (defaultFloor (kind i))) with (flr i).
  change (nullish (overrideFixed i) (presetFixed (platform i)))
    with (fixed i).
  change (nullish (packaging i) 0) with (pack i).
  unfold denom, rhs in *.
  rewrite !minus_ofZ by lia. rewrite le_ofZ.
  destruct (Z.leb_spec (10000 - pct i - buf i - flr i) 0) as [Hd|Hd];
    [reflexivity|].
  rewrite !plus_ofZ by lia. rewrite times_ofZ by lia.
  apply ceil_over_ofZ; lia.
Qed.

End IntegerInputs.

(** ** The evaluator: formulas, failure, example *)

Section Evaluator.

Import Econ IntInputs IntEval Samples.

(** C1, amended.  At every integer input in range with a positive price,
    [evaluateEcon] returns a result whose fees are the percentage part,
    rounded to the nearest cent, plus the fixed fee; whose buffer is the
    rounded percentage of the price; whose profit is the price minus
    costs, shipping, packaging, fees and buffer; whose margin is
    [profit * 10000 / price] rounded to the nearest integer; and whose
    [pass] flag is [marginBps >= floorBps]. *)
Theorem evaluateEcon_formulas (p : Z) (i : IntInputs.t) :
  Range.price p -> Range.inputs i ->
  exists (r : EconResult.t) (pctPart buffer profit margin : Z),
    evaluateEcon (toInputs p i) = Returns r /\
    nearest (p * pct i) 10000 pctPart /\
    EconResult.feesCents r = ofZ (pctPart + fixed i) /\
    nearest (p * buf i) 10000 buffer /\
    EconResult.bufferCents r = ofZ buffer /\
    profit =
      p - (cogs i + shipping i + pack i + (pctPart + fixed i) + buffer) /\
    EconResult.profitCents r = ofZ profit /\
    nearest (profit * 10000) p margin /\
    EconResult.marginBps r = ofZ margin /\
    EconResult.floorBps r = ofZ (flr i) /\
    EconResult.pass r = (flr i <=? margin).
Proof.
  intros [Hp Hmax] Hi.
  exists (resultAt p i), (roundDiv (p * pct i) 10000), (bufferC p i),
    (profit p i), (margin p i).
  rewrite evaluateEcon_int by assumption.
  destruct (Z.leb_spec p 0) as [Hle|_]; [lia|].
  repeat split; try reflexivity;
    apply roundDiv_nearest; lia.
Qed.

Lemma evaluateEcon_formulas_witness :
  Range.price 1490 /\
  exists r : EconResult.t,
    evaluateEcon (toInputs 1490 exampleInt) = Returns r /\
    EconResult.feesCents r = ofZ 145.
Proof.
  split; [split; vm_compute; (reflexivity || discriminate)|].
  destruct (evaluateEcon_formulas 1490 exampleInt)
    as (r & f & b & pr & m & Hr & Hn & Hf & _).
  { split; vm_compute; (reflexivity || discriminate). }
  { repeat split; vm_compute; discriminate. }
  exists r. split; [exact Hr|]. rewrite Hf. f_equal.
  change (pct exampleInt) with 975 in Hn.
  change (fixed exampleInt) with 0.
  unfold nearest in Hn. lia.
Defined.

(** C1 as stated fails beyond that range: at a price of 83934682304600
    cents on Etsy, without costs, the product [price * 975] is above 2^53
    and is rounded; the fees come out as 8183631524698, where the nearest
    integer to [price * 975 / 10000] is 8183631524699. *)
Lemma evaluateEcon_rounds_at_large_price :
  exists r : EconResult.t,
    evaluateEcon (toInputs 83934682304600 noCosts) = Returns r /\
    EconResult.feesCents r = ofZ 8183631524698 /\
    pct noCosts = 975 /\ fixed noCosts = 0 /\
    nearest (83934682304600 * 975) 10000 8183631524699 /\
    ~ nearest (83934682304600 * 975) 10000 8183631524698.
Proof.
  eexists. split; [vm_compute; reflexivity|].
  split; [reflexivity|]. split; [reflexivity|]. split; [reflexivity|].
  unfold nearest. split; lia.
Qed.

(** C6.  [evaluateEcon] throws exactly when [priceCents <= 0]; whenever
    [priceCents > 0] it returns, whatever the other fields hold. *)
Theorem evaluateEcon_throws_iff (input : EconInputs.t) :
  ((exists e, evaluateEcon input = Throws e) <->
   le (EconInputs.priceCents input) (ofZ 0) = true) /\
  (lt (ofZ 0) (EconInputs.priceCents input) = true ->
   exists r, evaluateEcon input = Returns r).
Proof.
  unfold evaluateEcon. split.
  - destruct (le (EconInputs.priceCents input) (ofZ 0)); split.
    + reflexivity.
    + intros _. eexists. reflexivity.
    + intros [e He]. discriminate He.
    + discriminate.
  - intros Hpos.
    assert (Hle : le (EconInputs.priceCents input) (ofZ 0) = false).
    { destruct (EconInputs.priceCents input) as [q| | |];
        try reflexivity; try discriminate Hpos.
      simpl in *. now apply negb_true_iff. }
    rewrite Hle. eexists. reflexivity.
Qed.

Lemma evaluateEcon_throws_iff_witness :
  exists r : EconResult.t, evaluateEcon exampleInputs = Returns r.
Proof.
  apply (proj2 (evaluateEcon_throws_iff exampleInputs)). reflexivity.
Defined.

(** C9.  On the example input (price 1490, cost 500, shipping 320, Etsy,
    physical) the fees are 145, which is [1490 * 975 / 10000] rounded plus
    a fixed fee of 0, the floor is 3000 bps, and [pass] tells whether the
    margin (3221 bps) reaches 3000. *)
Theorem evaluateEcon_example :
  exists r : EconResult.t,
    evaluateEcon exampleInputs = Returns r /\
    EconResult.feesCents r = ofZ 145 /\
    nearest (1490 * 975) 10000 145 /\
    Breakdown.fixedFeeCents (EconResult.breakdown r) = ofZ 0 /\
    EconResult.floorBps r = ofZ 3000 /\
    EconResult.pass r = ge (EconResult.marginBps r) (ofZ 3000) /\
    EconResult.marginBps r = ofZ 3221 /\
    EconResult.pass r = true.
Proof.
  eexists. split; [vm_compute; reflexivity|].
  unfold nearest. cbn. repeat split; lia.
Qed.

End Evaluator.

(** ** The break-even price *)

Section BreakEven.

Import Econ IntInputs IntEval Samples.

(** C5, amended.  At integer inputs in range [minPriceForFloorCents]
    returns [Infinity] exactly when
    [pctBps + bufferBps + floorBps >= 10000]; otherwise it returns the
    ceiling of
    [(cogs + shipping + packaging + fixed) * 10000 /
     (10000 - pctBps - bufferBps - floorBps)]. *)
Theorem minPriceForFloorCents_spec (i : IntInputs.t) :
  Range.inputs i ->
  (minPriceForFloorCents (toBase i) = Infinity <->
   10000 <= pct i + buf i + flr i) /\
  (pct i + buf i + flr i < 10000 ->
   exists p : Z,
     minPriceForFloorCents (toBase i) = ofZ p /\
     ceilingOf ((cogs i + shipping i + pack i + fixed i) * 10000)
       (10000 - pct i - buf i - flr i) p).
Proof.
  intros Hi.
  rewrite minPriceForFloorCents_int by assumption. unfold denom, rhs.
  destruct (Z.leb_spec (10000 - pct i - buf i - flr i) 0) as [Hd|Hd].
  - split; [split; [lia | reflexivity] | lia].
  - split.
    + split; [discriminate | lia].
    + intros _. eexists. split; [reflexivity|].
      now apply ceilDiv_ceilingOf.
Qed.

Lemma minPriceForFloorCents_spec_witness :
  exists p : Z, minPriceForFloorCents (toBase exampleInt) = ofZ p.
Proof.
  destruct (proj2 (minPriceForFloorCents_spec exampleInt
                     ltac:(repeat split; vm_compute; discriminate)))
    as [p [Hp _]].
  - vm_compute. reflexivity.
  - exists p. exact Hp.
Defined.

(** C5 as stated fails outside that range.  With a cost of [Infinity]
    the result is [Infinity] although fee, buffer and floor add up to
    4275 bps, less than 10000.  And with a cost of 14427965257517 cents
    the product [costs * 10000] is above 2^53 and is rounded: the result
    is 25201686039331, one below the ceiling of the quotient. *)
Lemma minPriceForFloorCents_infinite_cost :
  minPriceForFloorCents infiniteCost = Infinity /\
  plus (plus (pctBps (PLATFORM_FEES (BaseInputs.platform infiniteCost)))
          DEFAULT_BUFFER_BPS)
    (DEFAULT_FLOORS_BPS (BaseInputs.kind infiniteCost)) = ofZ 4275 /\
  BaseInputs.overridePctBps infiniteCost = None /\
  BaseInputs.bufferBps infiniteCost = None /\
  BaseInputs.floorBps infiniteCost = None /\
  ~ 10000 <= 4275 /\
  minPriceForFloorCents (toBase hugeCosts) = ofZ 25201686039331 /\
  pct hugeCosts + buf hugeCosts + flr hugeCosts = 4275 /\
  ceilingOf
    ((cogs hugeCosts + shipping hugeCosts + pack hugeCosts
      + fixed hugeCosts) * 10000)
    (10000 - pct hugeCosts - buf hugeCosts - flr hugeCosts)
    25201686039332.
Proof.
  repeat split; try (vm_compute; reflexivity); try lia;
    vm_compute; discriminate.
Qed.

Lemma profit_lower (p : Z) (i : IntInputs.t) :
  rhs i * 10000 <= p * denom i ->
  p * flr i - 10000 <= 10000 * profit p i.
Proof.
  intros Hrhs.
  pose proof (roundDiv_nearest (p * pct i) 10000 eq_refl) as Hf.
  pose proof (roundDiv_nearest (p * buf i) 10000 eq_refl) as Hb.
  unfold nearest in Hf, Hb.
  unfold profit, fees, bufferC, rhs, denom in *. lia.
Qed.

Lemma profit_upper (p : Z) (i : IntInputs.t) :
  p * denom i < rhs i * 10000 + denom i ->
  10000 * profit p i < p * flr i + denom i + 10000.
Proof.
  intros Hrhs.
  pose proof (roundDiv_nearest (p * pct i) 10000 eq_refl) as Hf.
  pose proof (roundDiv_nearest (p * buf i) 10000 eq_refl) as Hb.
  unfold nearest in Hf, Hb.
  unfold profit, fees, bufferC, rhs, denom in *. lia.
Qed.

(** A price of at least 200 dollars that is not below the break-even
    price passes the floor. *)
Lemma pass_of_large_price (p p0 : Z) (i : IntInputs.t) :
  0 < denom i ->
  rhs i * 10000 <= p0 * denom i ->
  p0 <= p -> 20000 <= p ->
  (flr i <=? margin p i) = true.
Proof.
  intros Hd Hp0 Hle Hbig. apply Z.leb_le.
  assert (Hrhs : rhs i * 10000 <= p * denom i).
  { apply Z.le_trans with (p0 * denom i); [assumption|].
    apply Z.mul_le_mono_nonneg_r; lia. }
  pose proof (profit_lower p i Hrhs) as Hlow.
  assert (Hp : 0 < p) by lia.
  pose proof (roundDiv_nearest (profit p i * 10000) p Hp) as Hm.
  unfold nearest in Hm. fold (margin p i) in Hm. nia.
Qed.

(** C2, amended.  Let [p] be the finite price [minPriceForFloorCents]
    returns at integer inputs in range, itself of at most 10^10 cents.
    If [p <= 0], [evaluateEcon] throws at [p].  If [p > 0],
    [evaluateEcon] returns at [p] a margin [m] with
    [floor - 1/2 - 10000/p < m < floor + 1/2 + (denom + 10000)/p]; in
    particular [m] is within 1 bps of the floor as soon as [p >= 13334]
    and the three rates sum to a non-negative number. *)
Theorem breakEven_margin (i : IntInputs.t) (p : Z) :
  Range.inputs i -> p <= Range.amountMax ->
  minPriceForFloorCents (toBase i) = ofZ p ->
  (p <= 0 -> exists e, evaluateEcon (toInputs p i) = Throws e) /\
  (0 < p ->
   exists (r : EconResult.t) (m : Z),
     evaluateEcon (toInputs p i) = Returns r /\
     EconResult.marginBps r = ofZ m /\
     EconResult.floorBps r = ofZ (flr i) /\
     2 * p * (flr i - m) < 20000 + p /\
     2 * p * (m - flr i) < 2 * (denom i + 10000) + p /\
     (13334 <= p -> 0 <= pct i + buf i + flr i -> Z.abs (m - flr i) <= 1)).
Proof.
  intros Hi Hmax.
  rewrite minPriceForFloorCents_int, evaluateEcon_int by assumption.
  destruct (Z.leb_spec (denom i) 0) as [Hd|Hd]; [discriminate|].
  intros Hp0. apply ofZ_inj in Hp0.
  pose proof (ceilDiv_ceilingOf (rhs i * 10000) (denom i) Hd) as Hc.
  rewrite Hp0 in Hc. unfold ceilingOf in Hc.
  destruct (Z.leb_spec p 0) as [Hp|Hp]; split; try lia.
  - intros _. eexists. reflexivity.
  - intros _. exists (resultAt p i), (margin p i).
    assert (Hlow : p * flr i - 10000 <= 10000 * profit p i)
      by (apply profit_lower; lia).
    assert (Hup : 10000 * profit p i < p * flr i + denom i + 10000)
      by (apply profit_upper; lia).
    pose proof (roundDiv_nearest (profit p i * 10000) p Hp) as Hm.
    unfold nearest in Hm. fold (margin p i) in Hm.
    assert (B1 : 2 * p * (flr i - margin p i) < 20000 + p) by nia.
    assert (B2 : 2 * p * (margin p i - flr i) < 2 * (denom i + 10000) + p)
      by nia.
    repeat split; try reflexivity; try assumption.
    intros Hbig Hsum. unfold denom in *. nia.
Qed.

Lemma breakEven_margin_witness :
  exists (r : EconResult.t) (m : Z),
    evaluateEcon (toInputs 34935 largeCosts) = Returns r /\
    EconResult.marginBps r = ofZ m /\
    Z.abs (m - 3000) <= 1.
Proof.
  assert (H : minPriceForFloorCents (toBase largeCosts) = ofZ 34935)
    by (vm_compute; reflexivity).
  destruct (proj2 (breakEven_margin largeCosts 34935
                     ltac:(repeat split; vm_compute; discriminate)
                     ltac:(vm_compute; discriminate) H))
    as (r & m & Hr & Hm & _ & _ & _ & Hnear).
  - lia.
  - exists r, m. repeat split; try assumption.
    apply Hnear; [lia | vm_compute; discriminate].
Defined.

(** C2 as stated fails: with costs of one cent on Etsy the break-even
    price is 2 cents, where the margin is 5000 bps against a floor of
    3000 bps; and with no costs at all the break-even price is 0, which
    [evaluateEcon] rejects. *)
Lemma breakEven_margin_far_from_floor :
  minPriceForFloorCents (toBase oneCent) = ofZ 2 /\
  (exists r : EconResult.t,
     evaluateEcon (toInputs 2 oneCent) = Returns r /\
     EconResult.marginBps r = ofZ 5000 /\
     EconResult.floorBps r = ofZ 3000 /\
     ~ Z.abs (5000 - 3000) <= 1) /\
  minPriceForFloorCents (toBase noCosts) = ofZ 0 /\
  evaluateEcon (toInputs 0 noCosts) = Throws "priceCents must be > 0".
Proof.
  split; [vm_compute; reflexivity|].
  split; [|split; vm_compute; reflexivity].
  eexists. split; [vm_compute; reflexivity|].
  cbn. repeat split. lia.
Qed.

End BreakEven.

(** ** Charm rounding *)

Section CharmRounding.

Import Econ IntInputs IntEval.

Lemma endings_int (c : Charm) : endings c = ofZ (endingZ c).
Proof. now destruct c. Qed.

Lemma ensure_int (m : option Z) (n : Z) :
  ensure (option_map ofZ m) (ofZ n) = ofZ (ensureZ m n).
Proof.
  destruct m as [m|]; [|reflexivity].
  cbn [ensure ensureZ option_map].
  rewrite truthy_ofZ, lt_ofZ.
  now destruct (negb (m =? 0) && (n <? m)).
Qed.

Lemma roundToCharm_int (p : Z) (c : Charm) (m : option Z) :
  roundToCharm (ofZ p) c (option_map ofZ m) = ofZ (roundToCharmZ p c m).
Proof.
  unfold roundToCharm, roundToCharmZ, charmUp.
  destruct c; try apply ensure_int;
    rewrite floor_div_ofZ by lia;
    rewrite endings_int, !add_ofZ, !mul_ofZ, !add_ofZ, ge_ofZ;
    match goal with |- context [if ?b then _ else _] => destruct b end;
    apply ensure_int.
Qed.

Lemma charmUp_ge (p : Z) (c : Charm) : p <= charmUp p c.
Proof.
  unfold charmUp.
  destruct c; cbn [endingZ]; try lia;
    match goal with |- context [if ?a <=? ?b then _ else _] =>
      destruct (Z.leb_spec a b) end;
    Z.div_mod_to_equations; lia.
Qed.

Lemma charmUp_ending (p : Z) (c : Charm) :
  c <> none -> charmUp p c mod 100 = endingZ c.
Proof.
  intros Hc. unfold charmUp.
  destruct c; cbn [endingZ]; try congruence;
    match goal with |- context [if ?a <=? ?b then _ else _] =>
      destruct (Z.leb_spec a b) end;
    Z.div_mod_to_equations; lia.
Qed.

Lemma charmUp_mono (p q : Z) (c : Charm) :
  p <= q -> charmUp p c <= charmUp q c.
Proof.
  intros Hpq. unfold charmUp.
  destruct c; cbn [endingZ]; try lia;
    repeat match goal with |- context [if ?a <=? ?b then _ else _] =>
      destruct (Z.leb_spec a b) end;
    Z.div_mod_to_equations; lia.
Qed.

Lemma ensureZ_ge (m : option Z) (n : Z) : n <= ensureZ m n.
Proof.
  destruct m as [m|]; simpl; [|lia].
  destruct (m =? 0); simpl; [lia|].
  destruct (Z.ltb_spec n m); lia.
Qed.

Lemma ensureZ_above (m n : Z) : m <= n -> ensureZ (Some m) n = n.
Proof.
  intros H. simpl. destruct (Z.ltb_spec n m); [lia|].
  now rewrite andb_false_r.
Qed.

Lemma ensureZ_mono (m : option Z) (a b : Z) :
  a <= b -> ensureZ m a <= ensureZ m b.
Proof.
  intros Hab. destruct m as [m|]; simpl; [|assumption].
  destruct (m =? 0); simpl; [assumption|].
  destruct (Z.ltb_spec a m), (Z.ltb_spec b m); lia.
Qed.

(** Where [roundToCharm] meets its description: the result is never below
    the price; for a non-negative price it is never below [minCents]; and
    it carries the charm ending whenever [minCents] is absent or does not
    exceed the charmed price. *)
Lemma roundToCharm_bounds (p : Z) (c : Charm) (m : option Z) :
  p <= roundToCharmZ p c m /\
  (0 <= p -> forall mn, m = Some mn -> mn <= roundToCharmZ p c m) /\
  (c <> none ->
   (m = None \/ exists mn, m = Some mn /\ mn <= charmUp p c) ->
   roundToCharmZ p c m mod 100 = endingZ c).
Proof.
  unfold roundToCharmZ. pose proof (charmUp_ge p c) as Hge.
  repeat split.
  - pose proof (ensureZ_ge m (charmUp p c)). lia.
  - intros Hp mn ->. simpl.
    destruct (Z.eqb_spec mn 0); simpl; [lia|].
    destruct (Z.ltb_spec (charmUp p c) mn); lia.
  - intros Hc [->|[mn [-> Hmn]]].
    + now apply charmUp_ending.
    + rewrite ensureZ_above by assumption. now apply charmUp_ending.
Qed.

(** C4, at the input where the code departs from it.  With a price of
    100, the ending .99 and a minimum of 250, [roundToCharm] returns the
    minimum itself, 250, which does not end in 99; on the same amounts
    [Money.withCharm] of lib/pricing.ts returns 399, which does. *)
Theorem roundToCharm_minimum_drops_ending :
  roundToCharm (ofZ 100) charm99 (Some (ofZ 250)) = ofZ 250 /\
  250 mod 100 <> endingZ charm99 /\
  Pricing.Money.withCharm
    {| Pricing.Money.cents := 100; Pricing.Money.currency := Pricing.USD |}
    Pricing.charm99
    (Some {| Pricing.Money.cents := 250;
             Pricing.Money.currency := Pricing.USD |}) =
  Returns
    {| Pricing.Money.cents := 399; Pricing.Money.currency := Pricing.USD |}.
Proof.
  repeat split; try (vm_compute; reflexivity). vm_compute. discriminate.
Qed.

End CharmRounding.

(** ** [Array.from(new Set(...))] *)

Section SetOfNumbers.

Lemma sameValueZero_refl (x : number) : sameValueZero x x = true.
Proof.
  destruct x as [q| | |]; try reflexivity.
  simpl. apply Qeq_bool_iff. reflexivity.
Qed.

Lemma sameValueZero_ofZ (a b : Z) : sameValueZero (ofZ a) (ofZ b) = (a =? b).
Proof.
  unfold sameValueZero, strictEq, ofZ, Qeq_bool. simpl.
  now rewrite !Z.mul_1_r.
Qed.

Lemma existsb_sameValueZero_In (x : number) (acc : list number) :
  In x acc -> existsb (sameValueZero x) acc = true.
Proof.
  intros H. apply existsb_exists. exists x. split; [assumption|].
  apply sameValueZero_refl.
Qed.

Lemma Set_add_NoDup (acc : list number) (x : number) :
  NoDup acc -> NoDup (Set_add acc x).
Proof.
  intros Hacc. unfold Set_add.
  destruct (existsb (sameValueZero x) acc) eqn:E; [assumption|].
  apply NoDup_rev in Hacc. rewrite <- (rev_involutive (acc ++ [x])).
  apply NoDup_rev. rewrite rev_app_distr. simpl.
  constructor; [|assumption].
  intros Hin. apply in_rev in Hin.
  apply existsb_sameValueZero_In in Hin. congruence.
Qed.

Lemma fold_Set_add_NoDup (l acc : list number) :
  NoDup acc -> NoDup (fold_left Set_add l acc).
Proof.
  revert acc. induction l as [|x l IH]; intros acc Hacc; simpl.
  - assumption.
  - apply IH. now apply Set_add_NoDup.
Qed.

Lemma Array_from_Set_NoDup (l : list number) : NoDup (Array_from_Set l).
Proof. apply fold_Set_add_NoDup. constructor. Qed.

Lemma fold_Set_add_incl (l acc : list number) (x : number) :
  In x (fold_left Set_add l acc) -> In x acc \/ In x l.
Proof.
  revert acc. induction l as [|y l IH]; intros acc Hin; simpl in *.
  - now left.
  - apply IH in Hin. destruct Hin as [Hin|Hin]; [|now right; right].
    unfold Set_add in Hin.
    destruct (existsb (sameValueZero y) acc); [now left|].
    apply in_app_or in Hin. destruct Hin as [Hin|[->|[]]].
    + now left.
    + right. now left.
Qed.

Lemma Array_from_Set_incl (l : list number) (x : number) :
  In x (Array_from_Set l) -> In x l.
Proof.
  intros Hin. apply fold_Set_add_incl in Hin. now destruct Hin.
Qed.

Lemma existsb_ofZ (z : Z) (acc : list Z) :
  existsb (sameValueZero (ofZ z)) (map ofZ acc) = existsb (Z.eqb z) acc.
Proof.
  induction acc as [|a acc IH]; cbn [existsb map]; [reflexivity|].
  now rewrite sameValueZero_ofZ, IH.
Qed.

Lemma StronglySorted_snoc (acc : list Z) (z : Z) :
  StronglySorted Z.lt acc ->
  (forall a, In a acc -> a < z) ->
  StronglySorted Z.lt (acc ++ [z]).
Proof.
  induction acc as [|a acc IH]; intros Hs Hlt; simpl.
  - repeat constructor.
  - apply StronglySorted_inv in Hs. destruct Hs as [Hs Ha].
    constructor.
    + apply IH; [assumption|]. intros b Hb. apply Hlt. now right.
    + apply Forall_app. split; [assumption|].
      constructor; [|constructor]. apply Hlt. now left.
Qed.

(** Deduplicating a non-decreasing list of integers leaves a strictly
    ascending list with the same elements. *)
Lemma fold_Set_add_sorted (zs acc : list Z) :
  StronglySorted Z.lt acc ->
  StronglySorted Z.le zs ->
  (forall a z, In a acc -> In z zs -> a <= z) ->
  exists zs' : list Z,
    fold_left Set_add (map ofZ zs) (map ofZ acc) = map ofZ zs' /\
    StronglySorted Z.lt zs' /\
    (forall z, In z zs' -> In z acc \/ In z zs).
Proof.
  revert acc. induction zs as [|z zs IH]; intros acc Hacc Hzs Hle; simpl.
  - exists acc. repeat split; auto.
  - apply StronglySorted_inv in Hzs. destruct Hzs as [Hzs Hz].
    rewrite Forall_forall in Hz.
    unfold Set_add at 2. rewrite existsb_ofZ.
    destruct (existsb (Z.eqb z) acc) eqn:E.
    + destruct (IH acc Hacc Hzs) as (zs' & Hfold & Hs & Hin).
      { intros a z' Ha Hz'. apply Hle; [assumption | now right]. }
      exists zs'. repeat split; try assumption.
      intros z' Hz'. destruct (Hin z' Hz'); [now left | right; now right].
    + assert (Hnot : forall a, In a acc -> a < z).
      { intros a Ha.
        assert (a <= z) by (apply Hle; [assumption | now left]).
        assert (a <> z).
        { intros ->.
          assert (existsb (Z.eqb z) acc = true); [|congruence].
          apply existsb_exists. exists z. split; [assumption|].
          apply Z.eqb_refl. }
        lia. }
      change [ofZ z] with (map ofZ [z]). rewrite <- map_app.
      destruct (IH (acc ++ [z])) as (zs' & Hfold & Hs & Hin).
      * now apply StronglySorted_snoc.
      * assumption.
      * intros a z' Ha Hz'. apply in_app_or in Ha.
        destruct Ha as [Ha|[<-|[]]].
        -- apply Hle; [assumption | now right].
        -- now apply Hz.
      * exists zs'. repeat split; try assumption.
        intros z' Hz'. destruct (Hin z' Hz') as [Hin'|Hin'].
        -- apply in_app_or in Hin'. destruct Hin' as [Hin'|[<-|[]]].
           ++ now left.
           ++ right. now left.
        -- right. now right.
Qed.

Lemma Array_from_Set_sorted (zs : list Z) :
  StronglySorted Z.le zs ->
  exists zs' : list Z,
    Array_from_Set (map ofZ zs) = map ofZ zs' /\
    StronglySorted Z.lt zs' /\
    (forall z, In z zs' -> In z zs).
Proof.
  intros Hzs.
  destruct (fold_Set_add_sorted zs [] (SSorted_nil _) Hzs)
    as (zs' & Hfold & Hs & Hin).
  - intros a z [].
  - exists zs'. repeat split; try assumption.
    intros z Hz. now destruct (Hin z Hz).
Qed.

Lemma StronglySorted_lt_NoDup (zs : list Z) :
  StronglySorted Z.lt zs -> NoDup zs.
Proof.
  induction 1 as [|z zs Hs IH Hz]; constructor; [|assumption].
  intros Hin. rewrite Forall_forall in Hz. specialize (Hz z Hin). lia.
Qed.

End SetOfNumbers.

(** ** The price ladder *)

Section Ladder.

Import Econ IntInputs IntEval Samples.

(** The product of a break-even price and a multiplier in range. *)
Lemma product_in_range (p0 : Z) (q : Q) :
  Range.basePrice p0 -> (Qabs q <= 100)%Q ->
  (inject_Z (- 9999999900) <= inject_Z p0 * q)%Q /\
  (inject_Z p0 * q <= inject_Z 9999999900)%Q.
Proof.
  unfold Range.basePrice. intros Hp Hq.
  apply Qabs_Qle_condition in Hq. destruct Hq as [Hq1 Hq2].
  assert (H1 : (inject_Z (- 99999999) <= inject_Z p0)%Q)
    by (rewrite <- Zle_Qle; lia).
  assert (H2 : (inject_Z p0 <= inject_Z 99999999)%Q)
    by (rewrite <- Zle_Qle; lia).
  change (inject_Z (- 9999999900)) with (- (9999999900 # 1))%Q.
  change (inject_Z 9999999900) with (9999999900 # 1)%Q.
  change (inject_Z (- 99999999)) with (- (99999999 # 1))%Q in H1.
  change (inject_Z 99999999) with (99999999 # 1)%Q in H2.
  split; nra.
Qed.

Lemma times_in_range (p0 : Z) (q : Q) :
  Range.basePrice p0 -> (Qabs q <= 100)%Q ->
  exists r : Q,
    times (ofZ p0) (Fin q) = Fin r /\
    (inject_Z (- 9999999900) <= r)%Q /\ (r <= inject_Z 9999999900)%Q.
Proof.
  intros Hp Hq. destruct (product_in_range p0 q Hp Hq) as [H1 H2].
  cbn [times ofZ]. apply double_between; try assumption; cbn; lia.
Qed.

Lemma ceil_times (p0 : Z) (q : Q) :
  Range.basePrice p0 -> (Qabs q <= 100)%Q ->
  Math_ceil (times (ofZ p0) (Fin q)) = ofZ (rawZ p0 q) /\
  - 9999999900 <= rawZ p0 q <= 9999999900.
Proof.
  intros Hp Hq. destruct (times_in_range p0 q Hp Hq) as (r & Hr & H1 & H2).
  unfold rawZ. cbn [times ofZ] in Hr. rewrite Hr.
  cbn [times ofZ]. rewrite Hr. cbn [Math_ceil]. split; [reflexivity|].
  split.
  - rewrite <- (Qceiling_Z (- 9999999900)). now apply Qceiling_resp_le.
  - rewrite <- (Qceiling_Z 9999999900). now apply Qceiling_resp_le.
Qed.

Lemma rawZ_mono (p0 : Z) (q1 q2 : Q) :
  Range.basePrice p0 -> 0 <= p0 ->
  (Qabs q1 <= 100)%Q -> (Qabs q2 <= 100)%Q ->
  (q1 <= q2)%Q -> rawZ p0 q1 <= rawZ p0 q2.
Proof.
  intros Hr Hp H1 H2 Hq.
  destruct (times_in_range p0 q1 Hr H1) as (r1 & E1 & _).
  destruct (times_in_range p0 q2 Hr H2) as (r2 & E2 & _).
  cbn [times ofZ] in E1, E2. unfold rawZ. rewrite E1, E2.
  apply Qceiling_resp_le.
  apply (double_mono (inject_Z p0 * q1) (inject_Z p0 * q2));
    try assumption.
  rewrite !(Qmult_comm (inject_Z p0)).
  apply Qmult_le_compat_r; [assumption|].
  change 0%Q with (inject_Z 0). now rewrite <- Zle_Qle.
Qed.

Lemma ensureZ_lower (m n : Z) : m <> 0 -> m <= ensureZ (Some m) n.
Proof.
  intros Hm. cbn [ensureZ].
  destruct (Z.eqb_spec m 0); [contradiction|]. cbn [negb andb].
  destruct (Z.ltb_spec n m); lia.
Qed.

Lemma ensureZ_upper (m : option Z) (n b : Z) :
  n <= b -> (forall mn, m = Some mn -> mn <= b) -> ensureZ m n <= b.
Proof.
  intros Hn Hm. destruct m as [mn|]; cbn [ensureZ]; [|assumption].
  specialize (Hm mn eq_refl).
  destruct (negb (mn =? 0) && (n <? mn)); assumption.
Qed.

(** The integer price behind every finite break-even price. *)
Lemma minPrice_finite (i : IntInputs.t) (p0 : Z) :
  Range.inputs i ->
  minPriceForFloorCents (toBase i) = ofZ p0 ->
  0 < denom i /\ rhs i * 10000 <= p0 * denom i.
Proof.
  intros Hi. rewrite minPriceForFloorCents_int by assumption.
  destruct (Z.leb_spec (denom i) 0) as [Hd|Hd]; [discriminate|].
  intros H. apply ofZ_inj in H.
  pose proof (ceilDiv_ceilingOf (rhs i * 10000) (denom i) Hd) as Hc.
  rewrite H in Hc. unfold ceilingOf in Hc. lia.
Qed.

Lemma minPrice_integer (i : IntInputs.t) :
  Range.inputs i ->
  minPriceForFloorCents (toBase i) <> Infinity ->
  exists p0 : Z, minPriceForFloorCents (toBase i) = ofZ p0.
Proof.
  intros Hi. rewrite minPriceForFloorCents_int by assumption.
  destruct (denom i <=? 0); [congruence|]. intros _. eexists. reflexivity.
Qed.

Lemma charmUp_le (p : Z) (c : Charm) : charmUp p c <= p + 99.
Proof.
  unfold charmUp.
  destruct c; cbn [endingZ]; try lia;
    match goal with |- context [if ?a <=? ?b then _ else _] =>
      destruct (Z.leb_spec a b) end;
    Z.div_mod_to_equations; lia.
Qed.

(** The rung of a break-even price and a multiplier in range is a price
    in range. *)
Lemma rungZ_bounds (c : Charm) (p0 : Z) (q : Q) :
  Range.basePrice p0 -> (Qabs q <= 100)%Q ->
  - 9999999900 <= rungZ p0 c q <= Range.amountMax /\
  (p0 <> 0 -> p0 <= rungZ p0 c q).
Proof.
  intros Hr Hq. destruct (ceil_times p0 q Hr Hq) as [_ Hraw].
  pose proof (charmUp_ge (rawZ p0 q) c) as H1.
  pose proof (charmUp_le (rawZ p0 q) c) as H2.
  pose proof (ensureZ_ge (Some p0) (charmUp (rawZ p0 q) c)) as H3.
  unfold rungZ, roundToCharmZ, Range.amountMax, Range.basePrice in *.
  split; [split; [lia|] | apply ensureZ_lower].
  apply ensureZ_upper; [lia|]. intros mn E.
  assert (mn = p0) by congruence. lia.
Qed.

(** A rung above a break-even price of at least 200 dollars passes and
    is kept as it is. *)
Lemma rung_large (i : IntInputs.t) (c : Charm) (p0 : Z) (q : Q) (n : nat) :
  Range.inputs i ->
  minPriceForFloorCents (toBase i) = ofZ p0 ->
  20000 <= p0 <= 99999999 -> (Qabs q <= 100)%Q ->
  rung (toBase i) c (ofZ p0) (Fin q) n = Returns (ofZ (rungZ p0 c q)) /\
  evaluateEcon (toInputs (rungZ p0 c q) i) =
    Returns (resultAt (rungZ p0 c q) i) /\
  EconResult.pass (resultAt (rungZ p0 c q) i) = true.
Proof.
  intros Hi Hmin Hbig Hq.
  assert (Hr : Range.basePrice p0) by (unfold Range.basePrice; lia).
  destruct (minPrice_finite i p0 Hi Hmin) as [Hd Hrhs].
  destruct (ceil_times p0 q Hr Hq) as [Hraw _].
  destruct (rungZ_bounds c p0 q Hr Hq) as [[_ Hup] Hlow].
  specialize (Hlow ltac:(lia)).
  assert (Hpass : (flr i <=? margin (rungZ p0 c q) i) = true)
    by (apply pass_of_large_price with p0; lia).
  assert (Heval : evaluateEcon (toInputs (rungZ p0 c q) i) =
                  Returns (resultAt (rungZ p0 c q) i)).
  { rewrite evaluateEcon_int by assumption.
    destruct (Z.leb_spec (rungZ p0 c q) 0); [lia | reflexivity]. }
  repeat split; try assumption.
  unfold rung. rewrite Hraw.
  change (Some (ofZ p0)) with (option_map ofZ (Some p0)).
  rewrite roundToCharm_int. fold (rungZ p0 c q).
  fold (toInputs (rungZ p0 c q) i).
  rewrite Heval. cbn [bind]. cbn [resultAt EconResult.pass].
  now rewrite Hpass.
Qed.

Lemma mapRungs_large (i : IntInputs.t) (c : Charm) (p0 : Z) (qs : list Q) :
  Range.inputs i ->
  minPriceForFloorCents (toBase i) = ofZ p0 ->
  20000 <= p0 <= 99999999 -> Forall (fun q => Qabs q <= 100)%Q qs ->
  forall n : nat,
    mapRungs (toBase i) c (ofZ p0) n (map Fin qs) =
    Returns (map ofZ (map (rungZ p0 c) qs)).
Proof.
  intros Hi Hmin Hbig Hqs. induction Hqs as [|q qs Hq Hqs IH]; intros n.
  - reflexivity.
  - cbn [map mapRungs].
    destruct (rung_large i c p0 q n Hi Hmin Hbig Hq) as [-> _].
    cbn [bind]. now rewrite IH.
Qed.

Lemma rungZ_sorted (c : Charm) (p0 : Z) (qs : list Q) :
  0 <= p0 <= 99999999 ->
  Forall (fun q => Qabs q <= 100)%Q qs ->
  StronglySorted Qle qs ->
  StronglySorted Z.le (map (rungZ p0 c) qs).
Proof.
  intros Hp Hqs. induction 1 as [|q qs Hs IH Hq]; simpl; constructor.
  - apply IH. now apply Forall_inv_tail in Hqs.
  - rewrite Forall_forall in *. intros z Hz.
    apply in_map_iff in Hz. destruct Hz as [q' [<- Hq']].
    unfold rungZ, roundToCharmZ.
    apply ensureZ_mono, charmUp_mono, rawZ_mono; auto.
    + unfold Range.basePrice. lia.
    + lia.
    + apply Hqs. now left.
    + apply Hqs. now right.
Qed.

(** Every rung is an integer when the break-even price and the
    multiplier are in range. *)
Lemma rung_integer (i : IntInputs.t) (c : Charm) (p0 : Z) (q : Q) (n : nat)
    (x : number) :
  Range.basePrice p0 -> (Qabs q <= 100)%Q ->
  rung (toBase i) c (ofZ p0) (Fin q) n = Returns x -> isInteger x.
Proof.
  intros Hr Hq. destruct (ceil_times p0 q Hr Hq) as [Hraw _].
  unfold rung. rewrite Hraw.
  rewrite plus_ofZ by (unfold Range.basePrice in Hr; lia).
  change (Some (ofZ p0)) with (option_map ofZ (Some p0)).
  rewrite !roundToCharm_int.
  destruct (evaluateEcon _) as [r|e]; cbn [bind]; [|discriminate].
  destruct (negb (EconResult.pass r) && Nat.eqb n 0);
    intros [= <-]; eexists; reflexivity.
Qed.

Lemma mapRungs_integer (i : IntInputs.t) (c : Charm) (p0 : Z) (qs : list Q) :
  Range.basePrice p0 -> Forall (fun q => Qabs q <= 100)%Q qs ->
  forall (n : nat) (l : list number),
    mapRungs (toBase i) c (ofZ p0) n (map Fin qs) = Returns l ->
    Forall isInteger l.
Proof.
  intros Hr Hqs.
  induction Hqs as [|q qs Hq Hqs IH]; intros n l; cbn [map mapRungs].
  - intros [= <-]. constructor.
  - destruct (rung _ _ _ _ _) as [x|e] eqn:Hx; cbn [bind]; [|discriminate].
    destruct (mapRungs _ _ _ _ _) as [xs|e] eqn:Hxs; cbn [bind];
      [|discriminate].
    intros [= <-]. constructor.
    + now apply rung_integer in Hx.
    + now apply IH in Hxs.
Qed.

Lemma multipliers_bounded (qs : list Q) :
  Forall Range.multiplier qs -> Forall (fun q => Qabs q <= 100)%Q qs.
Proof. apply Forall_impl. now intros q [_ H]. Qed.

(** The default ladder for the example costs. *)
Example ladder_example :
  buildPriceLadderCents (toBase exampleInt) defaultSteps defaultCharm =
  Returns [ofZ 1499; ofZ 1699; ofZ 1899].
Proof. vm_compute. reflexivity. Qed.

(** C3, amended.  Whenever [buildPriceLadderCents] returns, the ladder
    holds no value twice.  At integer inputs in range whose break-even
    price lies between 200 dollars and a million dollars, and for
    multipliers of magnitude at most 100 in non-decreasing order, it
    returns a strictly ascending ladder of integer prices, each of which
    passes the floor in [evaluateEcon]. *)
Theorem buildPriceLadderCents_ladder (c : Charm) :
  (forall (b : BaseInputs.t) (steps L : list number),
     buildPriceLadderCents b steps c = Returns L -> NoDup L) /\
  (forall (i : IntInputs.t) (p0 : Z) (qs : list Q),
     Range.inputs i ->
     minPriceForFloorCents (toBase i) = ofZ p0 ->
     20000 <= p0 <= 99999999 ->
     Forall Range.multiplier qs ->
     StronglySorted Qle qs ->
     exists zs : list Z,
       buildPriceLadderCents (toBase i) (map Fin qs) c =
         Returns (map ofZ zs) /\
       StronglySorted Z.lt zs /\
       NoDup zs /\
       forall z, In z zs ->
         exists r : EconResult.t,
           evaluateEcon (toInputs z i) = Returns r /\
           EconResult.pass r = true).
Proof.
  split.
  - intros b steps L. unfold buildPriceLadderCents.
    destruct (mapRungs _ _ _ _ _) as [l|e]; cbn [bind]; [|discriminate].
    intros [= <-]. apply Array_from_Set_NoDup.
  - intros i p0 qs Hi Hmin Hbig Hqs Hsorted.
    apply multipliers_bounded in Hqs.
    destruct (Array_from_Set_sorted (map (rungZ p0 c) qs))
      as (zs & Hset & Hs & Hin).
    { apply rungZ_sorted; [lia | assumption | assumption]. }
    exists zs. unfold buildPriceLadderCents.
    rewrite Hmin, (mapRungs_large i c p0 qs Hi Hmin Hbig Hqs). cbn [bind].
    rewrite Hset. repeat split; try assumption.
    + now apply StronglySorted_lt_NoDup.
    + intros z Hz. apply Hin, in_map_iff in Hz.
      destruct Hz as [q [<- Hq]].
      rewrite Forall_forall in Hqs.
      destruct (rung_large i c p0 q 0 Hi Hmin Hbig (Hqs q Hq))
        as (_ & Heval & Hpass).
      eexists. split; eassumption.
Qed.

Lemma buildPriceLadderCents_ladder_witness :
  exists zs : list Z,
    buildPriceLadderCents (toBase largeCosts) (map Fin doubleSteps) charm99 =
      Returns (map ofZ zs) /\
    StronglySorted Z.lt zs.
Proof.
  destruct (proj2 (buildPriceLadderCents_ladder charm99) largeCosts 34935
              doubleSteps)
    as (zs & Hzs & Hs & _).
  - repeat split; vm_compute; discriminate.
  - vm_compute. reflexivity.
  - lia.
  - repeat constructor; vm_compute; (reflexivity || discriminate).
  - repeat constructor; vm_compute; discriminate.
  - exists zs. split; assumption.
Defined.

(** C3 as stated fails.  For a digital good costing 17 cents on Etsy the
    break-even price is 99 cents, and the steps [1, 1] give the ladder
    [199, 99], which descends and whose rung 99 fails the floor.  The
    rungs also follow the order of the steps, whatever it is: for the
    example costs the steps [2, 1] give the ladder [2899, 1499]. *)
Lemma buildPriceLadderCents_descends_and_fails :
  minPriceForFloorCents (toBase digital17) = ofZ 99 /\
  buildPriceLadderCents (toBase digital17) [ofZ 1; ofZ 1] charm99 =
    Returns [ofZ 199; ofZ 99] /\
  ~ 199 < 99 /\
  (exists r : EconResult.t,
     evaluateEcon (toInputs 99 digital17) = Returns r /\
     EconResult.pass r = false) /\
  buildPriceLadderCents (toBase exampleInt) [ofZ 2; ofZ 1] charm99 =
    Returns [ofZ 2899; ofZ 1499] /\
  ~ 2899 < 1499.
Proof.
  split; [vm_compute; reflexivity|].
  split; [vm_compute; reflexivity|].
  split; [lia|].
  split; [eexists; split; vm_compute; reflexivity|].
  split; [vm_compute; reflexivity | lia].
Qed.

End Ladder.

(** ** Integer outputs *)

Section IntegerOutputs.

Import Econ IntInputs IntEval Samples.

Lemma floor_ofZ (a : Z) : Math_floor (ofZ a) = ofZ a.
Proof. unfold Math_floor, ofZ. now rewrite Qfloor_Z. Qed.

Lemma maxCogsForFloorCents_int (p : Z) (i : IntInputs.t) :
  Range.inputs i -> Z.abs p <= Range.amountMax ->
  maxCogsForFloorCents (toInputs p i) =
  ofZ (roundDiv (p * denom i) 10000 - (shipping i + pack i + fixed i)).
Proof.
  intros Hi Hp.
  destruct (evaluator_bounds p i Hi Hp) as (_ & _ & _ & _ & _ & _ & Bd & _).
  pose proof Hi as (Hc & Hs & Hk & Hf & Hpc & Hb & Hl).
  unfold Range.amount, Range.amountMax, Range.rate, Range.rateMax in *.
  assert (Bp : Z.abs (p * denom i) <= 700000000000000) by nia.
  assert (Br : Z.abs (roundDiv (p * denom i) 10000) <= 70000000001)
    by (apply (roundDiv_abs _ 10000 70000000000); lia).
  unfold maxCogsForFloorCents, toInputs, toBase.
  unfold EconInputs.shippingCents, EconInputs.packagingCents,
    EconInputs.platform, EconInputs.kind, EconInputs.overridePctBps,
    EconInputs.overrideFixedCents, EconInputs.bufferBps,
    EconInputs.floorBps.
  cbn [EconInputs.priceCents EconInputs.rest BaseInputs.cogsCents
       BaseInputs.shippingCents BaseInputs.packagingCents
       BaseInputs.platform BaseInputs.kind BaseInputs.overridePctBps
       BaseInputs.overrideFixedCents BaseInputs.bufferBps
       BaseInputs.floorBps].
  rewrite preset_pct_int, preset_fixed_int, default_floor_int,
    default_buffer_int.
  rewrite !nullish_ofZ.
  change (nullish (overridePct i) (presetPct (platform i))) with (pct i).
  change (nullish (buffer i) 300) with (buf i).
  change (nullish (floor i) (defaultFloor (kind i))) with (flr i).
  change (nullish (overrideFixed i) (presetFixed (platform i)))
    with (fixed i).
  change (nullish (packaging i) 0) with (pack i).
  unfold denom in *.
  rewrite !minus_ofZ by lia. rewrite mulBps_ofZ by lia.
  rewrite over_one_ofZ by lia. rewrite !plus_ofZ by lia.
  rewrite minus_ofZ by lia. apply floor_ofZ.
Qed.

(** C8, amended.  At integer inputs in range every amount the evaluator
    module returns is an integer: the fees, buffer, profit and margin of
    [evaluateEcon] (which returns whenever the price is positive), the
    result of [roundToCharm], the result of [maxCogsForFloorCents], the
    result of [minPriceForFloorCents] unless it is [Infinity], and, when
    the break-even price is an integer of at most a million dollars and
    the multipliers have a magnitude of at most 100, every element of the
    ladder [buildPriceLadderCents] returns. *)
Theorem outputs_are_integers (i : IntInputs.t) (p : Z) :
  Range.inputs i -> Z.abs p <= Range.amountMax ->
  (0 < p -> exists r, evaluateEcon (toInputs p i) = Returns r) /\
  (forall r : EconResult.t,
     evaluateEcon (toInputs p i) = Returns r ->
     isInteger (EconResult.feesCents r) /\
     isInteger (EconResult.bufferCents r) /\
     isInteger (EconResult.profitCents r) /\
     isInteger (EconResult.marginBps r)) /\
  (forall (c : Charm) (m : option Z),
     (forall mn, m = Some mn -> Range.cents mn) ->
     isInteger (roundToCharm (ofZ p) c (option_map ofZ m))) /\
  isInteger (maxCogsForFloorCents (toInputs p i)) /\
  (minPriceForFloorCents (toBase i) <> Infinity ->
   isInteger (minPriceForFloorCents (toBase i))) /\
  (forall (p0 : Z) (qs : list Q) (c : Charm) (L : list number),
     minPriceForFloorCents (toBase i) = ofZ p0 ->
     Range.basePrice p0 ->
     Forall Range.multiplier qs ->
     buildPriceLadderCents (toBase i) (map Fin qs) c = Returns L ->
     Forall isInteger L).
Proof.
  intros Hi Hp.
  assert (Hmax : p <= Range.amountMax) by lia.
  split; [|split; [|split; [|split; [|split]]]].
  - intros Hpos. rewrite evaluateEcon_int by assumption.
    destruct (Z.leb_spec p 0); [lia|]. eexists. reflexivity.
  - intros r Hr. rewrite evaluateEcon_int in Hr by assumption.
    destruct (p <=? 0); [discriminate|]. injection Hr as <-.
    repeat split; eexists; reflexivity.
  - intros c m _. rewrite roundToCharm_int. eexists. reflexivity.
  - rewrite maxCogsForFloorCents_int by assumption. eexists. reflexivity.
  - intros Hfin. destruct (minPrice_integer i Hi Hfin) as [p0 ->].
    eexists. reflexivity.
  - intros p0 qs c L Hp0 Hr Hqs. apply multipliers_bounded in Hqs.
    unfold buildPriceLadderCents. rewrite Hp0.
    destruct (mapRungs _ _ _ _ _) as [l|e] eqn:Hl; cbn [bind];
      [|discriminate].
    intros [= <-]. apply (mapRungs_integer i c p0 qs Hr Hqs) in Hl.
    rewrite Forall_forall in *. intros x Hx.
    apply Hl. now apply Array_from_Set_incl.
Qed.

Lemma outputs_are_integers_witness :
  exists r, evaluateEcon (toInputs 1490 exampleInt) = Returns r.
Proof.
  apply (proj1 (outputs_are_integers exampleInt 1490
                  ltac:(repeat split; vm_compute; discriminate)
                  ltac:(vm_compute; discriminate))).
  lia.
Defined.

(** C8 as stated fails for the ladder.  With a floor of 95% on Etsy the
    break-even price is [Infinity], and the ladder built from the default
    steps is the single value [Infinity], which is no integer.  And with
    a finite break-even price a multiplier of 2^1023 makes the product
    overflow: the second rung is [Infinity] again. *)
Lemma ladder_of_infinite_price :
  buildPriceLadderCents (toBase floor95) defaultSteps defaultCharm =
    Returns [Infinity] /\
  ~ isInteger Infinity /\
  buildPriceLadderCents (toBase largeCosts) [ofZ 1; ofZ (2 ^ 1023)]
    charm99 = Returns [ofZ 34999; Infinity].
Proof.
  split; [vm_compute; reflexivity|].
  split; [|vm_compute; reflexivity].
  intros [z Hz]. discriminate Hz.
Qed.

End IntegerOutputs.

(** ** Money arithmetic *)

Section MoneyArithmetic.

Import Pricing Samples.

Lemma CurrencyCode_eqb_eq (a b : CurrencyCode) :
  CurrencyCode_eqb a b = true <-> a = b.
Proof. destruct a, b; simpl; split; congruence. Qed.

Lemma assertSameCurrency_spec (a b : Money.t) :
  (Money.currency a = Money.currency b ->
   Money.assertSameCurrency a b = Returns tt) /\
  (Money.currency a <> Money.currency b ->
   Money.assertSameCurrency a b = Throws "Currency mismatch").
Proof.
  unfold Money.assertSameCurrency.
  destruct (CurrencyCode_eqb (Money.currency a) (Money.currency b)) eqn:E.
  - apply CurrencyCode_eqb_eq in E. split; [reflexivity | congruence].
  - split; [|reflexivity]. intros H. apply CurrencyCode_eqb_eq in H.
    congruence.
Qed.

Lemma round_fin_integer (q : Q) :
  BigInt (Math_round (Fin q)) = Returns (Qfloor (q + (1 # 2))).
Proof. cbn [Math_round]. apply BigInt_ofZ. Qed.

Lemma mul_returns_currency (a : Money.t) (n : number) (m : Money.t) :
  Money.mul a n = Returns m -> Money.currency m = Money.currency a.
Proof.
  unfold Money.mul. destruct (BigInt _); cbn [bind]; [|discriminate].
  now intros [= <-].
Qed.

Lemma mulBps_returns_currency (a : Money.t) (n : number) (m : Money.t) :
  Money.mulBps a n = Returns m -> Money.currency m = Money.currency a.
Proof.
  unfold Money.mulBps. destruct (BigInt _); cbn [bind]; [|discriminate].
  now intros [= <-].
Qed.

Lemma BigInt_not_finite (x : number) :
  isFinite x = false ->
  BigInt (Math_round x) = Throws "RangeError: not an integer".
Proof. destruct x; [discriminate | reflexivity ..]. Qed.

Lemma times_not_finite (c : Z) (n : number) :
  isFinite n = false -> isFinite (times (ofZ c) n) = false.
Proof.
  destruct n as [q| | |]; [discriminate | | | reflexivity];
    intros _; cbn [times ofZ]; unfold bySign; cbn [Qnum inject_Z];
    now destruct (c ?= 0).
Qed.

(** [mul] on an amount and a factor in range. *)
Lemma mul_in_range (a : Money.t) (q : Q) :
  Range.amount (Money.cents a) -> (Qabs q <= 100000)%Q ->
  exists c : Z,
    Money.mul a (Fin q) =
      Returns {| Money.cents := c; Money.currency := Money.currency a |} /\
    Z.abs c <= 1000000000000000.
Proof.
  unfold Range.amount, Range.amountMax. intros Ha Hq.
  destruct (double_product (inject_Z (Money.cents a)) q 10000000000 100000)
    as (r & Er & Hr); try assumption.
  - change (Qabs (inject_Z (Money.cents a)))
      with (inject_Z (Z.abs (Money.cents a))).
    now rewrite <- Zle_Qle.
  - reflexivity.
  - unfold Money.mul, Number. cbn [times ofZ]. rewrite Er.
    rewrite round_fin_integer. cbn [bind]. eexists. split; [reflexivity|].
    now apply round_bounded in Hr.
Qed.

(** [mulBps] on an amount and a rate in range. *)
Lemma mulBps_in_range (a : Money.t) (q : Q) :
  Range.amount (Money.cents a) -> (Qabs q <= 100000)%Q ->
  exists c : Z,
    Money.mulBps a (Fin q) =
      Returns {| Money.cents := c; Money.currency := Money.currency a |} /\
    Z.abs c <= 1000000000000000.
Proof.
  unfold Range.amount, Range.amountMax. intros Ha Hq.
  destruct (double_quotient q 100000 10000) as (f & Ef & Hf);
    try assumption; try reflexivity.
  destruct (double_product (inject_Z (Money.cents a)) f 10000000000 100000)
    as (r & Er & Hr); try assumption.
  - change (Qabs (inject_Z (Money.cents a)))
      with (inject_Z (Z.abs (Money.cents a))).
    now rewrite <- Zle_Qle.
  - reflexivity.
  - unfold Money.mulBps, Number.
    replace (over (Fin q) (ofZ 10000)) with (Fin f)
      by (symmetry; exact Ef).
    cbn [times ofZ]. rewrite Er.
    rewrite round_fin_integer. cbn [bind]. eexists. split; [reflexivity|].
    now apply round_bounded in Hr.
Qed.

(** C7, amended.  [add] and [sub] throw exactly when the two currencies
    differ; when they agree the result has the receiver's currency and
    the sum, respectively the difference, of the cents.  [mul] and
    [mulBps] return a [Money] with the receiver's currency for an amount
    of at most 10^10 cents and a factor (a rate) of magnitude at most
    10^5, and whenever they return at all; they raise a [RangeError] when
    the factor is [NaN] or an infinity. *)
Theorem Money_arithmetic (a b : Money.t) :
  ((exists e, Money.add a b = Throws e) <->
   Money.currency a <> Money.currency b) /\
  ((exists e, Money.sub a b = Throws e) <->
   Money.currency a <> Money.currency b) /\
  (Money.currency a = Money.currency b ->
   Money.add a b =
     Returns {| Money.cents := Money.cents a + Money.cents b;
                Money.currency := Money.currency a |} /\
   Money.sub a b =
     Returns {| Money.cents := Money.cents a - Money.cents b;
                Money.currency := Money.currency a |}) /\
  (Range.amount (Money.cents a) ->
   forall q : Q, isDouble q -> (Qabs q <= 100000)%Q ->
     (exists m, Money.mul a (Fin q) = Returns m /\
                Money.currency m = Money.currency a) /\
     (exists m, Money.mulBps a (Fin q) = Returns m /\
                Money.currency m = Money.currency a)) /\
  (forall n : number, isFinite n = false ->
     (exists e, Money.mul a n = Throws e) /\
     (exists e, Money.mulBps a n = Throws e)) /\
  (forall n m, Money.mul a n = Returns m ->
               Money.currency m = Money.currency a) /\
  (forall n m, Money.mulBps a n = Returns m ->
               Money.currency m = Money.currency a).
Proof.
  destruct (assertSameCurrency_spec a b) as [Hsame Hdiff].
  assert (Hdec : Money.currency a = Money.currency b \/
                 Money.currency a <> Money.currency b).
  { destruct (CurrencyCode_eqb (Money.currency a) (Money.currency b)) eqn:E.
    - left. now apply CurrencyCode_eqb_eq.
    - right. intros H. apply CurrencyCode_eqb_eq in H. congruence. }
  split; [|split; [|split; [|split; [|split; [|split]]]]].
  - unfold Money.add. destruct Hdec as [He|Hn].
    + rewrite (Hsame He). cbn [bind]. split; [|congruence].
      intros [e H]. discriminate H.
    + rewrite (Hdiff Hn). cbn [bind]. split; [easy|].
      intros _. eexists. reflexivity.
  - unfold Money.sub. destruct Hdec as [He|Hn].
    + rewrite (Hsame He). cbn [bind]. split; [|congruence].
      intros [e H]. discriminate H.
    + rewrite (Hdiff Hn). cbn [bind]. split; [easy|].
      intros _. eexists. reflexivity.
  - intros He. unfold Money.add, Money.sub. rewrite (Hsame He).
    split; reflexivity.
  - intros Ha q _ Hq. split.
    + destruct (mul_in_range a q Ha Hq) as (c & -> & _).
      eexists. split; reflexivity.
    + destruct (mulBps_in_range a q Ha Hq) as (c & -> & _).
      eexists. split; reflexivity.
  - intros n Hn. split.
    + unfold Money.mul, Number.
      rewrite BigInt_not_finite by now apply times_not_finite.
      eexists. reflexivity.
    + unfold Money.mulBps, Number.
      rewrite BigInt_not_finite.
      * eexists. reflexivity.
      * apply times_not_finite. now destruct n.
  - apply mul_returns_currency.
  - apply mulBps_returns_currency.
Qed.

Lemma Money_arithmetic_witness :
  Money.add oneDollar twoFifty =
    Returns {| Money.cents := 350; Money.currency := USD |} /\
  (exists e, Money.add oneDollar oneEuro = Throws e) /\
  (exists m, Money.mul twoFifty (Fin (3 # 2)) = Returns m /\
             Money.currency m = USD).
Proof.
  split; [|split].
  - apply (proj1 (proj1 (proj2 (proj2 (Money_arithmetic oneDollar twoFifty)))
                    eq_refl)).
  - apply (proj1 (Money_arithmetic oneDollar oneEuro)). discriminate.
  - apply (proj1 (proj2 (proj2 (proj2 (Money_arithmetic twoFifty twoFifty))))).
    + vm_compute. discriminate.
    + reflexivity.
    + vm_compute. discriminate.
Defined.

(** C7 as stated fails for [mul]: the factor [NaN] makes the conversion
    to a bigint raise a [RangeError], so no [Money] is returned; and so
    does the finite factor 2^1023, whose product with 100 cents
    overflows. *)
Lemma Money_mul_NaN_throws :
  Money.mul oneDollar NaN = Throws "RangeError: not an integer" /\
  Money.mul oneDollar (ofZ (2 ^ 1023)) = Throws "RangeError: not an integer".
Proof. split; vm_compute; reflexivity. Qed.

End MoneyArithmetic.

(** ** Parsing money *)

Section MoneyParse.

Import Pricing StringShape.

Lemma fromCents_ofZ (z : Z) (cur : CurrencyCode) :
  Money.fromCents (ofZ z) cur =
  Returns {| Money.cents := z; Money.currency := cur |}.
Proof.
  unfold Money.fromCents. cbn [isFinite ofZ negb Math_trunc inject_Z Qnum Qden].
  rewrite Z.quot_1_r. fold (ofZ z). now rewrite BigInt_ofZ.
Qed.

Lemma digitValue_nonneg (c : ascii) : isDigit c = true -> 0 <= digitValue c.
Proof.
  unfold isDigit, digitValue. intros H. apply andb_prop in H.
  destruct H as [H _]. apply Nat.leb_le in H. lia.
Qed.

Lemma digitsPrefix_nonneg (s : string) :
  forall (acc : option Z) (v : Z),
    (forall a, acc = Some a -> 0 <= a) ->
    digitsPrefix acc s = Some v -> 0 <= v.
Proof.
  induction s as [|c s IH]; intros acc v Hacc; cbn [digitsPrefix].
  - intros ->. now apply Hacc.
  - destruct (isDigit c) eqn:Hc.
    + apply IH. intros a Ha.
      assert (Ea : a = 10 * nullish acc 0 + digitValue c) by congruence.
      pose proof (digitValue_nonneg c Hc).
      destruct acc as [b|]; cbn [nullish] in Ea;
        [specialize (Hacc b eq_refl)|]; lia.
    + intros ->. now apply Hacc.
Qed.

Lemma digitsPrefix_some (s : string) (a : Z) :
  exists v, digitsPrefix (Some a) s = Some v.
Proof.
  revert a. induction s as [|c s IH]; intros a; cbn [digitsPrefix].
  - now exists a.
  - destruct (isDigit c); [apply IH | now exists a].
Qed.

(** On a string of digits and dots [parseInt] reads the leading digits:
    there is neither white space nor a sign to skip. *)
Lemma parseInt10_numeric (s : string) :
  onlyNumeric s = true ->
  parseInt10 s =
  match digitsPrefix None s with
  | Some v => ofZ v
  | None => NaN
  end.
Proof.
  destruct s as [|c s]; [reflexivity|].
  cbn [onlyNumeric]. intros H. apply andb_prop in H. destruct H as [Hc _].
  unfold parseInt10.
  assert (Hw : isWhiteSpace c = false /\ Ascii.eqb c "-" = false /\
               Ascii.eqb c "+" = false).
  { destruct c as [[] [] [] [] [] [] [] []];
      try discriminate Hc; repeat split. }
  destruct Hw as (Hw & Hm & Hp).
  cbn [trimStart]. rewrite Hw, Hm, Hp. cbn [fst snd].
  destruct (digitsPrefix None (String c s)); [|reflexivity].
  now rewrite Z.mul_1_l.
Qed.

Lemma onlyDigits_numeric (s : string) :
  onlyDigits s = true -> onlyNumeric s = true.
Proof.
  induction s as [|c s IH]; simpl; [reflexivity|].
  intros H. apply andb_prop in H. destruct H as [Hc Hs].
  now rewrite Hc, IH.
Qed.

(** [parseInt] of a non-empty string of digits is a non-negative
    integer. *)
Lemma parseInt10_digits (c : ascii) (s : string) :
  onlyDigits (String c s) = true ->
  exists v, parseInt10 (String c s) = ofZ v /\ 0 <= v.
Proof.
  intros H. rewrite parseInt10_numeric by now apply onlyDigits_numeric.
  cbn [onlyDigits] in H. apply andb_prop in H. destruct H as [Hc _].
  cbn [digitsPrefix]. rewrite Hc.
  destruct (digitsPrefix_some s (10 * nullish None 0 + digitValue c))
    as [v Hv].
  rewrite Hv. exists v. split; [reflexivity|].
  apply (digitsPrefix_nonneg s _ v) in Hv; [assumption|].
  intros a Ha.
  assert (Ea : a = 10 * nullish None 0 + digitValue c) by congruence.
  pose proof (digitValue_nonneg c Hc). cbn [nullish] in Ea. lia.
Qed.

Lemma stripNonNumeric_numeric (str : string) :
  onlyNumeric (stripNonNumeric str) = true.
Proof.
  induction str as [|c str IH]; simpl; [reflexivity|].
  destruct (isDigit c || isDot c) eqn:Hc; [|assumption].
  simpl. now rewrite Hc, IH.
Qed.

Lemma split_dot_digits (s : string) :
  onlyNumeric s = true ->
  Forall (fun part => onlyDigits part = true) (split_dot s).
Proof.
  induction s as [|c s IH]; simpl.
  - repeat constructor.
  - intros H. apply andb_prop in H. destruct H as [Hc Hs].
    specialize (IH Hs). destruct (isDot c) eqn:Hdot.
    + now constructor.
    + rewrite orb_false_r in Hc.
      destruct (split_dot s) as [|part parts].
      * repeat constructor. simpl. now rewrite Hc.
      * apply Forall_cons_iff in IH. destruct IH as [Hpart Hparts].
        constructor; [|assumption]. simpl. now rewrite Hc, Hpart.
Qed.

Lemma nth_split_dot_digits (s : string) (k : nat) :
  onlyNumeric s = true ->
  onlyDigits (nth k (split_dot s) EmptyString) = true.
Proof.
  intros H. apply split_dot_digits in H. rewrite Forall_forall in H.
  destruct (nth_in_or_default k (split_dot s) EmptyString) as [Hin| ->].
  - now apply H.
  - reflexivity.
Qed.

(** The integer part is empty exactly when the string starts with a dot
    (or is empty). *)
Lemma split_dot_head (c : ascii) (s : string) :
  nth 0 (split_dot (String c s)) EmptyString =
  if isDot c then EmptyString
  else String c (nth 0 (split_dot s) EmptyString).
Proof.
  simpl. destruct (isDot c); [reflexivity|].
  now destruct (split_dot s).
Qed.

(** The two digits read for the cents. *)
Lemma frac_digits (f : string) :
  onlyDigits f = true ->
  exists c s,
    substring 0 2 (f ++ "00") = String c s /\
    onlyDigits (String c s) = true.
Proof.
  destruct f as [|c1 [|c2 f]]; simpl; intros H.
  - now exists "0"%char, "0"%string.
  - exists c1, "0"%string. split; [reflexivity|].
    simpl. now rewrite andb_true_r in *.
  - exists c1, (String c2 EmptyString).
    split; [now destruct (f ++ "00")%string|].
    apply andb_prop in H. destruct H as [H1 H2].
    apply andb_prop in H2. destruct H2 as [H2 _].
    simpl. now rewrite H1, H2.
Qed.

(** C10, amended.  Let [s] be the input with everything but digits and
    dots removed.  If [s] starts with a dot, [Money.parse] throws
    "Invalid cents".  Otherwise, when [s] has at most 13 characters (so
    that the amount stays below 10^15 cents), it returns a [Money] in the
    requested currency with [cents >= 0].  If [s] is empty the amount is
    zero.  A leading minus sign is stripped, so a negative-signed string
    parses as its absolute value does. *)
Theorem Money_parse_spec (str : string) (cur : CurrencyCode) :
  (startsWithDot (stripNonNumeric str) = true ->
   Money.parse str cur = Throws "Invalid cents") /\
  (startsWithDot (stripNonNumeric str) = false ->
   (String.length (stripNonNumeric str) <= 13)%nat ->
   exists m, Money.parse str cur = Returns m /\
             0 <= Money.cents m /\ Money.currency m = cur) /\
  (stripNonNumeric str = EmptyString ->
   Money.parse str cur =
     Returns {| Money.cents := 0; Money.currency := cur |}) /\
  Money.parse (String "-" str) cur = Money.parse str cur.
Proof.
  pose proof (stripNonNumeric_numeric str) as Hnum.
  unfold Money.parse at 1 2 3.
  split; [|split; [|split]]; try reflexivity.
  - (* the stripped string starts with a dot *)
    destruct (stripNonNumeric str) as [|c s] eqn:Es; [discriminate|].
    cbn [startsWithDot isEmpty]. intros Hdot.
    assert (Hc : isDigit c = false).
    { destruct c as [[] [] [] [] [] [] [] []];
        try discriminate Hdot; reflexivity. }
    destruct (Nat.eqb (DECIMALS cur) 0).
    + rewrite parseInt10_numeric by assumption.
      cbn [digitsPrefix]. now rewrite Hc.
    + rewrite split_dot_head, Hdot. reflexivity.
  - (* the stripped string is empty or starts with a digit *)
    destruct (stripNonNumeric str) as [|c s] eqn:Es.
    { intros _ _. cbn [isEmpty]. rewrite fromCents_ofZ.
      eexists. repeat split. simpl. lia. }
    cbn [startsWithDot isEmpty]. intros Hdot _.
    assert (Hc : isDigit c = true).
    { cbn [onlyNumeric] in Hnum. rewrite Hdot, orb_false_r in Hnum.
      now apply andb_prop in Hnum. }
    assert (Hint : forall t, onlyDigits t = true ->
              exists v, parseInt10 (String c t) = ofZ v /\ 0 <= v).
    { intros t Ht. apply parseInt10_digits. simpl. now rewrite Hc, Ht. }
    destruct cur; cbn [DECIMALS Nat.eqb];
      try (rewrite split_dot_head, Hdot;
           assert (Hs : onlyNumeric s = true)
             by (cbn [onlyNumeric] in Hnum; now apply andb_prop in Hnum);
           destruct (Hint _ (nth_split_dot_digits s 0 Hs)) as (x & -> & Hx);
           destruct (frac_digits _
                       (nth_split_dot_digits (String c s) 1 Hnum))
             as (c' & s' & -> & Hfrac);
           cbn [isEmpty];
           destruct (parseInt10_digits c' s' Hfrac) as (y & -> & Hy);
           unfold pow10; rewrite mul_ofZ, add_ofZ, fromCents_ofZ;
           eexists; repeat split; simpl; lia).
    (* JPY: no decimals *)
    rewrite parseInt10_numeric by assumption.
    cbn [digitsPrefix]. rewrite Hc.
    destruct (digitsPrefix_some s (10 * nullish None 0 + digitValue c))
      as [v Hv].
    rewrite Hv, fromCents_ofZ. eexists. repeat split. simpl.
    apply (digitsPrefix_nonneg s _ v) in Hv; [assumption|].
    intros a Ha.
    assert (Ea : a = 10 * nullish None 0 + digitValue c) by congruence.
    pose proof (digitValue_nonneg c Hc). cbn [nullish] in Ea. lia.
  - intros ->. cbn [isEmpty]. apply fromCents_ofZ.
Qed.

Lemma Money_parse_spec_witness :
  exists m, Money.parse "-12.99" USD = Returns m /\ 0 <= Money.cents m.
Proof.
  destruct (proj1 (proj2 (Money_parse_spec "-12.99" USD)))
    as (m & Hm & Hc & _).
  - reflexivity.
  - vm_compute. lia.
  - exists m. split; assumption.
Defined.

(** C10 as stated fails: the string ".5" keeps its dot, the integer part
    is empty, and [Money.parse] throws instead of returning an amount. *)
Lemma Money_parse_leading_dot_throws :
  Money.parse ".5" USD = Throws "Invalid cents".
Proof. reflexivity. Qed.

End MoneyParse.

(** * Further properties of lib/econ.ts *)

(** ** Charm rounding without a minimum *)

Section CharmLeast.

Import Econ IntInputs IntEval.

Lemma charmUp_lt (p : Z) (c : Charm) : c <> none -> charmUp p c < p + 100.
Proof.
  intros Hc. unfold charmUp.
  destruct c; cbn [endingZ]; try congruence;
    match goal with |- context [if ?a <=? ?b then _ else _] =>
      destruct (Z.leb_spec a b) end;
    Z.div_mod_to_equations; lia.
Qed.

Lemma charmUp_least (p r : Z) (c : Charm) :
  c <> none -> p <= r -> r mod 100 = endingZ c -> charmUp p c <= r.
Proof.
  intros Hc Hpr Hr. unfold charmUp.
  destruct c; cbn [endingZ] in *; try congruence;
    match goal with |- context [if ?a <=? ?b then _ else _] =>
      destruct (Z.leb_spec a b) end;
    Z.div_mod_to_equations; lia.
Qed.

Lemma roundToCharm_no_minimum (p : Z) (c : Charm) :
  roundToCharm (ofZ p) c None = ofZ (charmUp p c).
Proof.
  change (@None number) with (option_map ofZ None).
  now rewrite roundToCharm_int.
Qed.

(** X1.  Without a minimum, [roundToCharm] at a non-negative integer
    price of at most 10^15 cents returns the least integer that is not
    below the price and ends in the charm: it is less than a dollar above
    the price, and rounding it again leaves it unchanged. *)
Theorem roundToCharm_least (p : Z) (c : Charm) :
  c <> none ->
  0 <= p <= Range.centsMax ->
  exists r : Z,
    roundToCharm (ofZ p) c None = ofZ r /\
    p <= r < p + 100 /\
    r mod 100 = endingZ c /\
    (forall r', p <= r' -> r' mod 100 = endingZ c -> r <= r') /\
    roundToCharm (ofZ r) c None = ofZ r.
Proof.
  intros Hc _. exists (charmUp p c).
  pose proof (charmUp_ge p c) as Hge.
  pose proof (charmUp_lt p c Hc) as Hlt.
  pose proof (charmUp_ending p c Hc) as Hend.
  split; [apply roundToCharm_no_minimum|].
  split; [lia|]. split; [assumption|].
  split; [intros r' Hr' He; now apply charmUp_least|].
  rewrite roundToCharm_no_minimum. f_equal.
  apply Z.le_antisymm; [|apply charmUp_ge].
  apply charmUp_least; [assumption | lia | assumption].
Qed.

Lemma roundToCharm_least_witness :
  exists r : Z,
    roundToCharm (ofZ 1433) charm99 None = ofZ r /\ 1433 <= r < 1533.
Proof.
  destruct (roundToCharm_least 1433 charm99) as (r & Hr & Hb & _).
  - discriminate.
  - split; vm_compute; discriminate.
  - exists r. split; [exact Hr | lia].
Defined.

(** X2.  [roundToCharm] is monotone in the price: for a fixed charm and
    minimum, a higher integer price never rounds to a lower result. *)
Theorem roundToCharm_monotone (p q : Z) (c : Charm) (m : option Z) :
  p <= q ->
  exists r1 r2 : Z,
    roundToCharm (ofZ p) c (option_map ofZ m) = ofZ r1 /\
    roundToCharm (ofZ q) c (option_map ofZ m) = ofZ r2 /\
    r1 <= r2.
Proof.
  intros Hpq. exists (roundToCharmZ p c m), (roundToCharmZ q c m).
  rewrite !roundToCharm_int. repeat split.
  unfold roundToCharmZ. now apply ensureZ_mono, charmUp_mono.
Qed.

Lemma roundToCharm_monotone_witness :
  exists r1 r2 : Z,
    roundToCharm (ofZ 1433) charm95 (Some (ofZ 1500)) = ofZ r1 /\
    roundToCharm (ofZ 1648) charm95 (Some (ofZ 1500)) = ofZ r2 /\
    r1 <= r2.
Proof.
  apply (roundToCharm_monotone 1433 1648 charm95 (Some 1500)). lia.
Defined.

(** X3.  With the charm 'none' and a non-zero integer minimum,
    [roundToCharm] returns the larger of price and minimum.  A minimum
    of 0 counts as absent for every charm, so a negative price is then
    not raised to 0. *)
Theorem roundToCharm_none_and_zero (p : Z) :
  (forall m : Z, m <> 0 ->
     roundToCharm (ofZ p) none (Some (ofZ m)) = ofZ (Z.max p m)) /\
  (forall c : Charm,
     roundToCharm (ofZ p) c (Some (ofZ 0)) = roundToCharm (ofZ p) c None).
Proof.
  split.
  - intros m Hm. change (Some (ofZ m)) with (option_map ofZ (Some m)).
    rewrite roundToCharm_int. f_equal.
    unfold roundToCharmZ, charmUp, ensureZ.
    destruct (Z.eqb_spec m 0); [contradiction|]. simpl.
    destruct (Z.ltb_spec p m); lia.
  - intros c. change (Some (ofZ 0)) with (option_map ofZ (Some 0)).
    change (@None number) with (option_map ofZ None).
    now rewrite !roundToCharm_int.
Qed.

Lemma roundToCharm_none_and_zero_witness :
  roundToCharm (ofZ 100) none (Some (ofZ 250)) = ofZ 250.
Proof.
  apply (proj1 (roundToCharm_none_and_zero 100) 250). discriminate.
Defined.

End CharmLeast.

(** ** Passing the floor *)

Section PassingTheFloor.

Import Econ IntInputs IntEval Samples.

Lemma roundDiv_mono (a a' b : Z) :
  0 < b -> a <= a' -> roundDiv a b <= roundDiv a' b.
Proof.
  intros Hb Ha. unfold roundDiv. apply Z.div_le_mono; lia.
Qed.

Lemma ceilDiv_mono (a a' b : Z) :
  0 < b -> a <= a' -> ceilDiv a b <= ceilDiv a' b.
Proof.
  intros Hb Ha. unfold ceilDiv.
  assert (- a' / b <= - a / b) by (apply Z.div_le_mono; lia). lia.
Qed.

Lemma evaluateEcon_positive (p : Z) (i : IntInputs.t) :
  Range.price p -> Range.inputs i ->
  evaluateEcon (toInputs p i) = Returns (resultAt p i).
Proof.
  intros [Hp Hmax] Hi. rewrite evaluateEcon_int by assumption.
  destruct (Z.leb_spec p 0); [lia | reflexivity].
Qed.

(** X4.  Passing depends on the costs only through their sum and is
    monotone in it: if a price passes the floor for one set of integer
    inputs in range, it passes for every other such set with the same
    rates, fixed fee and floor whose costs, shipping and packaging add up
    to no more. *)
Theorem pass_monotone_in_costs (p : Z) (i i' : IntInputs.t) :
  Range.price p -> Range.inputs i -> Range.inputs i' ->
  pct i' = pct i -> fixed i' = fixed i -> buf i' = buf i ->
  flr i' = flr i ->
  cogs i' + shipping i' + pack i' <= cogs i + shipping i + pack i ->
  forall r : EconResult.t,
    evaluateEcon (toInputs p i) = Returns r ->
    EconResult.pass r = true ->
    exists r' : EconResult.t,
      evaluateEcon (toInputs p i') = Returns r' /\
      EconResult.pass r' = true.
Proof.
  intros Hpr Hi Hi' Hpct Hfix Hbuf Hflr Hsum r Hr Hpass.
  pose proof Hpr as [Hp _].
  rewrite evaluateEcon_positive in Hr by assumption.
  injection Hr as <-. cbn [resultAt EconResult.pass] in Hpass.
  exists (resultAt p i'). split; [now apply evaluateEcon_positive|].
  cbn [resultAt EconResult.pass]. apply Z.leb_le in Hpass.
  apply Z.leb_le. rewrite Hflr.
  apply Z.le_trans with (margin p i); [assumption|].
  unfold margin. apply roundDiv_mono; [assumption|].
  unfold profit, fees, bufferC. rewrite Hpct, Hfix, Hbuf. lia.
Qed.

Lemma pass_monotone_in_costs_witness :
  exists r' : EconResult.t,
    evaluateEcon (toInputs 34935 exampleInt) = Returns r' /\
    EconResult.pass r' = true.
Proof.
  apply (pass_monotone_in_costs 34935 largeCosts exampleInt)
    with (r := resultAt 34935 largeCosts);
    try reflexivity;
    try (repeat split; vm_compute; (reflexivity || discriminate)).
Defined.

(** X5.  At integer inputs in range, every integer price between 200
    dollars and 10^10 cents that is not below the finite break-even price
    is accepted by [evaluateEcon] and passes the floor. *)
Theorem price_above_breakEven_passes (i : IntInputs.t) (p0 p : Z) :
  Range.inputs i ->
  minPriceForFloorCents (toBase i) = ofZ p0 ->
  p0 <= p -> 20000 <= p <= Range.amountMax ->
  exists r : EconResult.t,
    evaluateEcon (toInputs p i) = Returns r /\
    EconResult.pass r = true.
Proof.
  intros Hi Hmin Hle [Hbig Hmax].
  destruct (minPrice_finite i p0 Hi Hmin) as [Hd Hrhs].
  exists (resultAt p i). split.
  - apply evaluateEcon_positive; [split; lia | assumption].
  - cbn [resultAt EconResult.pass]. now apply pass_of_large_price with p0.
Qed.

Lemma price_above_breakEven_passes_witness :
  exists r : EconResult.t,
    evaluateEcon (toInputs 40000 largeCosts) = Returns r /\
    EconResult.pass r = true.
Proof.
  apply (price_above_breakEven_passes largeCosts 34935 40000).
  - repeat split; vm_compute; discriminate.
  - vm_compute. reflexivity.
  - lia.
  - split; vm_compute; discriminate.
Defined.

(** X6.  [maxCogsForFloorCents] is a safe bound up to rounding.  At an
    integer price [p > 0] and integer inputs in range, goods costing at
    most [maxCogs - 2] pass the floor; at most [maxCogs - 1] when
    [p >= 10000]; and at most [maxCogs] itself when [p >= 30000]. *)
Theorem maxCogs_passes (p : Z) (i : IntInputs.t) (M : Z) :
  Range.price p -> Range.inputs i ->
  maxCogsForFloorCents (toInputs p i) = ofZ M ->
  cogs i <= M - 2 \/ (10000 <= p /\ cogs i <= M - 1) \/
  (30000 <= p /\ cogs i <= M) ->
  exists r : EconResult.t,
    evaluateEcon (toInputs p i) = Returns r /\
    EconResult.pass r = true.
Proof.
  intros Hpr Hi HM Hc. pose proof Hpr as [Hp Hmax].
  rewrite maxCogsForFloorCents_int in HM by (assumption || lia).
  apply ofZ_inj in HM.
  exists (resultAt p i). split; [now apply evaluateEcon_positive|].
  cbn [resultAt EconResult.pass]. apply Z.leb_le.
  pose proof (roundDiv_nearest (p * denom i) 10000 eq_refl) as Hd.
  pose proof (roundDiv_nearest (p * pct i) 10000 eq_refl) as Hf.
  pose proof (roundDiv_nearest (p * buf i) 10000 eq_refl) as Hb.
  pose proof (roundDiv_nearest (profit p i * 10000) p Hp) as Hm.
  fold (margin p i) in Hm. unfold nearest in *.
  assert (Hprofit :
    profit p i =
    p - cogs i - shipping i - pack i - fixed i
      - roundDiv (p * pct i) 10000 - roundDiv (p * buf i) 10000).
  { unfold profit, fees, bufferC. lia. }
  unfold denom in *. nia.
Qed.

Lemma maxCogs_passes_witness :
  exists r : EconResult.t,
    evaluateEcon (toInputs 34935 largeCosts) = Returns r /\
    EconResult.pass r = true.
Proof.
  apply (maxCogs_passes 34935 largeCosts 20000).
  - split; vm_compute; (reflexivity || discriminate).
  - repeat split; vm_compute; discriminate.
  - vm_compute. reflexivity.
  - right. right. split; [lia | vm_compute; discriminate].
Defined.

(** X7.  With the preset rates (no override of the percentage fee, the
    buffer or the floor) and integer amounts in range, the break-even
    price is an integer, never [Infinity], for every platform and product
    kind; it is not negative when the costs and the fixed fee add up to a
    non-negative amount. *)
Theorem preset_breakEven_finite (i : IntInputs.t) :
  Range.inputs i ->
  overridePct i = None -> buffer i = None -> floor i = None ->
  exists p0 : Z,
    minPriceForFloorCents (toBase i) = ofZ p0 /\
    (0 <= rhs i -> 0 <= p0).
Proof.
  intros Hi Hpct Hbuf Hflr.
  assert (Hd : 0 < denom i).
  { unfold denom, pct, buf, flr. rewrite Hpct, Hbuf, Hflr.
    destruct (platform i), (kind i); reflexivity. }
  rewrite minPriceForFloorCents_int by assumption.
  destruct (Z.leb_spec (denom i) 0); [lia|].
  eexists. split; [reflexivity|]. intros Hrhs.
  pose proof (ceilDiv_ceilingOf (rhs i * 10000) (denom i) Hd) as Hc.
  unfold ceilingOf in Hc. nia.
Qed.

Lemma preset_breakEven_finite_witness :
  exists p0 : Z, minPriceForFloorCents (toBase digital17) = ofZ p0.
Proof.
  destruct (preset_breakEven_finite digital17) as (p0 & Hp0 & _);
    try reflexivity.
  - repeat split; vm_compute; discriminate.
  - exists p0. exact Hp0.
Defined.

(** X8.  The break-even price is monotone in the costs: with the same
    rates and floor, integer inputs in range whose costs and fixed fee
    add up to more have a finite break-even price that is at least as
    high. *)
Theorem breakEven_monotone (i i' : IntInputs.t) (p0 : Z) :
  Range.inputs i -> Range.inputs i' ->
  pct i' = pct i -> buf i' = buf i -> flr i' = flr i ->
  rhs i <= rhs i' ->
  minPriceForFloorCents (toBase i) = ofZ p0 ->
  exists p0' : Z,
    minPriceForFloorCents (toBase i') = ofZ p0' /\ p0 <= p0'.
Proof.
  intros Hi Hi' Hpct Hbuf Hflr Hrhs.
  rewrite !minPriceForFloorCents_int by assumption.
  assert (Hd : denom i' = denom i)
    by (unfold denom; now rewrite Hpct, Hbuf, Hflr).
  rewrite Hd. destruct (Z.leb_spec (denom i) 0); [discriminate|].
  intros H0. apply ofZ_inj in H0. subst p0.
  eexists. split; [reflexivity|]. apply ceilDiv_mono; lia.
Qed.

Lemma breakEven_monotone_witness :
  exists p0' : Z,
    minPriceForFloorCents (toBase largeCosts) = ofZ p0' /\ 1433 <= p0'.
Proof.
  apply (breakEven_monotone exampleInt largeCosts 1433);
    try reflexivity;
    try (repeat split; vm_compute; discriminate).
Defined.

End PassingTheFloor.

(** ** Edges of the price ladder *)

Section LadderEdges.

Import Econ IntInputs IntEval Samples.

Lemma evaluateEcon_at_Infinity (b : BaseInputs.t) :
  exists r : EconResult.t,
    evaluateEcon
      {| EconInputs.priceCents := Infinity; EconInputs.rest := b |} =
    Returns r.
Proof. unfold evaluateEcon. cbn [EconInputs.priceCents le ofZ]. eauto. Qed.

Lemma roundToCharm_Infinity (c : Charm) :
  roundToCharm Infinity c (Some Infinity) = Infinity /\
  roundToCharm (plus Infinity (ofZ 1)) c (Some Infinity) = Infinity.
Proof. destruct c; split; reflexivity. Qed.

Lemma rung_Infinity (b : BaseInputs.t) (c : Charm) (q : Q) (n : nat) :
  (0 < q)%Q -> rung b c Infinity (Fin q) n = Returns Infinity.
Proof.
  intros Hq. unfold rung.
  assert (Hraw : Math_ceil (times Infinity (Fin q)) = Infinity).
  { cbn [times]. unfold bySign.
    assert (Hn : 0 < Qnum q).
    { unfold Qlt in Hq. simpl in Hq. lia. }
    destruct (Qnum q); try lia. reflexivity. }
  rewrite Hraw. destruct (roundToCharm_Infinity c) as [-> ->].
  destruct (evaluateEcon_at_Infinity b) as [r ->]. cbn [bind].
  now destruct (negb (EconResult.pass r) && Nat.eqb n 0).
Qed.

Lemma mapRungs_Infinity (b : BaseInputs.t) (c : Charm) (qs : list Q) :
  Forall (fun q => 0 < q)%Q qs ->
  forall n : nat,
    mapRungs b c Infinity n (map Fin qs) =
    Returns (repeat Infinity (List.length qs)).
Proof.
  induction 1 as [|q qs Hq Hqs IH]; intros n; cbn [map mapRungs].
  - reflexivity.
  - rewrite rung_Infinity by assumption. cbn [bind]. now rewrite IH.
Qed.

Lemma fold_Set_add_repeat (x : number) (k : nat) :
  fold_left Set_add (repeat x k) [x] = [x].
Proof.
  induction k as [|k IH]; simpl; [reflexivity|].
  unfold Set_add at 2. cbn [existsb].
  now rewrite sameValueZero_refl.
Qed.

(** X9.  When the floor cannot be reached (the break-even price is
    [Infinity]), [buildPriceLadderCents] does not fail: for every
    non-empty list of positive finite multipliers and every charm it
    returns the one-element ladder [[Infinity]]. *)
Theorem ladder_of_unreachable_floor (b : BaseInputs.t) (c : Charm)
    (qs : list Q) :
  minPriceForFloorCents b = Infinity ->
  qs <> [] ->
  Forall (fun q => 0 < q)%Q qs ->
  buildPriceLadderCents b (map Fin qs) c = Returns [Infinity].
Proof.
  intros Hmin Hne Hqs. unfold buildPriceLadderCents.
  rewrite Hmin, (mapRungs_Infinity b c qs Hqs 0). cbn [bind].
  destruct qs as [|q qs]; [contradiction|].
  unfold Array_from_Set. cbn [List.length repeat fold_left].
  change (Set_add [] Infinity) with [Infinity].
  now rewrite fold_Set_add_repeat.
Qed.

Lemma ladder_of_unreachable_floor_witness :
  buildPriceLadderCents (toBase floor95) (map Fin [1; 2]%Q) charm95 =
  Returns [Infinity].
Proof.
  apply (ladder_of_unreachable_floor (toBase floor95) charm95 [1; 2]%Q).
  - reflexivity.
  - discriminate.
  - repeat constructor.
Defined.

Lemma Set_add_length (acc : list number) (x : number) :
  (List.length acc <= List.length (Set_add acc x) <=
   S (List.length acc))%nat.
Proof.
  unfold Set_add. destruct (existsb (sameValueZero x) acc).
  - lia.
  - rewrite List.length_app. simpl. lia.
Qed.

Lemma fold_Set_add_length (l acc : list number) :
  (List.length (fold_left Set_add l acc) <=
   List.length acc + List.length l)%nat.
Proof.
  revert acc. induction l as [|x l IH]; intros acc; simpl; [lia|].
  specialize (IH (Set_add acc x)).
  pose proof (Set_add_length acc x). lia.
Qed.

Lemma rung_throws (b : BaseInputs.t) (c : Charm) (p0 m : number) (n : nat)
    (e : string) :
  rung b c p0 m n = Throws e -> e = "priceCents must be > 0"%string.
Proof.
  unfold rung, evaluateEcon.
  destruct (le _ (ofZ 0)); cbn [bind].
  - now intros [= <-].
  - destruct (negb _ && Nat.eqb n 0); discriminate.
Qed.

Lemma mapRungs_shape (b : BaseInputs.t) (c : Charm) (p0 : number)
    (steps : list number) :
  forall n : nat,
    (forall l, mapRungs b c p0 n steps = Returns l ->
               List.length l = List.length steps) /\
    (forall e, mapRungs b c p0 n steps = Throws e ->
               e = "priceCents must be > 0"%string).
Proof.
  induction steps as [|m steps IH]; intros n; cbn [mapRungs].
  - split; [now intros l [= <-] | discriminate].
  - destruct (rung b c p0 m n) as [x|e0] eqn:Hx; cbn [bind].
    + destruct (IH (S n)) as [IHl IHe].
      destruct (mapRungs b c p0 (S n) steps) as [xs|e1]; cbn [bind].
      * split; [|discriminate]. intros l [= <-]. simpl.
        now rewrite (IHl xs eq_refl).
      * split; [discriminate|]. intros e [= <-]. now apply IHe.
    + split; [discriminate|]. intros e [= <-].
      now apply rung_throws in Hx.
Qed.

(** X10.  A ladder [buildPriceLadderCents] returns has at most as many
    rungs as there are steps (none for an empty step list), and the only
    error the function raises is the evaluator's "priceCents must be
    > 0", when a charmed rung is not positive. *)
Theorem ladder_shape (b : BaseInputs.t) (steps : list number) (c : Charm) :
  (forall L, buildPriceLadderCents b steps c = Returns L ->
             (List.length L <= List.length steps)%nat) /\
  (forall e, buildPriceLadderCents b steps c = Throws e ->
             e = "priceCents must be > 0"%string) /\
  buildPriceLadderCents b [] c = Returns [].
Proof.
  unfold buildPriceLadderCents.
  destruct (mapRungs_shape b c (minPriceForFloorCents b) steps 0)
    as [Hl He].
  split; [|split; [|reflexivity]].
  - destruct (mapRungs _ _ _ _ steps) as [l|e]; cbn [bind];
      [|discriminate].
    intros L [= <-]. rewrite <- (Hl l eq_refl).
    apply (fold_Set_add_length l []).
  - destruct (mapRungs _ _ _ _ steps) as [l|e0]; cbn [bind];
      [discriminate|].
    intros e [= <-]. now apply He.
Qed.

(** A ladder that fails: without costs the break-even price is 0 and,
    with the charm 'none', so is the first rung. *)
Example ladder_throws_example :
  buildPriceLadderCents (toBase noCosts) defaultSteps none =
  Throws "priceCents must be > 0".
Proof. vm_compute. reflexivity. Qed.

End LadderEdges.

(** ** Variants *)

Section Variants.

Import Econ Samples.

Lemma evaluateVariant_cases (common : CommonInputs.t) (v : VariantInput.t) :
  (le (VariantInput.priceCents v) (ofZ 0) = true /\
   evaluateVariant common v = Throws "priceCents must be > 0") \/
  (le (VariantInput.priceCents v) (ofZ 0) = false /\
   exists r, evaluateVariant common v = Returns r /\ variantEcho v r).
Proof.
  unfold evaluateVariant, evaluateEcon.
  cbn [EconInputs.priceCents].
  destruct (le (VariantInput.priceCents v) (ofZ 0)); cbn [bind].
  - left. now split.
  - right. split; [reflexivity|]. eexists. split; [reflexivity|].
    repeat split.
Qed.

(** X11.  [evaluateVariants] fails exactly when some variant has
    [priceCents <= 0], whatever the other variants hold.  Otherwise it
    returns one result per variant, in the order of the variants, and
    each result carries its variant's sku, price, cost and shipping and
    a packaging cost that is 0 when the variant has none. *)
Theorem evaluateVariants_spec (variants : list VariantInput.t)
    (common : CommonInputs.t) :
  ((exists e, evaluateVariants variants common = Throws e) <->
   Exists (fun v => le (VariantInput.priceCents v) (ofZ 0) = true)
     variants) /\
  (forall L, evaluateVariants variants common = Returns L ->
             Forall2 variantEcho variants L) /\
  (Forall (fun v => le (VariantInput.priceCents v) (ofZ 0) = false)
     variants ->
   exists L, evaluateVariants variants common = Returns L).
Proof.
  induction variants as [|v vs IH]; cbn [evaluateVariants].
  - split; [|split].
    + split; [intros [e He]; discriminate He | intros H; inversion H].
    + intros L [= <-]. constructor.
    + intros _. now exists [].
  - destruct IH as (IHt & IHr & IHa).
    destruct (evaluateVariant_cases common v)
      as [[Hle ->]|[Hle (r & -> & Hecho)]]; cbn [bind].
    + split; [|split].
      * split; [intros _; now left | intros _; eexists; reflexivity].
      * discriminate.
      * intros H. apply Forall_inv in H. congruence.
    + destruct (evaluateVariants vs common) as [rs|e0]; cbn [bind].
      * split; [|split].
        -- split; [intros [e He]; discriminate He|].
           intros H. apply Exists_cons in H.
           destruct H as [H|H]; [congruence|].
           apply IHt in H. destruct H as [e He]. discriminate He.
        -- intros L [= <-]. constructor; [assumption | now apply IHr].
        -- intros _. eexists. reflexivity.
      * split; [|split].
        -- split; [|intros _; eexists; reflexivity].
           intros _. right. apply IHt. eexists. reflexivity.
        -- discriminate.
        -- intros H. apply Forall_inv_tail in H.
           destruct (IHa H) as [L HL]. discriminate HL.
Qed.

Lemma evaluateVariants_spec_witness :
  (exists L, evaluateVariants [smallVariant] etsyPhysical = Returns L) /\
  (exists e,
     evaluateVariants [smallVariant; freeVariant] etsyPhysical = Throws e).
Proof.
  split.
  - apply (proj2 (proj2 (evaluateVariants_spec [smallVariant] etsyPhysical))).
    repeat constructor.
  - apply (proj1 (evaluateVariants_spec [smallVariant; freeVariant]
                    etsyPhysical)).
    right. left. reflexivity.
Defined.

(** X12.  The preset table of lib/fees.ts and the one of lib/econ.ts
    hold the same rate, fixed fee and label for every platform. *)
Theorem fee_tables_agree (platform : Platform) :
  FeesTs.PLATFORM_FEES platform = PLATFORM_FEES platform.
Proof. now destruct platform. Qed.

End Variants.

(** * Further properties of lib/pricing.ts *)

(** ** Constructing money *)

Section MoneyConstruction.

Import Pricing Samples.

Lemma quot_bounds (n : Z) (d : positive) :
  Z.abs (Z.quot n (Z.pos d)) * Z.pos d <= Z.abs n
    < (Z.abs (Z.quot n (Z.pos d)) + 1) * Z.pos d /\
  (0 <= n -> 0 <= Z.quot n (Z.pos d)) /\
  (n <= 0 -> Z.quot n (Z.pos d) <= 0).
Proof.
  assert (Hd : 0 < Z.pos d) by lia.
  destruct (Z.le_ge_cases 0 n) as [Hn|Hn].
  - rewrite Z.quot_div_nonneg by lia.
    pose proof (Z.div_mod n (Z.pos d)) as E.
    pose proof (Z.mod_pos_bound n (Z.pos d) Hd) as B.
    assert (0 <= n / Z.pos d) by (apply Z.div_pos; lia).
    rewrite !Z.abs_eq by lia. nia.
  - replace n with (- - n) by lia.
    rewrite Z.quot_opp_l by lia.
    rewrite Z.quot_div_nonneg by lia.
    pose proof (Z.div_mod (- n) (Z.pos d)) as E.
    pose proof (Z.mod_pos_bound (- n) (Z.pos d) Hd) as B.
    assert (0 <= - n / Z.pos d) by (apply Z.div_pos; lia).
    rewrite !Z.abs_opp. rewrite !Z.abs_eq by lia. nia.
Qed.

(** X13.  [Money.fromCents] rejects exactly the numbers that are not
    finite, with "Invalid cents".  A finite amount is truncated towards
    zero, never rounded: the cents keep the sign of the amount and differ
    from it by less than one. *)
Theorem fromCents_truncates (x : number) (cur : CurrencyCode) :
  (isFinite x = false -> Money.fromCents x cur = Throws "Invalid cents") /\
  (forall q : Q, x = Fin q ->
     exists c : Z,
       Money.fromCents x cur =
         Returns {| Money.cents := c; Money.currency := cur |} /\
       (inject_Z (Z.abs c) <= Qabs q)%Q /\
       (Qabs q < inject_Z (Z.abs c + 1))%Q /\
       ((0 <= q)%Q -> 0 <= c) /\ ((q <= 0)%Q -> c <= 0)).
Proof.
  split.
  - unfold Money.fromCents. now intros ->.
  - intros [n d] ->. exists (Z.quot n (Z.pos d)).
    unfold Money.fromCents. cbn [isFinite negb Math_trunc Qnum Qden].
    rewrite BigInt_ofZ. cbn [bind].
    destruct (quot_bounds n d) as (Hb & Hpos & Hneg).
    split; [reflexivity|].
    unfold Qabs, Qle, Qlt. cbn [Qnum Qden inject_Z].
    repeat split; lia.
Qed.

Lemma fromCents_truncates_witness :
  Money.fromCents NaN USD = Throws "Invalid cents".
Proof. apply (proj1 (fromCents_truncates NaN USD)). reflexivity. Defined.




(** X15.  Addition and subtraction undo each other and addition
    commutes: for two amounts in the same currency, [a.add(b)] returns a
    sum [s] with [s.sub(b)] equal to [a], and [b.add(a)] returns the
    same [s]. *)
Theorem add_sub_cancel (a b : Money.t) :
  Money.currency a = Money.currency b ->
  exists s : Money.t,
    Money.add a b = Returns s /\
    Money.sub s b = Returns a /\
    Money.add b a = Returns s.
Proof.
  destruct a as [ca cur], b as [cb cur']. cbn [Money.currency].
  intros <-.
  assert (Hsame : CurrencyCode_eqb cur cur = true)
    by now apply CurrencyCode_eqb_eq.
  exists {| Money.cents := ca + cb; Money.currency := cur |}.
  unfold Money.add, Money.sub, Money.assertSameCurrency.
  cbn [Money.cents Money.currency]. rewrite Hsame. cbn [negb bind].
  repeat split; do 2 f_equal; lia.
Qed.

Lemma add_sub_cancel_witness :
  exists s : Money.t,
    Money.add oneDollar twoFifty = Returns s /\
    Money.sub s twoFifty = Returns oneDollar.
Proof.
  destruct (add_sub_cancel oneDollar twoFifty eq_refl) as (s & Ha & Hs & _).
  exists s. split; assumption.
Defined.

(** X16.  Scaling by an integer is exact as long as the amount, the
    factor and the product stay within 10^15: [mul] by the integer [n]
    returns [n] times the cents, and [mulBps] by 10000 bps returns the
    amount unchanged. *)
Theorem mul_integer_exact (a : Money.t) (n : Z) :
  Range.cents (Money.cents a) -> Range.cents n ->
  Range.cents (Money.cents a * n) ->
  Money.mul a (ofZ n) =
    Returns {| Money.cents := Money.cents a * n;
               Money.currency := Money.currency a |} /\
  Money.mulBps a (ofZ 10000) = Returns a.
Proof.
  unfold Range.cents, Range.centsMax. intros Ha _ Han.
  assert (Hr : forall z, Math_round (ofZ z) = ofZ z).
  { intros z. unfold Math_round, ofZ. f_equal.
    assert (E : (inject_Z z + (1 # 2) == (2 * z + 1) # 2)%Q)
      by (unfold Qeq, Qplus; cbn [Qnum Qden inject_Z];
          rewrite ?Pos2Z.inj_mul; lia).
    rewrite (Qfloor_comp _ _ E). cbn [Qfloor]. f_equal.
    Z.div_mod_to_equations; lia. }
  split.
  - unfold Money.mul, Number. rewrite times_ofZ, Hr, BigInt_ofZ by lia.
    reflexivity.
  - unfold Money.mulBps, Number.
    replace (over (ofZ 10000) (ofZ 10000)) with (ofZ 1)
      by (vm_compute; reflexivity).
    rewrite times_ofZ, Z.mul_1_r, Hr, BigInt_ofZ by lia.
    now destruct a.
Qed.

Lemma mul_integer_exact_witness :
  Money.mul twoFifty (ofZ 3) =
    Returns {| Money.cents := 750; Money.currency := USD |}.
Proof.
  apply (proj1 (mul_integer_exact twoFifty 3
                  ltac:(vm_compute; discriminate)
                  ltac:(vm_compute; discriminate)
                  ltac:(vm_compute; discriminate))).
Defined.

End MoneyConstruction.

(** ** Clamping and charm pricing of money *)

Section MoneyCharm.

Import Pricing Samples IntEval.

Lemma CurrencyCode_eqb_refl (cur : CurrencyCode) :
  CurrencyCode_eqb cur cur = true.
Proof. now destruct cur. Qed.

Lemma assertSameCurrency_cases (a b : Money.t) :
  (Money.currency a = Money.currency b /\
   Money.assertSameCurrency a b = Returns tt) \/
  (Money.currency a <> Money.currency b /\
   Money.assertSameCurrency a b = Throws "Currency mismatch").
Proof.
  unfold Money.assertSameCurrency.
  destruct (CurrencyCode_eqb (Money.currency a) (Money.currency b)) eqn:E.
  - left. split; [now apply CurrencyCode_eqb_eq | reflexivity].
  - right. split; [|reflexivity]. intros H.
    apply CurrencyCode_eqb_eq in H. congruence.
Qed.

(** X17.  [clamp] with both bounds in the receiver's currency returns
    [min(max, max(min, cents))] in that currency, hence an amount within
    the bounds whenever [min <= max]; a bound in another currency makes
    it throw "Currency mismatch"; without bounds it returns the
    receiver. *)
Theorem clamp_spec (a lo hi : Money.t) :
  (Money.currency lo = Money.currency a ->
   Money.currency hi = Money.currency a ->
   exists m : Money.t,
     Money.clamp a (Some lo) (Some hi) = Returns m /\
     Money.currency m = Money.currency a /\
     Money.cents m =
       Z.min (Money.cents hi) (Z.max (Money.cents lo) (Money.cents a)) /\
     (Money.cents lo <= Money.cents hi ->
      Money.cents lo <= Money.cents m <= Money.cents hi)) /\
  (Money.currency lo <> Money.currency a \/
   Money.currency hi <> Money.currency a ->
   Money.clamp a (Some lo) (Some hi) = Throws "Currency mismatch") /\
  Money.clamp a None None = Returns a.
Proof.
  split; [|split].
  - intros Hlo Hhi. unfold Money.clamp.
    destruct (assertSameCurrency_cases a lo) as [[_ ->]|[H _]];
      [|congruence].
    cbn [bind].
    destruct (assertSameCurrency_cases a hi) as [[_ ->]|[H _]];
      [|congruence].
    cbn [bind]. eexists. split; [reflexivity|].
    cbn [Money.cents Money.currency]. split; [reflexivity|].
    destruct (Z.ltb_spec (Money.cents a) (Money.cents lo));
      match goal with |- context [if ?x <? ?y then _ else _] =>
        destruct (Z.ltb_spec x y) end; lia.
  - intros H. unfold Money.clamp.
    destruct (assertSameCurrency_cases a lo) as [[Hl ->]|[_ ->]];
      [|reflexivity].
    cbn [bind].
    destruct (assertSameCurrency_cases a hi) as [[Hh ->]|[_ ->]];
      [|reflexivity].
    destruct H as [H|H]; congruence.
  - unfold Money.clamp. cbn [bind]. now destruct a.
Qed.

Lemma clamp_spec_witness :
  (exists m : Money.t,
     Money.clamp twoFifty (Some oneDollar) (Some oneDollar) = Returns m /\
     Money.cents m = 100) /\
  Money.clamp oneDollar (Some oneEuro) (Some twoFifty) =
    Throws "Currency mismatch".
Proof.
  split.
  - destruct (proj1 (clamp_spec twoFifty oneDollar oneDollar) eq_refl eq_refl)
      as (m & Hm & _ & Hc & _).
    exists m. split; [exact Hm | exact Hc].
  - apply (proj1 (proj2 (clamp_spec oneDollar oneEuro twoFifty))).
    left. discriminate.
Defined.

Lemma ending_int (charm : Charm) :
  charm <> none -> Money.ending charm = ofZ (endingZ (toEconCharm charm)).
Proof. destruct charm; intros H; try reflexivity. congruence. Qed.

(** [withCharm] on the path that applies a charm. *)
Lemma withCharm_charmed (this : Money.t) (charm : Charm)
    (min : option Money.t) :
  DECIMALS (Money.currency this) <> 0%nat ->
  charm <> none ->
  exists m : Money.t,
    Money.withCharm this charm min = Returns m /\
    Money.currency m = Money.currency this /\
    Money.cents m mod 100 = endingZ (toEconCharm charm) /\
    Money.cents this <= Money.cents m /\
    (forall mn, min = Some mn -> Money.cents mn <= Money.cents m) /\
    (min = None ->
     Econ.roundToCharm (ofZ (Money.cents this)) (toEconCharm charm) None =
     ofZ (Money.cents m)).
Proof.
  intros Hd Hc. destruct this as [c cur]. cbn [Money.currency Money.cents] in *.
  set (e := endingZ (toEconCharm charm)).
  assert (He : e = 99 \/ e = 95 \/ e = 90).
  { subst e. destruct charm; cbn; auto. congruence. }
  set (t := c / 100 * 100 + e).
  set (c1 := if t <? c then (c / 100 + 1) * 100 + e else t).
  assert (Hc1 : c1 = charmUp c (toEconCharm charm)).
  { subst c1 t e. unfold charmUp.
    destruct charm; try congruence; cbn [toEconCharm endingZ];
      match goal with |- context [if ?x <? ?y then _ else _] =>
        destruct (Z.ltb_spec x y), (Z.leb_spec y x) end; lia. }
  set (r := match min with
            | Some mn =>
                if c1 <? Money.cents mn
                then (Money.cents mn / 100 + 1) * 100 + e
                else c1
            | None => c1
            end).
  exists {| Money.cents := r; Money.currency := cur |}.
  assert (Hrun : Money.withCharm {| Money.cents := c; Money.currency := cur |}
                   charm min =
                 Returns {| Money.cents := r; Money.currency := cur |}).
  { unfold Money.withCharm, Number. cbn [Money.currency Money.cents].
    destruct (Nat.eqb_spec (DECIMALS cur) 0) as [H0|_]; [contradiction|].
    rewrite (ending_int charm Hc). fold e.
    rewrite floor_div_ofZ, mul_ofZ, !add_ofZ, mul_ofZ, add_ofZ by lia.
    rewrite !fromCents_ofZ. fold t.
    destruct charm; try congruence; cbn [bind Money.cents];
      fold c1;
      (replace (if t <? c
                then Returns {| Money.cents := (c / 100 + 1) * 100 + e;
                                Money.currency := cur |}
                else Returns {| Money.cents := t; Money.currency := cur |})
         with (Returns {| Money.cents := c1; Money.currency := cur |})
         by (subst c1; now destruct (t <? c)));
      cbn [bind Money.cents]; subst r;
      (destruct min as [mn|]; [|reflexivity]);
      (destruct (c1 <? Money.cents mn); [|reflexivity]);
      rewrite floor_div_ofZ, add_ofZ, mul_ofZ, add_ofZ by lia;
      apply fromCents_ofZ. }
  split; [exact Hrun|]. cbn [Money.currency Money.cents].
  pose proof (charmUp_ge c (toEconCharm charm)) as Hge.
  assert (Hend : c1 mod 100 = e).
  { rewrite Hc1. apply charmUp_ending. destruct charm; cbn; congruence. }
  rewrite <- Hc1 in Hge.
  split; [reflexivity|]. subst r.
  repeat split.
  - destruct min as [mn|]; [|assumption].
    destruct (c1 <? Money.cents mn); [|assumption].
    Z.div_mod_to_equations; lia.
  - destruct min as [mn|]; [|assumption].
    destruct (Z.ltb_spec c1 (Money.cents mn)); [|assumption].
    Z.div_mod_to_equations; lia.
  - intros mn ->. destruct (Z.ltb_spec c1 (Money.cents mn)); [|lia].
    Z.div_mod_to_equations; lia.
  - intros ->. rewrite Hc1. apply roundToCharm_no_minimum.
Qed.

(** X18.  Charm pricing.  For a currency with two decimals, a charm
    other than 'none', a non-negative amount of at most 10^15 cents and a
    minimum of at most 10^15 cents in magnitude, [withCharm] always
    returns, also when the minimum is in another currency: the result is
    in the receiver's currency, ends in the charm, is not below the
    receiver, and is not below the minimum when one is given.  Without a
    minimum it is the least such amount, the one [roundToCharm] of
    lib/econ.ts computes. *)
Theorem withCharm_spec (this : Money.t) (charm : Charm)
    (min : option Money.t) :
  DECIMALS (Money.currency this) <> 0%nat ->
  charm <> none ->
  0 <= Money.cents this <= Range.centsMax ->
  (forall mn, min = Some mn -> Range.cents (Money.cents mn)) ->
  exists m : Money.t,
    Money.withCharm this charm min = Returns m /\
    Money.currency m = Money.currency this /\
    Money.cents m mod 100 = endingZ (toEconCharm charm) /\
    Money.cents this <= Money.cents m /\
    (forall mn, min = Some mn -> Money.cents mn <= Money.cents m) /\
    (min = None ->
     Econ.roundToCharm (ofZ (Money.cents this)) (toEconCharm charm) None =
     ofZ (Money.cents m)).
Proof. intros Hd Hc _ _. now apply withCharm_charmed. Qed.

Lemma withCharm_spec_witness :
  exists m : Money.t,
    Money.withCharm oneDollar charm99 (Some oneEuro) = Returns m /\
    Money.cents m mod 100 = 99.
Proof.
  destruct (withCharm_spec oneDollar charm99 (Some oneEuro))
    as (m & Hm & _ & He & _); try discriminate.
  - split; vm_compute; discriminate.
  - intros mn E. assert (mn = oneEuro) by congruence. subst mn.
    vm_compute. discriminate.
  - exists m. split; [exact Hm | exact He].
Defined.

End MoneyCharm.

(** ** Charm ladders and price parameters *)

Section CharmLadder.

Import Pricing Samples IntEval.

Lemma withCharm_with_base (k b : Z) (cur : CurrencyCode) (charm : Charm) :
  exists z : Z,
    Money.withCharm {| Money.cents := k; Money.currency := cur |} charm
      (Some {| Money.cents := b; Money.currency := cur |}) =
    Returns {| Money.cents := z; Money.currency := cur |} /\
    b <= z /\ k <= z /\
    (DECIMALS cur <> 0%nat -> charm <> none ->
     z mod 100 = endingZ (toEconCharm charm)).
Proof.
  assert (Hplain :
    Money.clamp {| Money.cents := k; Money.currency := cur |}
      (Some {| Money.cents := b; Money.currency := cur |}) None =
    Returns {| Money.cents := Z.max k b; Money.currency := cur |}).
  { unfold Money.clamp, Money.assertSameCurrency.
    cbn [Money.currency Money.cents].
    rewrite CurrencyCode_eqb_refl. cbn [negb bind]. do 2 f_equal.
    destruct (Z.ltb_spec k b); lia. }
  destruct (Nat.eq_dec (DECIMALS cur) 0) as [Hd|Hd].
  - exists (Z.max k b). unfold Money.withCharm.
    cbn [Money.currency]. rewrite Hd. cbn [Nat.eqb]. rewrite Hplain.
    split; [now destruct charm|]. repeat split; intros; lia.
  - destruct charm.
    4: { exists (Z.max k b). unfold Money.withCharm. rewrite Hplain.
         repeat split; intros; try lia; congruence. }
    all: match goal with |- context [Money.withCharm ?t ?c ?m] =>
           destruct (withCharm_charmed t c m Hd)
             as ([z cur'] & Hrun & Hcur & Hend & Hge & Hmin & _);
             [discriminate|]
         end;
         cbn [Money.currency Money.cents] in *; subst cur';
         exists z; split; [exact Hrun|];
         specialize (Hmin _ eq_refl); cbn [Money.cents] in Hmin;
         repeat split; auto.
Qed.

Lemma mapCharmLadder_finite (b : Z) (cur : CurrencyCode) (charm : Charm)
    (qs : list Q) :
  Range.basePrice b -> Forall (fun q => Qabs q <= 100)%Q qs ->
  exists zs : list Z,
    mapCharmLadder {| Money.cents := b; Money.currency := cur |} charm
      (map Fin qs) = Returns zs /\
    List.length zs = List.length qs /\
    Forall (fun z => b <= z /\
                     (DECIMALS cur <> 0%nat -> charm <> none ->
                      z mod 100 = endingZ (toEconCharm charm))) zs.
Proof.
  intros Hb Hqs.
  induction Hqs as [|q qs Hq Hqs (zs & Hzs & Hlen & Hall)];
    cbn [map mapCharmLadder].
  - exists []. repeat split. constructor.
  - destruct (mul_in_range {| Money.cents := b; Money.currency := cur |} q)
      as (k & -> & _).
    { unfold Range.amount, Range.amountMax, Range.basePrice in *.
      cbn [Money.cents]. lia. }
    { apply Qle_trans with 100%Q; [assumption | discriminate]. }
    cbn [bind Money.currency].
    destruct (withCharm_with_base k b cur charm)
      as (z & -> & Hz & _ & Hend).
    cbn [bind]. rewrite Hzs. cbn [bind Money.cents].
    exists (z :: zs). split; [reflexivity|].
    split; [simpl; now rewrite Hlen|]. constructor; [now split | assumption].
Qed.

(** X19.  [buildCharmLadder] with a non-negative integer minimum price of
    at most a million dollars and multipliers of magnitude at most 100
    always returns.  The ladder has no duplicates and at most one price
    per multiplier; every price is an integer that is not below the
    minimum price, and ends in the charm when the currency has two
    decimals and the charm is not 'none'. *)
Theorem buildCharmLadder_spec (b : Z) (cur : CurrencyCode) (qs : list Q)
    (charm : Charm) :
  0 <= b <= 99999999 ->
  Forall Range.multiplier qs ->
  exists L : list number,
    buildCharmLadder (ofZ b) cur (map Fin qs) charm = Returns L /\
    NoDup L /\
    (List.length L <= List.length qs)%nat /\
    forall x, In x L ->
      exists z : Z,
        x = ofZ z /\ b <= z /\
        (DECIMALS cur <> 0%nat -> charm <> none ->
         z mod 100 = endingZ (toEconCharm charm)).
Proof.
  intros Hb Hqs. apply multipliers_bounded in Hqs.
  unfold buildCharmLadder. rewrite fromCents_ofZ. cbn [bind].
  destruct (mapCharmLadder_finite b cur charm qs) as (zs & -> & Hlen & Hall);
    [unfold Range.basePrice; lia | assumption |].
  cbn [bind]. eexists. split; [reflexivity|].
  split; [apply Array_from_Set_NoDup|]. split.
  - rewrite <- Hlen, <- (length_map Number zs).
    apply (fold_Set_add_length (map Number zs) []).
  - intros x Hx. apply Array_from_Set_incl, in_map_iff in Hx.
    destruct Hx as (z & <- & Hz). rewrite Forall_forall in Hall.
    destruct (Hall z Hz) as [Hz1 Hend]. exists z. now repeat split.
Qed.

Lemma buildCharmLadder_spec_witness :
  exists L : list number,
    buildCharmLadder (ofZ 1433) USD (map Fin doubleSteps) charm99 =
      Returns L /\
    NoDup L.
Proof.
  destruct (buildCharmLadder_spec 1433 USD doubleSteps charm99)
    as (L & HL & Hnd & _).
  - lia.
  - repeat constructor; vm_compute; (reflexivity || discriminate).
  - exists L. split; assumption.
Defined.

(** The ladder of the example break-even price. *)
Example buildCharmLadder_example :
  buildCharmLadder (ofZ 1433) USD (map Fin doubleSteps) charm99 =
  Returns [ofZ 1499; ofZ 1699; ofZ 1899].
Proof. vm_compute. reflexivity. Qed.

(** X20.  [roundCentsToCharm] on a non-negative integer of at most 10^15
    cents and a minimum of at most 10^15 cents in magnitude, for a
    currency with two decimals and a charm other than 'none', returns an
    integer that ends in the charm, is not below the cents, and is not
    below a non-zero minimum.  Without a minimum, or with a minimum of 0,
    it agrees with [roundToCharm] of lib/econ.ts. *)
Theorem roundCentsToCharm_spec (c : Z) (cur : CurrencyCode) (charm : Charm)
    (m : option Z) :
  DECIMALS cur <> 0%nat ->
  charm <> none ->
  0 <= c <= Range.centsMax ->
  (forall mn, m = Some mn -> Range.cents mn) ->
  exists r : Z,
    roundCentsToCharm (ofZ c) cur charm (option_map ofZ m) =
      Returns (ofZ r) /\
    r mod 100 = endingZ (toEconCharm charm) /\
    c <= r /\
    (forall mn, m = Some mn -> mn <> 0 -> mn <= r) /\
    (m = None \/ m = Some 0 ->
     Econ.roundToCharm (ofZ c) (toEconCharm charm) None = ofZ r).
Proof.
  intros Hd Hc _ _. unfold roundCentsToCharm.
  rewrite fromCents_ofZ. cbn [bind].
  set (min := match m with
              | Some mn =>
                  if mn =? 0 then None
                  else Some {| Money.cents := mn; Money.currency := cur |}
              | None => None
              end).
  assert (Hmin :
    match option_map ofZ m with
    | Some mc =>
        if truthy mc
        then (m0 <- Money.fromCents mc cur ;; Returns (Some m0))
        else Returns None
    | None => Returns None
    end = Returns min).
  { subst min. destruct m as [mn|]; cbn [option_map]; [|reflexivity].
    rewrite truthy_ofZ. destruct (mn =? 0); cbn [negb]; [reflexivity|].
    now rewrite fromCents_ofZ. }
  rewrite Hmin. cbn [bind].
  destruct (withCharm_charmed
              {| Money.cents := c; Money.currency := cur |} charm min Hd Hc)
    as (res & -> & _ & Hend & Hge & Hmn & Hnone).
  cbn [bind Money.cents] in *. exists (Money.cents res).
  split; [reflexivity|]. repeat split; try assumption.
  - intros mn -> Hmn0. subst min.
    destruct (Z.eqb_spec mn 0); [contradiction|].
    apply (Hmn _ eq_refl).
  - intros [-> | ->]; now apply Hnone.
Qed.

Lemma roundCentsToCharm_spec_witness :
  exists r : Z,
    roundCentsToCharm (ofZ 100) USD charm99 (Some (ofZ 250)) =
      Returns (ofZ r) /\
    r mod 100 = 99 /\ 250 <= r.
Proof.
  destruct (roundCentsToCharm_spec 100 USD charm99 (Some 250))
    as (r & Hr & He & _ & Hm & _); try discriminate.
  - split; vm_compute; discriminate.
  - intros mn E. assert (mn = 250) by congruence. subst mn.
    vm_compute. discriminate.
  - exists r. split; [exact Hr|]. split; [exact He|].
    apply (Hm 250 eq_refl). discriminate.
Defined.

(** X21.  [parsePriceParam] returns the lower bound (0 by default) for a
    missing or empty parameter, without comparing it to the upper bound.
    For a non-empty string it fails exactly as [Money.parse] does, and
    otherwise returns the parsed cents clamped as
    [min(max, max(min, cents))], which lies within integer bounds with
    [min <= max]. *)
Theorem parsePriceParam_spec (cur : CurrencyCode) (lo hi : option Z) :
  parsePriceParam None cur (option_map ofZ lo) (option_map ofZ hi) =
    Returns (ofZ (nullish lo 0)) /\
  parsePriceParam (Some EmptyString) cur (option_map ofZ lo)
    (option_map ofZ hi) = Returns (ofZ (nullish lo 0)) /\
  (forall (c : ascii) (str : string),
     (forall e, Money.parse (String c str) cur = Throws e ->
        parsePriceParam (Some (String c str)) cur (option_map ofZ lo)
          (option_map ofZ hi) = Throws e) /\
     (forall m, Money.parse (String c str) cur = Returns m ->
        exists r : Z,
          parsePriceParam (Some (String c str)) cur (option_map ofZ lo)
            (option_map ofZ hi) = Returns (ofZ r) /\
          r = Z.min (nullish hi 100000000)
                (Z.max (nullish lo 0) (Money.cents m)) /\
          (nullish lo 0 <= nullish hi 100000000 ->
           nullish lo 0 <= r <= nullish hi 100000000))).
Proof.
  unfold parsePriceParam.
  rewrite !nullish_ofZ. split; [reflexivity|]. split; [reflexivity|].
  intros c str. cbn [isEmpty]. split.
  - intros e ->. reflexivity.
  - intros m ->. cbn [bind]. unfold Number. rewrite lt_ofZ.
    set (a := nullish lo 0). set (b := nullish hi 100000000).
    set (k := Money.cents m).
    exists (Z.min b (Z.max a k)).
    split; [|split; [reflexivity | lia]].
    destruct (Z.ltb_spec k a); rewrite lt_ofZ;
      match goal with |- context [if ?x <? ?y then _ else _] =>
        destruct (Z.ltb_spec x y) end; do 2 f_equal; lia.
Qed.

(** A parameter above the default upper bound is cut to it; one that
    starts with a dot is rejected. *)
Example parsePriceParam_examples :
  parsePriceParam (Some "99999999999"%string) USD None None =
    Returns (ofZ 100000000) /\
  parsePriceParam (Some ".5"%string) USD None None =
    Throws "Invalid cents".
Proof. split; reflexivity. Qed.

End CharmLadder.

(** ** Printing and parsing amounts *)

Section PrintParse.

Import Pricing StringShape Samples.

Local Open Scope string_scope.
Local Open Scope Z_scope.

Lemma append_assoc (s t u : string) : (s ++ t) ++ u = s ++ (t ++ u).
Proof. induction s as [|c s IH]; simpl; [reflexivity | now rewrite IH]. Qed.

Lemma append_nil_r (s : string) : s ++ "" = s.
Proof. induction s as [|c s IH]; simpl; [reflexivity | now rewrite IH]. Qed.

Lemma length_append (s t : string) :
  String.length (s ++ t) = (String.length s + String.length t)%nat.
Proof. induction s as [|c s IH]; simpl; [reflexivity | now rewrite IH]. Qed.

Lemma digitChar_digit (d : Z) :
  0 <= d < 10 ->
  isDigit (digitChar d) = true /\ digitValue (digitChar d) = d.
Proof.
  intros Hd.
  assert (H : d = 0 \/ d = 1 \/ d = 2 \/ d = 3 \/ d = 4 \/ d = 5 \/
              d = 6 \/ d = 7 \/ d = 8 \/ d = 9) by lia.
  repeat (destruct H as [H|H]; [subst d; split; reflexivity|]).
  subst d. split; reflexivity.
Qed.

Lemma digit_not_dot (c : ascii) : isDigit c = true -> isDot c = false.
Proof.
  destruct c as [[] [] [] [] [] [] [] []]; intros H;
    try discriminate H; reflexivity.
Qed.

Lemma digitsValue_app (s t : string) (a : Z) :
  digitsValue a (s ++ t) = digitsValue (digitsValue a s) t.
Proof.
  revert a. induction s as [|c s IH]; intros a; cbn [append digitsValue];
    [reflexivity | apply IH].
Qed.

Lemma onlyDigits_app (s t : string) :
  onlyDigits (s ++ t) = onlyDigits s && onlyDigits t.
Proof.
  induction s as [|c s IH]; cbn [append onlyDigits]; [reflexivity|].
  now rewrite IH, andb_assoc.
Qed.

Lemma printDigits_app (fuel : nat) :
  forall (n : Z) (rest : string),
    printDigits fuel n rest = printDigits fuel n "" ++ rest.
Proof.
  induction fuel as [|fuel IH]; intros n rest; cbn [printDigits].
  - reflexivity.
  - destruct (n / 10 =? 0); [reflexivity|].
    rewrite (IH (n / 10) (String _ rest)), (IH (n / 10) (String _ "")).
    now rewrite append_assoc.
Qed.

Lemma printDigits_value (fuel : nat) :
  forall n : Z,
    0 <= n < 10 ^ Z.of_nat (S fuel) ->
    digitsValue 0 (printDigits (S fuel) n "") = n /\
    onlyDigits (printDigits (S fuel) n "") = true /\
    printDigits (S fuel) n "" <> "".
Proof.
  induction fuel as [|fuel IH]; intros n Hn;
    cbn [printDigits];
    assert (Hd : 0 <= n mod 10 < 10) by (apply Z.mod_pos_bound; lia);
    destruct (digitChar_digit (n mod 10) Hd) as [Hdig Hval];
    destruct (Z.eqb_spec (n / 10) 0) as [Hq|Hq];
    try (cbn [digitsValue onlyDigits]; rewrite Hdig, Hval;
         repeat split; [|discriminate];
         Z.div_mod_to_equations; lia).
  change (if n / 10 / 10 =? 0
          then String (digitChar (n / 10 mod 10))
                 (String (digitChar (n mod 10)) "")
          else printDigits fuel (n / 10 / 10)
                 (String (digitChar (n / 10 mod 10))
                    (String (digitChar (n mod 10)) "")))
    with (printDigits (S fuel) (n / 10) (String (digitChar (n mod 10)) "")).
  rewrite printDigits_app.
  assert (Hn' : 0 <= n / 10 < 10 ^ Z.of_nat (S fuel)).
  { split; [apply Z.div_pos; lia|].
    apply Z.div_lt_upper_bound; [lia|].
    rewrite (Nat2Z.inj_succ (S fuel)), Z.pow_succ_r in Hn by lia. lia. }
  destruct (IH (n / 10) Hn') as (Hv & Ho & Hne).
  rewrite digitsValue_app, onlyDigits_app, Hv, Ho.
  cbn [digitsValue onlyDigits andb]. rewrite Hdig, Hval.
  repeat split.
  - Z.div_mod_to_equations; lia.
  - destruct (printDigits (S fuel) (n / 10) ""); [congruence|discriminate].
Qed.

(** The decimal digits [decimalOf] prints denote the number printed. *)
Lemma decimalOf_value (n : Z) :
  0 <= n ->
  digitsValue 0 (decimalOf n) = n /\
  onlyDigits (decimalOf n) = true /\
  decimalOf n <> "".
Proof.
  intros Hn. unfold decimalOf. apply printDigits_value.
  split; [assumption|].
  rewrite Nat2Z.inj_succ, Z2Nat.id by apply Z.log2_nonneg.
  destruct (Z.eq_dec n 0) as [->|Hn0]; [reflexivity|].
  pose proof (Z.log2_spec n ltac:(lia)) as [_ Hlt].
  apply Z.lt_le_trans with (2 ^ Z.succ (Z.log2 n)); [assumption|].
  apply Z.pow_le_mono_l. pose proof (Z.log2_nonneg n). lia.
Qed.

Lemma digitsPrefix_digits (t : string) :
  forall a : Z,
    onlyDigits t = true ->
    digitsPrefix (Some a) t = Some (digitsValue a t).
Proof.
  induction t as [|c t IH]; intros a; cbn [onlyDigits digitsPrefix digitsValue].
  - reflexivity.
  - intros H. apply andb_prop in H. destruct H as [Hc Ht].
    rewrite Hc. cbn [nullish]. now apply IH.
Qed.

Lemma parseInt10_value (t : string) :
  onlyDigits t = true -> t <> "" ->
  parseInt10 t = ofZ (digitsValue 0 t).
Proof.
  intros Ht Hne. rewrite parseInt10_numeric by now apply onlyDigits_numeric.
  destruct t as [|c t]; [congruence|].
  cbn [onlyDigits] in Ht. apply andb_prop in Ht. destruct Ht as [Hc Ht].
  cbn [digitsPrefix digitsValue]. rewrite Hc. cbn [nullish].
  now rewrite digitsPrefix_digits.
Qed.

Lemma stripNonNumeric_app (s t : string) :
  stripNonNumeric (s ++ t) = stripNonNumeric s ++ stripNonNumeric t.
Proof.
  induction s as [|c s IH]; cbn [append stripNonNumeric]; [reflexivity|].
  rewrite IH. now destruct (isDigit c || isDot c).
Qed.

Lemma stripNonNumeric_id (s : string) :
  onlyNumeric s = true -> stripNonNumeric s = s.
Proof.
  induction s as [|c s IH]; cbn [onlyNumeric stripNonNumeric];
    [reflexivity|].
  intros H. apply andb_prop in H. destruct H as [Hc Hs].
  now rewrite Hc, IH.
Qed.

Lemma split_dot_digits_only (b : string) :
  onlyDigits b = true -> split_dot b = [b].
Proof.
  induction b as [|c b IH]; cbn [onlyDigits split_dot]; [reflexivity|].
  intros H. apply andb_prop in H. destruct H as [Hc Hb].
  now rewrite (digit_not_dot c Hc), (IH Hb).
Qed.

Lemma split_dot_point (a t : string) :
  onlyDigits a = true ->
  split_dot (a ++ String "." t) = a :: split_dot t.
Proof.
  induction a as [|c a IH]; cbn [onlyDigits append split_dot].
  - reflexivity.
  - intros H. apply andb_prop in H. destruct H as [Hc Ha].
    now rewrite (digit_not_dot c Hc), (IH Ha).
Qed.

(** What [Money.parse] reads from a stripped string "a.b" with two
    digits after the dot, and from a string of digits for a currency
    without decimals. *)
Lemma parse_of_stripped (str a b : string) (cur : CurrencyCode) :
  stripNonNumeric str = a ++ String "." b ->
  onlyDigits a = true -> a <> "" ->
  onlyDigits b = true -> String.length b = 2%nat ->
  DECIMALS cur = 2%nat ->
  Money.parse str cur =
  Returns {| Money.cents := digitsValue 0 a * 100 + digitsValue 0 b;
             Money.currency := cur |}.
Proof.
  intros Hs Ha Hne Hb Hlen Hd. unfold Money.parse.
  rewrite Hs, Hd. cbn [Nat.eqb].
  replace (isEmpty (a ++ String "." b)) with false
    by (now destruct a).
  rewrite split_dot_point, split_dot_digits_only by assumption.
  cbn [nth].
  destruct b as [|b1 [|b2 [|b3 b]]]; try discriminate Hlen.
  cbn [append substring isEmpty].
  rewrite !parseInt10_value by (assumption || discriminate).
  unfold pow10. rewrite mul_ofZ, add_ofZ. apply fromCents_ofZ.
Qed.

Lemma parse_of_stripped_units (str a : string) (cur : CurrencyCode) :
  stripNonNumeric str = a ->
  onlyDigits a = true -> a <> "" ->
  DECIMALS cur = 0%nat ->
  Money.parse str cur =
  Returns {| Money.cents := digitsValue 0 a; Money.currency := cur |}.
Proof.
  intros Hs Ha Hne Hd. unfold Money.parse. rewrite Hs, Hd.
  cbn [Nat.eqb]. replace (isEmpty a) with false by (now destruct a).
  rewrite parseInt10_value by assumption. apply fromCents_ofZ.
Qed.

Lemma zeros_facts (k : nat) :
  onlyDigits (zeros k) = true /\ digitsValue 0 (zeros k) = 0 /\
  String.length (zeros k) = k.
Proof.
  induction k as [|k (Ho & Hv & Hl)]; cbn [zeros onlyDigits digitsValue];
    [now repeat split|].
  repeat split; [exact Ho | exact Hv | simpl; now rewrite Hl].
Qed.

(** The last two characters of a string and what precedes them. *)
Lemma split_last2 (M : string) :
  (2 <= String.length M)%nat ->
  exists (a : string) (b1 b2 : ascii),
    M = a ++ String b1 (String b2 "") /\
    substring 0 (String.length M - 2) M = a /\
    substring (String.length M - 2) 2 M = String b1 (String b2 "").
Proof.
  induction M as [|c M IH]; [simpl; lia|]. intros Hlen.
  destruct (le_lt_dec 2 (String.length M)) as [H2|H2].
  - destruct (IH H2) as (a & b1 & b2 & HM & Ha & Hb).
    exists (String c a), b1, b2.
    replace (String.length (String c M) - 2)%nat
      with (S (String.length M - 2)) by (simpl; lia).
    cbn [substring append]. rewrite Ha, Hb. now rewrite HM at 1.
  - destruct M as [|c' [|c'' M]]; simpl in Hlen, H2; try lia.
    exists "", c, c'. repeat split.
Qed.

(** [toFixed(2)] of a finite number whose hundredths round to [n]. *)
Lemma toFixed_2 (q : Q) (n : Z) (neg : bool) :
  negb (Qle_bool 0 q) = neg ->
  Qle_bool (inject_Z (10 ^ 21)) (Qabs q) = false ->
  Qfloor (Qabs q * inject_Z (10 ^ Z.of_nat 2) + (1 # 2)) = n ->
  0 <= n ->
  exists a b : string,
    toFixed (Fin q) 2 =
      Some ((if neg then "-" else "") ++ a ++ String "." b) /\
    onlyDigits a = true /\ a <> "" /\
    onlyDigits b = true /\ String.length b = 2%nat /\
    digitsValue 0 a * 100 + digitsValue 0 b = n.
Proof.
  intros Hneg Hbig Hn Hn0. unfold toFixed. rewrite Hneg, Hbig, Hn.
  cbn [Nat.eqb].
  destruct (decimalOf_value n Hn0) as (Hv & Ho & Hne).
  set (m := decimalOf n) in *.
  set (M := if Nat.leb (String.length m) 2
            then zeros (2 + 1 - String.length m) ++ m else m).
  assert (HM : onlyDigits M = true /\ digitsValue 0 M = n /\
               (3 <= String.length M)%nat).
  { subst M. destruct (Nat.leb_spec (String.length m) 2) as [Hk|Hk].
    - destruct (zeros_facts (2 + 1 - String.length m)) as (Hzo & Hzv & Hzl).
      rewrite onlyDigits_app, digitsValue_app, length_append, Hzo, Hzv, Hzl,
        Ho, Hv.
      repeat split; lia.
    - repeat split; assumption || lia. }
  destruct HM as (HMo & HMv & HMl).
  destruct (split_last2 M ltac:(lia)) as (a & b1 & b2 & HMab & Ha & Hb).
  exists a, (String b1 (String b2 "")).
  rewrite Ha, Hb.
  rewrite HMab, onlyDigits_app in HMo. apply andb_prop in HMo.
  destruct HMo as [Hao Hbo].
  split; [reflexivity|]. split; [assumption|]. split.
  { intros ->. rewrite HMab in HMl. simpl in HMl. lia. }
  split; [assumption|]. split; [reflexivity|].
  rewrite HMab, digitsValue_app in HMv. cbn [digitsValue] in *. lia.
Qed.

(** [toFixed(0)] of a finite number that rounds to [n]. *)
Lemma toFixed_0 (q : Q) (n : Z) (neg : bool) :
  negb (Qle_bool 0 q) = neg ->
  Qle_bool (inject_Z (10 ^ 21)) (Qabs q) = false ->
  Qfloor (Qabs q * inject_Z (10 ^ Z.of_nat 0) + (1 # 2)) = n ->
  toFixed (Fin q) 0 = Some ((if neg then "-" else "") ++ decimalOf n).
Proof.
  intros Hneg Hbig Hn. unfold toFixed. now rewrite Hneg, Hbig, Hn.
Qed.

(** The three facts [toFixed] needs about [c / d] for integers [c] and
    [d = 10 ^ f]. *)
Lemma quotient_facts (c : Z) (d : positive) :
  Z.abs c < 10 ^ 21 ->
  let q := Qred (c # d) in
  negb (Qle_bool 0 q) = (c <? 0) /\
  Qle_bool (inject_Z (10 ^ 21)) (Qabs q) = false /\
  Qfloor (Qabs q * inject_Z (Z.pos d) + (1 # 2)) = Z.abs c.
Proof.
  intros Hc q.
  assert (Hq : (q == c # d)%Q) by apply Qred_correct.
  assert (Habs : (Qabs q == Z.abs c # d)%Q) by now rewrite Hq.
  split; [|split].
  - destruct (Qle_bool 0 q) eqn:E; cbn [negb]; symmetry.
    + apply Qle_bool_iff in E. rewrite Hq in E.
      unfold Qle in E. cbn [Qnum Qden] in E. apply Z.ltb_ge. lia.
    + apply Z.ltb_lt.
      destruct (Z.lt_ge_cases c 0) as [H|H]; [assumption|].
      assert (Qle_bool 0 q = true); [|congruence].
      apply Qle_bool_iff. rewrite Hq. unfold Qle. cbn [Qnum Qden]. lia.
  - destruct (Qle_bool (inject_Z (10 ^ 21)) (Qabs q)) eqn:E;
      [|reflexivity].
    apply Qle_bool_iff in E. rewrite Habs in E.
    unfold Qle in E. cbn [Qnum Qden inject_Z] in E.
    assert (Z.abs c * 1 < 10 ^ 21 * Z.pos d) by nia. lia.
  - assert (E : (Qabs q * inject_Z (Z.pos d) + (1 # 2)
                 == (2 * Z.abs c + 1) # 2)%Q).
    { rewrite Habs. unfold Qeq, Qplus, Qmult.
      cbn [Qnum Qden inject_Z]. rewrite ?Pos2Z.inj_mul. nia. }
    rewrite (Qfloor_comp _ _ E). cbn [Qfloor].
    Z.div_mod_to_equations; lia.
Qed.

(** X22.  A processor amount parses back: for every [Money] value of
    fewer than 16 digits (where the doubles of the implementation are
    exact), [toProcessorAmount] yields the value's currency
    and a string from which [Money.parse] returns the value again, or its
    absolute value when the cents are negative (the minus sign is
    stripped).  [toPayPalAmount] gives the same amount from the cents. *)
Theorem toProcessorAmount_parse (c : Z) (cur : CurrencyCode) :
  Z.abs c < 10 ^ 15 ->
  exists pa : Money.ProcessorAmount,
    Money.toProcessorAmount
      {| Money.cents := c; Money.currency := cur |} = Some pa /\
    toPayPalAmount (ofZ c) cur = Returns (Some pa) /\
    Money.currency_code pa = cur /\
    Money.parse (Money.value pa) cur =
      Returns {| Money.cents := Z.abs c; Money.currency := cur |}.
Proof.
  intros Hc15. assert (Hc : Z.abs c < 10 ^ 21) by lia.
  unfold toPayPalAmount. rewrite fromCents_ofZ. cbn [bind].
  unfold Money.toProcessorAmount, Number, pow10.
  cbn [Money.cents Money.currency].
  destruct (decimalOf_value (Z.abs c) (Z.abs_nonneg c)) as (Hv & Ho & Hne).
  destruct (Nat.eq_dec (DECIMALS cur) 0) as [Hd|Hd].
  - rewrite Hd. change (10 ^ Z.of_nat 0) with 1.
    rewrite div_ofZ by lia. change (Z.to_pos 1) with 1%positive.
    destruct (quotient_facts c 1 Hc) as (Hneg & Hbig & Hfl).
    rewrite (toFixed_0 _ (Z.abs c) (c <? 0) Hneg Hbig Hfl).
    cbn [option_map]. eexists. split; [reflexivity|].
    split; [reflexivity|]. split; [reflexivity|].
    cbn [Money.value]. rewrite <- Hv at 2.
    apply parse_of_stripped_units; try assumption.
    rewrite stripNonNumeric_app.
    rewrite (stripNonNumeric_id (decimalOf (Z.abs c)))
      by now apply onlyDigits_numeric.
    now destruct (c <? 0).
  - assert (Hd2 : DECIMALS cur = 2%nat) by (destruct cur; try reflexivity;
                                            contradiction).
    rewrite Hd2. change (10 ^ Z.of_nat 2) with 100.
    rewrite div_ofZ by lia. change (Z.to_pos 100) with 100%positive.
    destruct (quotient_facts c 100 Hc) as (Hneg & Hbig & Hfl).
    destruct (toFixed_2 _ (Z.abs c) (c <? 0) Hneg Hbig Hfl (Z.abs_nonneg c))
      as (a & b & -> & Hao & Hane & Hbo & Hbl & Hval).
    cbn [option_map]. eexists. split; [reflexivity|].
    split; [reflexivity|]. split; [reflexivity|].
    cbn [Money.value]. rewrite <- Hval.
    apply parse_of_stripped; try assumption.
    rewrite stripNonNumeric_app.
    rewrite (stripNonNumeric_id (a ++ String "." b)).
    + now destruct (c <? 0).
    + clear - Hao Hbo. induction a as [|x a IH]; cbn [append onlyNumeric].
      * apply onlyDigits_numeric in Hbo. now rewrite Hbo.
      * cbn [onlyDigits] in Hao. apply andb_prop in Hao.
        destruct Hao as [Hx Ha]. now rewrite Hx, (IH Ha).
Qed.

Lemma toProcessorAmount_parse_witness :
  exists pa : Money.ProcessorAmount,
    Money.toProcessorAmount oneDollar = Some pa /\
    Money.parse (Money.value pa) USD = Returns oneDollar.
Proof.
  destruct (toProcessorAmount_parse 100 USD) as (pa & Hpa & _ & _ & Hp).
  - reflexivity.
  - exists pa. split; [exact Hpa | exact Hp].
Defined.

(** X23.  What [humanizeCents] of lib/econ.ts prints, [Money.parse]
    reads: for every integer amount of fewer than 16 digits the printed
    string, such as "-$12.99", parses in a currency with two decimals to
    the absolute value of the amount. *)
Theorem humanizeCents_parse (n : Z) (cur : CurrencyCode) :
  Z.abs n < 10 ^ 15 ->
  DECIMALS cur = 2%nat ->
  exists s : string,
    Econ.humanizeCents (ofZ n) = Some s /\
    Money.parse s cur =
      Returns {| Money.cents := Z.abs n; Money.currency := cur |}.
Proof.
  intros Hn15 Hd. assert (Hn : Z.abs n < 10 ^ 21) by lia.
  unfold Econ.humanizeCents.
  assert (Habs : Math_abs (ofZ n) = ofZ (Z.abs n)).
  { unfold Math_abs, ofZ. change (Qabs (inject_Z n)) with (inject_Z (Z.abs n)).
    now rewrite Qred_int. }
  rewrite Habs, lt_ofZ, div_ofZ by lia.
  change (Z.to_pos 100) with 100%positive.
  assert (Hn' : Z.abs (Z.abs n) < 10 ^ 21) by (rewrite Z.abs_idemp; lia).
  destruct (quotient_facts (Z.abs n) 100 Hn') as (Hneg & Hbig & Hfl).
  rewrite Z.abs_idemp in Hfl.
  replace (Z.abs n <? 0) with false in Hneg
    by (symmetry; apply Z.ltb_ge, Z.abs_nonneg).
  destruct (toFixed_2 _ (Z.abs n) _ Hneg Hbig Hfl (Z.abs_nonneg n))
    as (a & b & -> & Hao & Hane & Hbo & Hbl & Hval).
  cbn [option_map]. eexists. split; [reflexivity|].
  rewrite <- Hval. apply parse_of_stripped; try assumption.
  do 3 rewrite stripNonNumeric_app.
  rewrite (stripNonNumeric_id (a ++ String "." b)).
  - now destruct (n <? 0).
  - clear - Hao Hbo. induction a as [|x a IH]; cbn [append onlyNumeric].
    + apply onlyDigits_numeric in Hbo. now rewrite Hbo.
    + cbn [onlyDigits] in Hao. apply andb_prop in Hao.
      destruct Hao as [Hx Ha]. now rewrite Hx, (IH Ha).
Qed.

Lemma humanizeCents_parse_witness :
  exists s : string,
    Econ.humanizeCents (ofZ (-1299)) = Some s /\
    Money.parse s USD =
      Returns {| Money.cents := 1299; Money.currency := USD |}.
Proof.
  apply (humanizeCents_parse (-1299) USD); reflexivity.
Defined.

(** What is printed for the amounts of the samples. *)
Example humanizeCents_examples :
  Econ.humanizeCents (ofZ (-1299)) = Some "-$12.99" /\
  Econ.humanizeCents (ofZ 5) = Some "$0.05" /\
  Econ.humanizeCents NaN = Some "$NaN".
Proof. repeat split; vm_compute; reflexivity. Qed.

End PrintParse.
